(** * Online intent inference: the three belief updaters of [util/predictors.py]

    A shallow embedding of [BayesianPredictor], [MaxEntPredictor] and
    [CRFPredictor], and the properties their specification states.

    Numbers.  The Python code computes on numpy [float64] arrays.  The model
    reads every arithmetic operation as the exact operation on real numbers
    ([R] of the Standard Library): rounding, overflow, underflow and the
    special values [inf] and [nan] have no counterpart.  [np.log] is [ln] and
    [np.exp] is [exp].  Where numpy would produce [inf] or [nan] (logarithm of
    a non-positive number, division of an array by zero) the model has the
    value the Standard Library gives these total functions; the theorems are
    stated on inputs where this does not happen.

    Range.  Float64 departs from this reading in kind where an operation
    overflows, underflows to zero or absorbs an operand.  The theorems that
    a sequence of updates returns beliefs within given bounds, or that one
    computed value lies strictly above another, are therefore stated with
    finite likelihoods (values of the hypotheses whose quotient by [tau] has
    magnitude at most [1e300]), a posterior temperature [beta >= 1] (for a
    small [beta] the power [post ** (1.0 / beta)] of every entry underflows
    to zero and the renormalization divides zero by zero), and a margin
    between the values compared.

    Exceptions.  What raises in Python raises in the model: [np.max] of an
    empty array ([ValueError]), an index outside [[-A, A)] ([IndexError]),
    the Python-level divisions [1.0 / beta] and [1.0 / self.N] by zero
    ([ZeroDivisionError]), shapes that do not broadcast ([ValueError]) and a
    call of a method a class does not define ([AttributeError]).  The
    division [Q / self.tau] of [CRFPredictor.unary_fn], on the number the
    external policy returns, is the quotient of real numbers; the theorems
    on what the methods return take [tau <> 0] wherever it is reached.

    State.  A method is a function from the object before the call to a
    result (a value or an exception) and the object after the call; an
    assignment to [self.x] made before an exception is raised stays made. *)

From Stdlib Require String.
From Stdlib Require Import Reals List ZArith Lia Lra Bool.
Import ListNotations.
Open Scope R_scope.

(** ** Exceptions and results *)

Inductive exn : Type :=
| IndexError
| ValueError
| ZeroDivisionError
| AttributeError.

Inductive result (A : Type) : Type :=
| Ok (a : A)
| Raise (e : exn).
Arguments Ok {A} a.
Arguments Raise {A} e.

Definition bindR {A B} (r : result A) (k : A -> result B) : result B :=
  match r with
  | Ok a => k a
  | Raise e => Raise e
  end.

Notation "'let?' x ':=' r 'in' k" := (bindR r (fun x => k))
  (at level 10, x name, r at level 100, k at level 200).

(** [[f(x) for x in l]] with an [f] that may raise: the first exception wins. *)
Fixpoint map_result {A B} (f : A -> result B) (l : list A) : result (list B) :=
  match l with
  | [] => Ok []
  | x :: xs =>
      let? y := f x in
      let? ys := map_result f xs in
      Ok (y :: ys)
  end.

(** ** State and exception monad of a method call *)

Definition M (St A : Type) : Type := St -> result A * St.

Definition ret {St A} (a : A) : M St A := fun s => (Ok a, s).

Definition bind {St A B} (c : M St A) (k : A -> M St B) : M St B :=
  fun s =>
    match c s with
    | (Ok a, s') => k a s'
    | (Raise e, s') => (Raise e, s')
    end.

(** [self.x] *)
Definition read {St A} (f : St -> A) : M St A := fun s => (Ok (f s), s).

(** [self.x = v], given the setter of field [x] *)
Definition assign {St A} (set : A -> St -> St) (v : A) : M St unit :=
  fun s => (Ok tt, set v s).

(** a computation that reads no state *)
Definition liftR {St A} (r : result A) : M St A := fun s => (r, s).

Declare Scope monad_scope.
Delimit Scope monad_scope with monad.
Notation "x <- c ;; k" := (bind c (fun x => k))
  (at level 61, c at next level, right associativity) : monad_scope.
Notation "c ;; k" := (bind c (fun _ => k))
  (at level 61, right associativity) : monad_scope.

(** ** The numpy operations the predictors use, on one-dimensional arrays *)

Definition vec : Type := list R.

(** [np.max(v)]: raises on an empty array. *)
Definition np_max (v : vec) : result R :=
  match v with
  | [] => Raise ValueError
  | x :: xs => Ok (fold_right Rmax x xs)
  end.

(** [np.sum(v)] *)
Definition np_sum (v : vec) : R := fold_right Rplus 0 v.

(** [np.exp(v)], [np.log(v)] *)
Definition np_exp (v : vec) : vec := map exp v.
Definition np_log (v : vec) : vec := map ln v.

(** array and scalar: [c * v], [v + c], [v - c], [v / c] *)
Definition scal (c : R) (v : vec) : vec := map (fun x => c * x) v.
Definition vadd_s (v : vec) (c : R) : vec := map (fun x => x + c) v.
Definition vsub_s (v : vec) (c : R) : vec := map (fun x => x - c) v.
Definition vdiv_s (v : vec) (c : R) : vec := map (fun x => x / c) v.

(** [x ** y] on a float with a positive base: [exp (y * ln x)].  The
    update methods reach this operation with positive bases whenever
    [p_switch <= 1]; for a base that is not positive the model gives [0]
    (numpy: [0] for base [0] and a positive exponent, otherwise [1], [inf],
    [nan] or a signed power), and no theorem below depends on that value. *)
Definition pow_s (x y : R) : R :=
  if Rlt_dec 0 x then Rpower x y else 0.

(** [v ** y] *)
Definition np_power (v : vec) (y : R) : vec := map (fun x => pow_s x y) v.

Fixpoint zip_with (f : R -> R -> R) (u v : vec) : vec :=
  match u, v with
  | x :: u', y :: v' => f x y :: zip_with f u' v'
  | _, _ => []
  end.

(** [u + v] on two arrays, with numpy's broadcasting of one-dimensional
    shapes: equal lengths, or one side of length 1. *)
Definition np_add (u v : vec) : result vec :=
  if Nat.eqb (length u) (length v) then Ok (zip_with Rplus u v)
  else match u, v with
       | [x], _ => Ok (map (fun y => x + y) v)
       | _, [y] => Ok (map (fun x => x + y) u)
       | _, _ => Raise ValueError
       end.

(** [v[i]] with a Python integer: indices in [[-len, 0)] count from the end. *)
Definition np_index (v : vec) (i : Z) : result R :=
  let n := Z.of_nat (length v) in
  if ((0 <=? i) && (i <? n))%Z then Ok (nth (Z.to_nat i) v 0)
  else if ((- n <=? i) && (i <? 0))%Z then Ok (nth (Z.to_nat (n + i)) v 0)
  else Raise IndexError.

(** [range(n)] *)
Definition range (n : Z) : list Z := map Z.of_nat (seq 0 (Z.to_nat n)).

(** [x / y] on Python numbers *)
Definition py_div (x y : R) : result R :=
  if Req_dec_T y 0 then Raise ZeroDivisionError else Ok (x / y).

(** The idiom that occurs in every method: subtract the maximum,
    exponentiate, divide by the sum.
    [m = np.max(v); e = np.exp(v - m); e / np.sum(e)] *)
Definition exp_normalize (v : vec) : result vec :=
  let? m := np_max v in
  let e := np_exp (vsub_s v m) in
  Ok (vdiv_s e (np_sum e)).

(** [np.ones(n) / n + 1e-12] then [np.log]: the stored uniform belief. *)
Definition uniform_log_post (n : nat) : vec :=
  np_log (vadd_s (vdiv_s (repeat 1 n) (INR n)) 1e-12).

(** ** Policy hypotheses (external): [policy.get_q_value(state, a)] *)

Record Policy (S : Type) : Type := { get_q_value : S -> Z -> R }.
Arguments get_q_value {S} p state a.

(** [util/SA_types.py] *)
Inductive Inference : Type := BAYESIAN | MAX_ENT | CRF.

(** ** [class BayesianPredictor] *)

Module Bayesian.
Section WithState.
Context {S : Type}.
Local Open Scope monad_scope.

Record t : Type := {
  policies : list (Policy S);
  N : nat;
  action_space_size : Z;
  eps : R;
  tau : R;
  log_post : vec
}.

Definition set_log_post (v : vec) (self : t) : t :=
  {| policies := policies self; N := N self;
     action_space_size := action_space_size self;
     eps := eps self; tau := tau self; log_post := v |}.

Definition default_action_space_size : Z := 4.
Definition default_tau : R := 0.8.
Definition default_eps : R := 1e-3.
Definition default_alpha : R := 0.05.
Definition default_p_switch : R := 0.02.
Definition default_beta : R := 1.

(** [__init__(self, policies, action_space_size, prior, tau, eps)] *)
Definition init (pols : list (Policy S)) (A : Z) (prior : option vec)
    (tau0 eps0 : R) : t :=
  let n := length pols in
  let prior :=
    match prior with
    | None => vdiv_s (repeat 1 n) (INR n)
    | Some p => p
    end in
  {| policies := pols; N := n; action_space_size := A;
     eps := eps0; tau := tau0;
     log_post := np_log (vadd_s prior 1e-12) |}.

(** [log_likelihood(self, state, user_action, policy)] *)
Definition log_likelihood (self : t) (state : S) (user_action : Z)
    (policy : Policy S) : result R :=
  let Q := map (fun a => get_q_value policy state a)
               (range (action_space_size self)) in
  let logits := vdiv_s Q (tau self) in
  let? probs := exp_normalize logits in
  let? p := np_index probs user_action in
  Ok (ln (p + 1e-8)).

(** [update(self, state, user_action, alpha, p_switch, beta)].
    [log_likes] is filled at the indices of [enumerate(self.policies)]; as
    [self.N] is [len(self.policies)] in every object [__init__] builds, it is
    the list of the policies' log-likelihoods. *)
Definition update (state : S) (user_action : Z) (alpha p_switch beta : R)
    : M t vec :=
  (* 1. log-likelihoods *)
  self <- read (fun s => s) ;;
  log_likes <- liftR (map_result (log_likelihood self state user_action)
                                 (policies self)) ;;
  (* 2. exponential forgetting *)
  old <- read log_post ;;
  lp <- liftR (np_add (scal (1 - alpha) old) (scal alpha log_likes)) ;;
  assign set_log_post lp ;;
  (* 3. normalize in probability space *)
  lp <- read log_post ;;
  post <- liftR (exp_normalize lp) ;;
  (* 4. goal-switch prior *)
  n <- read N ;;
  post <- (if Rlt_dec 0 p_switch
           then u <- liftR (py_div 1 (INR n)) ;;
                ret (vadd_s (scal (1 - p_switch) post) (p_switch * u))
           else ret post) ;;
  (* 5. posterior temperature *)
  post <- (if Req_dec_T beta 1
           then ret post
           else e <- liftR (py_div 1 beta) ;;
                let post := np_power post e in
                ret (vdiv_s post (np_sum post))) ;;
  (* 6. light smoothing *)
  eps0 <- read eps ;;
  u <- liftR (py_div 1 (INR n)) ;;
  let post := vadd_s (scal (1 - eps0) post) (eps0 * u) in
  (* 7. store back in log space *)
  assign set_log_post (np_log (vadd_s post 1e-12)) ;;
  ret post.

(** [get_prob(self)] *)
Definition get_prob : M t vec :=
  lp <- read log_post ;;
  liftR (exp_normalize lp).

End WithState.
Arguments t S : clear implicits.
End Bayesian.

(** ** [class MaxEntPredictor] *)

Module MaxEnt.
Section WithState.
Context {S : Type}.
Local Open Scope monad_scope.

Record t : Type := {
  policies : list (Policy S);
  N : nat;
  action_space_size : Z;
  tau : R;
  eps : R;
  log_post : vec
}.

Definition set_log_post (v : vec) (self : t) : t :=
  {| policies := policies self; N := N self;
     action_space_size := action_space_size self;
     tau := tau self; eps := eps self; log_post := v |}.

Definition default_action_space_size : Z := 4.
Definition default_tau : R := 0.8.
Definition default_eps : R := 1e-2.
Definition default_alpha : R := 0.5.

(** [__init__(self, policies, action_space_size, tau, eps)] *)
Definition init (pols : list (Policy S)) (A : Z) (tau0 eps0 : R) : t :=
  let n := length pols in
  {| policies := pols; N := n; action_space_size := A;
     tau := tau0; eps := eps0;
     log_post := uniform_log_post n |}.

(** [log_likelihood(self, state, user_action, policy)] *)
Definition log_likelihood (self : t) (state : S) (user_action : Z)
    (policy : Policy S) : result R :=
  let Q := map (fun a => get_q_value policy state a)
               (range (action_space_size self)) in
  let logits := vdiv_s Q (tau self) in
  let? probs := exp_normalize logits in
  let? p := np_index probs user_action in
  Ok (ln (p + 1e-12)).

(** [update(self, state, user_action, alpha)]; [log_likes] as in
    [BayesianPredictor.update]. *)
Definition update (state : S) (user_action : Z) (alpha : R) : M t vec :=
  self <- read (fun s => s) ;;
  log_likes <- liftR (map_result (log_likelihood self state user_action)
                                 (policies self)) ;;
  (* likelihoods as probabilities *)
  likes <- liftR (exp_normalize log_likes) ;;
  (* current posterior in probability space *)
  lp <- read log_post ;;
  post <- liftR (exp_normalize lp) ;;
  (* exponentially weighted update *)
  post <- liftR (np_add (scal (1 - alpha) post) (scal alpha likes)) ;;
  (* smoothing *)
  eps0 <- read eps ;;
  n <- read N ;;
  u <- liftR (py_div 1 (INR n)) ;;
  let post := vadd_s (scal (1 - eps0) post) (eps0 * u) in
  (* store back in log space *)
  assign set_log_post (np_log (vadd_s post 1e-12)) ;;
  ret post.

(** [get_prob(self)] *)
Definition get_prob : M t vec :=
  lp <- read log_post ;;
  liftR (exp_normalize lp).

End WithState.
Arguments t S : clear implicits.
End MaxEnt.

(** ** [class CRFPredictor] *)

Module CRF.
Section WithState.
Context {S : Type}.
Local Open Scope monad_scope.

Record t : Type := {
  policies : list (Policy S);
  N : nat;
  action_space_size : Z;
  eps : R;
  tau : R;
  pairwise_weight : R;
  alpha : R;
  p_switch : R;
  beta : R;
  log_post : vec;
  prev_action : option Z
}.

Definition set_log_post (v : vec) (self : t) : t :=
  {| policies := policies self; N := N self;
     action_space_size := action_space_size self;
     eps := eps self; tau := tau self;
     pairwise_weight := pairwise_weight self;
     alpha := alpha self; p_switch := p_switch self; beta := beta self;
     log_post := v; prev_action := prev_action self |}.

Definition set_prev_action (a : option Z) (self : t) : t :=
  {| policies := policies self; N := N self;
     action_space_size := action_space_size self;
     eps := eps self; tau := tau self;
     pairwise_weight := pairwise_weight self;
     alpha := alpha self; p_switch := p_switch self; beta := beta self;
     log_post := log_post self; prev_action := a |}.

Definition default_action_space_size : Z := 4.
Definition default_eps : R := 0.01.
Definition default_tau : R := 0.8.
Definition default_pairwise_weight : R := 0.3.
Definition default_alpha : R := 0.05.
Definition default_p_switch : R := 0.02.
Definition default_beta : R := 1.

(** [__init__(self, policies, action_space_size, eps, tau, pairwise_weight,
    alpha, p_switch, beta)] *)
Definition init (pols : list (Policy S)) (A : Z)
    (eps0 tau0 pairwise_weight0 alpha0 p_switch0 beta0 : R) : t :=
  let n := length pols in
  {| policies := pols; N := n; action_space_size := A;
     eps := eps0; tau := tau0; pairwise_weight := pairwise_weight0;
     alpha := alpha0; p_switch := p_switch0; beta := beta0;
     log_post := uniform_log_post n;
     prev_action := None |}.

(** [unary_fn(self, policy, state, action)].  The division is Python's, on
    the number the policy returns: with [tau = 0] it raises
    [ZeroDivisionError] on a Python float and gives [inf] or [nan] on a numpy
    scalar.  The model has the quotient of real numbers; the theorems on
    what the methods return take [tau <> 0] wherever it is reached. *)
Definition unary_fn (self : t) (policy : Policy S) (state : S) (action : Z)
    : R :=
  let Q := get_q_value policy state action in
  Q / tau self.

(** [pairwise_fn(self, prev_a, a)] *)
Definition pairwise_fn (self : t) (prev_a a : Z) : R :=
  if Z.eqb prev_a a then pairwise_weight self else 0.

(** The pairwise term of [log_likelihood]'s loop body:
    [pair = 0.0; if self.prev_action is not None: pair = self.pairwise_fn(self.prev_action, a)] *)
Definition pair_term (self : t) (a : Z) : R :=
  match prev_action self with
  | None => 0
  | Some prev_a => pairwise_fn self prev_a a
  end.

(** [log_likelihood(self, state, user_action, policy)] *)
Definition log_likelihood (self : t) (state : S) (user_action : Z)
    (policy : Policy S) : result R :=
  let logits := map (fun a => unary_fn self policy state a + pair_term self a)
                    (range (action_space_size self)) in
  let? probs := exp_normalize logits in
  let? p := np_index probs user_action in
  Ok (ln (p + 1e-12)).

(** Steps 1 to 7 of [update(self, state, user_action)]: the new belief. *)
Definition update_belief (state : S) (user_action : Z) : M t vec :=
  (* 1. log-likelihoods for all policies *)
  self <- read (fun s => s) ;;
  log_likes <- liftR (map_result (log_likelihood self state user_action)
                                 (policies self)) ;;
  (* 2. exponential forgetting *)
  alpha0 <- read alpha ;;
  old <- read log_post ;;
  lp <- liftR (np_add (scal (1 - alpha0) old) (scal alpha0 log_likes)) ;;
  assign set_log_post lp ;;
  (* 3. normalize in probability space *)
  lp <- read log_post ;;
  post <- liftR (exp_normalize lp) ;;
  (* 4. goal-switch prior *)
  p_switch0 <- read p_switch ;;
  n <- read N ;;
  post <- (if Rlt_dec 0 p_switch0
           then u <- liftR (py_div 1 (INR n)) ;;
                ret (vadd_s (scal (1 - p_switch0) post) (p_switch0 * u))
           else ret post) ;;
  (* 5. posterior temperature *)
  beta0 <- read beta ;;
  post <- (if Req_dec_T beta0 1
           then ret post
           else e <- liftR (py_div 1 beta0) ;;
                let post := np_power post e in
                ret (vdiv_s post (np_sum post))) ;;
  (* 6. light smoothing *)
  eps0 <- read eps ;;
  u <- liftR (py_div 1 (INR n)) ;;
  let post := vadd_s (scal (1 - eps0) post) (eps0 * u) in
  (* 7. store back in log space *)
  assign set_log_post (np_log (vadd_s post 1e-12)) ;;
  ret post.

(** [update(self, state, user_action)]: steps 1 to 7, then
    8. [self.prev_action = user_action], then [return post]. *)
Definition update (state : S) (user_action : Z) : M t vec :=
  post <- update_belief state user_action ;;
  assign set_prev_action (Some user_action) ;;
  ret post.

(** [get_prob(self)] *)
Definition get_prob : M t vec :=
  lp <- read log_post ;;
  liftR (exp_normalize lp).

(** [reset(self)] *)
Definition reset : M t unit :=
  n <- read N ;;
  assign set_log_post (uniform_log_post n) ;;
  assign set_prev_action None.

End WithState.
Arguments t S : clear implicits.
End CRF.

(** ** An updater of any of the three classes

    The caller holds one predictor object and calls its methods by name;
    a name the object's class does not define raises [AttributeError]. *)

Inductive Updater (S : Type) : Type :=
| UBayesian (b : Bayesian.t S)
| UMaxEnt (m : MaxEnt.t S)
| UCRF (c : CRF.t S).
Arguments UBayesian {S} b.
Arguments UMaxEnt {S} m.
Arguments UCRF {S} c.

Definition kind {S} (u : Updater S) : Inference :=
  match u with
  | UBayesian _ => BAYESIAN
  | UMaxEnt _ => MAX_ENT
  | UCRF _ => CRF
  end.

(** Runs a method of one class on the updater that holds an object of it. *)
Definition on_class {S T A} (inj : T -> Updater S) (c : M T A) (self : T)
    : result A * Updater S :=
  let (r, self') := c self in (r, inj self').

(** [u.get_prob()] *)
Definition call_get_prob {S} : M (Updater S) vec :=
  fun u =>
    match u with
    | UBayesian b => on_class UBayesian Bayesian.get_prob b
    | UMaxEnt m => on_class UMaxEnt MaxEnt.get_prob m
    | UCRF c => on_class UCRF CRF.get_prob c
    end.

(** [u.reset()]: only [CRFPredictor] defines [reset]. *)
Definition call_reset {S} : M (Updater S) unit :=
  fun u =>
    match u with
    | UBayesian _ => (Raise AttributeError, u)
    | UMaxEnt _ => (Raise AttributeError, u)
    | UCRF c => on_class UCRF CRF.reset c
    end.

(** [u.update(state, user_action)], the other arguments at their defaults. *)
Definition call_update {S} (state : S) (user_action : Z)
    : M (Updater S) vec :=
  fun u =>
    match u with
    | UBayesian b =>
        on_class UBayesian
          (Bayesian.update state user_action Bayesian.default_alpha
             Bayesian.default_p_switch Bayesian.default_beta) b
    | UMaxEnt m =>
        on_class UMaxEnt
          (MaxEnt.update state user_action MaxEnt.default_alpha) m
    | UCRF c => on_class UCRF (CRF.update state user_action) c
    end.

(** ** The pipeline in the words of the specification

    These definitions follow the specification's sentences, not the code;
    the theorems below compare the methods with them. *)

(** The largest entry (of a non-empty vector). *)
Definition vmax (v : vec) : R := fold_right Rmax (hd 0 v) (tl v).

(** "max-subtract, exponentiate, divide by sum" *)
Definition renormalize (v : vec) : vec :=
  let e := map (fun x => exp (x - vmax v)) v in
  map (fun y => y / np_sum e) e.

(** "[log_belief <- (1-alpha) * log_belief + alpha * log_likelihoods]" and
    "[post <- (1-alpha) * post + alpha * likes]": the entrywise blend. *)
Definition blend (alpha : R) (old new : vec) : vec :=
  zip_with (fun b l => (1 - alpha) * b + alpha * l) old new.

(** "[post <- (1-c) * post + c * uniform]", uniform being [1/N] *)
Definition mix_uniform (c : R) (n : nat) (post : vec) : vec :=
  map (fun x => (1 - c) * x + c * (1 / INR n)) post.

(** "if [p_switch > 0], [post] becomes [(1-p_switch)*post + p_switch*(1/N)]" *)
Definition goal_switch (p_switch : R) (n : nat) (post : vec) : vec :=
  if Rlt_dec 0 p_switch then mix_uniform p_switch n post else post.

(** "if [beta != 1], [post] becomes [post^(1/beta)] renormalized" *)
Definition temper (beta : R) (post : vec) : vec :=
  if Req_dec_T beta 1 then post
  else let q := map (fun x => pow_s x (1 / beta)) post in
       map (fun y => y / np_sum q) q.

(** The five steps after the log-likelihoods, in order. *)
Definition bayes_pipeline (alpha p_switch beta eps0 : R) (n : nat)
    (log_belief log_likelihoods : vec) : vec :=
  mix_uniform eps0 n
    (temper beta
       (goal_switch p_switch n
          (renormalize (blend alpha log_belief log_likelihoods)))).

(** "the log of that final vector (plus the small floor)" *)
Definition stored_log (post : vec) : vec := map (fun x => ln (x + 1e-12)) post.

(** The vector [1/N, ..., 1/N]. *)
Definition uniform (n : nat) : vec := repeat (1 / INR n) n.

(** ** Predicates on beliefs *)

Definition pos (v : vec) : Prop := Forall (fun x => 0 < x) v.

(** A point of the probability simplex. *)
Definition simplex (v : vec) : Prop := pos v /\ np_sum v = 1.

(** "every entry in (0,1), sum within 1e-6 of 1" *)
Definition valid_simplex (v : vec) : Prop :=
  Forall (fun x => 0 < x < 1) v /\ Rabs (np_sum v - 1) <= 1e-6.

(** Every entry is at least [b]. *)
Definition floor_at (b : R) (v : vec) : Prop := Forall (fun x => b <= x) v.

(** ** Running a sequence of calls

    [run step obs s] makes the calls [step o] for the observations [o] of
    [obs] in order, starting from the object [s]; it gives the values
    returned so far, the exception that stopped the run if there was one,
    and the object at the end. *)
Fixpoint run {St O A} (step : O -> M St A) (obs : list O) (s : St)
    : list A * option exn * St :=
  match obs with
  | [] => ([], None, s)
  | o :: rest =>
      match step o s with
      | (Ok a, s') =>
          let '(outs, e, s'') := run step rest s' in (a :: outs, e, s'')
      | (Raise e, s') => ([], Some e, s')
      end
  end.

(** The shape the three [log_likelihood] methods share: softmax of the
    logits, index by the action, add the floor, take the logarithm. *)
Definition loglik_of (floor : R) (logits : vec) (a : Z) : result R :=
  let? probs := exp_normalize logits in
  let? p := np_index probs a in
  Ok (ln (p + floor)).

(** ** The data model's ranges (specification, section 3) *)

(** An action index in [[0, A)]. *)
Definition valid_action (A a : Z) : Prop := (0 <= a < A)%Z.

(** A [BayesianPredictor] as its constructor leaves it and [update] keeps
    it, with [tau] and [eps] in range and at least one hypothesis and one
    action. *)
Record bayes_wf {S} (s : Bayesian.t S) : Prop := {
  bayes_N : Bayesian.N s = length (Bayesian.policies s);
  bayes_len : length (Bayesian.log_post s) = Bayesian.N s;
  bayes_hyps : (1 <= Bayesian.N s)%nat;
  bayes_acts : (1 <= Bayesian.action_space_size s)%Z;
  bayes_tau : 0 < Bayesian.tau s;
  bayes_eps : 0 <= Bayesian.eps s < 1
}.

(** One call of [BayesianPredictor.update] with its keyword arguments. *)
Record BayesCall (S : Type) : Type := {
  b_state : S;
  b_action : Z;
  b_alpha : R;
  b_p_switch : R;
  b_beta : R
}.
Arguments b_state {S}.
Arguments b_action {S}.
Arguments b_alpha {S}.
Arguments b_p_switch {S}.
Arguments b_beta {S}.

Definition bayes_step {S} (c : BayesCall S) : M (Bayesian.t S) vec :=
  Bayesian.update (b_state c) (b_action c) (b_alpha c) (b_p_switch c)
    (b_beta c).

Record bayes_call_ok (A : Z) {S} (c : BayesCall S) : Prop := {
  b_action_ok : valid_action A (b_action c);
  b_alpha_ok : 0 <= b_alpha c <= 1;
  b_p_switch_ok : 0 <= b_p_switch c <= 1;
  b_beta_ok : 0 < b_beta c
}.

Record maxent_wf {S} (s : MaxEnt.t S) : Prop := {
  maxent_N : MaxEnt.N s = length (MaxEnt.policies s);
  maxent_len : length (MaxEnt.log_post s) = MaxEnt.N s;
  maxent_hyps : (1 <= MaxEnt.N s)%nat;
  maxent_acts : (1 <= MaxEnt.action_space_size s)%Z;
  maxent_tau : 0 < MaxEnt.tau s;
  maxent_eps : 0 <= MaxEnt.eps s < 1
}.

(** One call of [MaxEntPredictor.update] with its keyword argument. *)
Record MaxEntCall (S : Type) : Type := {
  m_state : S;
  m_action : Z;
  m_alpha : R
}.
Arguments m_state {S}.
Arguments m_action {S}.
Arguments m_alpha {S}.

Definition maxent_step {S} (c : MaxEntCall S) : M (MaxEnt.t S) vec :=
  MaxEnt.update (m_state c) (m_action c) (m_alpha c).

Record maxent_call_ok (A : Z) {S} (c : MaxEntCall S) : Prop := {
  m_action_ok : valid_action A (m_action c);
  m_alpha_ok : 0 <= m_alpha c <= 1
}.

Record crf_wf {S} (s : CRF.t S) : Prop := {
  crf_N : CRF.N s = length (CRF.policies s);
  crf_len : length (CRF.log_post s) = CRF.N s;
  crf_hyps : (1 <= CRF.N s)%nat;
  crf_acts : (1 <= CRF.action_space_size s)%Z;
  crf_tau : 0 < CRF.tau s;
  crf_eps : 0 <= CRF.eps s < 1;
  crf_alpha : 0 <= CRF.alpha s <= 1;
  crf_p_switch : 0 <= CRF.p_switch s <= 1;
  crf_beta : 0 < CRF.beta s
}.

Definition crf_step {S} (c : S * Z) : M (CRF.t S) vec :=
  CRF.update (fst c) (snd c).

(** The stored log-belief of an updater. *)
Definition stored_belief {S} (u : Updater S) : vec :=
  match u with
  | UBayesian b => Bayesian.log_post b
  | UMaxEnt m => MaxEnt.log_post m
  | UCRF c => CRF.log_post c
  end.

(** ** Concrete predictors *)

(** A hypothesis whose value is [c] for every state and action. *)
Definition const_policy (c : R) : Policy unit :=
  {| get_q_value := fun _ _ => c |}.

(** A Bayesian predictor over one hypothesis, two actions, defaults. *)
Definition single_bayes : Bayesian.t unit :=
  Bayesian.init [const_policy 0] 2 None Bayesian.default_tau
    Bayesian.default_eps.

(** Predictors over two identical hypotheses, two actions, defaults. *)
Definition twin_bayes : Bayesian.t unit :=
  Bayesian.init [const_policy 0; const_policy 0] 2 None Bayesian.default_tau
    Bayesian.default_eps.

Definition twin_maxent : MaxEnt.t unit :=
  MaxEnt.init [const_policy 0; const_policy 0] 2 MaxEnt.default_tau
    MaxEnt.default_eps.

Definition twin_crf : CRF.t unit :=
  CRF.init [const_policy 0; const_policy 0] 2 CRF.default_eps
    CRF.default_tau CRF.default_pairwise_weight CRF.default_alpha
    CRF.default_p_switch CRF.default_beta.

(** A call with the default keyword arguments. *)
Definition default_bayes_call (a : Z) : BayesCall unit :=
  {| b_state := tt; b_action := a; b_alpha := Bayesian.default_alpha;
     b_p_switch := Bayesian.default_p_switch;
     b_beta := Bayesian.default_beta |}.

Definition default_maxent_call (a : Z) : MaxEntCall unit :=
  {| m_state := tt; m_action := a; m_alpha := MaxEnt.default_alpha |}.

(** The scenario of the specification's last testable property: two
    hypotheses, two actions, [tau = 0.8], hypothesis 0 with values (1,0) and
    hypothesis 1 with values (0,1) on the actions (0,1). *)
Definition hyp0 : Policy unit :=
  {| get_q_value := fun _ a => if Z.eqb a 0 then 1 else 0 |}.

Definition hyp1 : Policy unit :=
  {| get_q_value := fun _ a => if Z.eqb a 1 then 1 else 0 |}.

Definition scenario : Bayesian.t unit :=
  Bayesian.init [hyp0; hyp1] 2 None 0.8 Bayesian.default_eps.

(** The scenario's predictor with stored log-odds between 0 and [D]. *)
Definition scen_inv (D : R) (s : Bayesian.t unit) : Prop :=
  Bayesian.policies s = [hyp0; hyp1] /\ Bayesian.N s = 2%nat /\
  Bayesian.action_space_size s = 2%Z /\ Bayesian.tau s = 0.8 /\
  Bayesian.eps s = Bayesian.default_eps /\
  exists l0 l1, Bayesian.log_post s = [l0; l1] /\ 0 <= l0 - l1 <= D.

(** A belief over the two hypotheses with odds between 1 and [exp D]. *)
Definition scen_out (D : R) (v : vec) : Prop :=
  exists x y, v = [x; y] /\ 0 < y /\ y < x /\ x <= exp D * y /\ x + y = 1.

(** ** Distance to the uniform belief *)

(** The largest deviation of an entry of [v] from [u]. *)
Definition maxdev (u : R) (v : vec) : R :=
  fold_right Rmax 0 (map (fun x => Rabs (x - u)) v).

(** Distance to the uniform belief: the largest deviation from [1/N]. *)
Definition dist_uniform (v : vec) : R := maxdev (1 / INR (length v)) v.

(** The mixing with the uniform belief on one entry: [k * x + c]. *)
Definition affine (k c x : R) : R := k * x + c.

(** Scores [phi x], divided by their sum. *)
Definition score_normalize (phi : R -> R) (v : vec) : vec :=
  map (fun x => phi x / np_sum (map phi v)) v.

(** The score the temperature step applies. *)
Definition temper_score (beta : R) : R -> R :=
  if Req_dec_T beta 1 then (fun x => x) else (fun x => pow_s x (1 / beta)).

(** The same CRF predictor constructed with another [p_switch]. *)
Definition crf_with_p_switch {S} (p : R) (s : CRF.t S) : CRF.t S :=
  {| CRF.policies := CRF.policies s; CRF.N := CRF.N s;
     CRF.action_space_size := CRF.action_space_size s;
     CRF.eps := CRF.eps s; CRF.tau := CRF.tau s;
     CRF.pairwise_weight := CRF.pairwise_weight s;
     CRF.alpha := CRF.alpha s; CRF.p_switch := p; CRF.beta := CRF.beta s;
     CRF.log_post := CRF.log_post s;
     CRF.prev_action := CRF.prev_action s |}.

(** The logits each [log_likelihood] builds before the softmax. *)
Definition bayes_logits {S} (s : Bayesian.t S) (state : S) (pi : Policy S) : vec :=
  map (fun a => get_q_value pi state a / Bayesian.tau s)
      (range (Bayesian.action_space_size s)).

Definition maxent_logits {S} (s : MaxEnt.t S) (state : S) (pi : Policy S) : vec :=
  map (fun a => get_q_value pi state a / MaxEnt.tau s)
      (range (MaxEnt.action_space_size s)).

Definition crf_logits {S} (s : CRF.t S) (state : S) (pi : Policy S) : vec :=
  map (fun a => CRF.unary_fn s pi state a + CRF.pair_term s a)
      (range (CRF.action_space_size s)).

(** What one call returns: a simplex point of length [n] above the floor. *)
Definition belief_ok (e : R) (n : nat) (v : vec) : Prop :=
  simplex v /\ length v = n /\ floor_at (e / INR n) v.

(** What a sequence of calls keeps: a well-formed object with the same
    action space, [eps] and [N]. *)
Definition bayes_inv {S} (A : Z) (e : R) (n : nat) (s : Bayesian.t S) : Prop :=
  bayes_wf s /\ Bayesian.action_space_size s = A /\ Bayesian.eps s = e /\
  Bayesian.N s = n.

Definition maxent_inv {S} (A : Z) (e : R) (n : nat) (s : MaxEnt.t S) : Prop :=
  maxent_wf s /\ MaxEnt.action_space_size s = A /\ MaxEnt.eps s = e /\
  MaxEnt.N s = n.

Definition crf_inv {S} (A : Z) (e : R) (n : nat) (s : CRF.t S) : Prop :=
  crf_wf s /\ CRF.action_space_size s = A /\ CRF.eps s = e /\ CRF.N s = n.

(** Entries in (0,1] and sum within 1e-6 of 1; entries in (0,1) for
    at least two hypotheses; the vector [1] for one hypothesis. *)
Definition simplex_report (n : nat) (v : vec) : Prop :=
  (Forall (fun x => 0 < x <= 1) v /\ Rabs (np_sum v - 1) <= 1e-6) /\
  ((2 <= n)%nat -> valid_simplex v) /\
  (n = 1%nat -> v = [1]).

(** ** The range of the theorems on computed values *)

(** A stored log-belief as [__init__] (from a prior with entries in [0, 1])
    and [update] leave it: logarithms of numbers between [1e-12] and
    [1 + 1e-12]. *)
Definition stored_range (lp : vec) : Prop :=
  Forall (fun l => ln 1e-12 <= l <= ln (1 + 1e-12)) lp.

(** Finite likelihoods: at [state], every value a hypothesis gives to an
    action, divided by [tau], has magnitude at most [1e300]. *)
Definition finite_logits {S} (pols : list (Policy S)) (A : Z) (tau : R)
    (state : S) : Prop :=
  forall pi b, In pi pols -> (0 <= b < A)%Z ->
    Rabs (get_q_value pi state b / tau) <= 1e300.

(** A call of [BayesianPredictor.update] in the data model's ranges, with a
    posterior temperature that does not sharpen and finite likelihoods. *)
Definition bayes_call_smooth {S} (s : Bayesian.t S) (c : BayesCall S) : Prop :=
  bayes_call_ok (Bayesian.action_space_size s) c /\
  1 <= b_beta c /\
  finite_logits (Bayesian.policies s) (Bayesian.action_space_size s)
    (Bayesian.tau s) (b_state c).

Definition maxent_call_finite {S} (s : MaxEnt.t S) (c : MaxEntCall S) : Prop :=
  maxent_call_ok (MaxEnt.action_space_size s) c /\
  finite_logits (MaxEnt.policies s) (MaxEnt.action_space_size s)
    (MaxEnt.tau s) (m_state c).

Definition crf_call_finite {S} (s : CRF.t S) (c : S * Z) : Prop :=
  valid_action (CRF.action_space_size s) (snd c) /\
  finite_logits (CRF.policies s) (CRF.action_space_size s) (CRF.tau s)
    (fst c).

(** A CRF predictor whose temperature does not sharpen and whose pairwise
    weight float64 can add to a logit. *)
Definition crf_smooth {S} (s : CRF.t S) : Prop :=
  1 <= CRF.beta s /\ Rabs (CRF.pairwise_weight s) <= 1e300.

(** ** Reading beliefs back and comparing objects *)

(** What [get_prob] reports after [update] returned [post]: the floor
    [1e-12] was added to every entry before the logarithm was stored. *)
Definition read_back (n : nat) (post : vec) : vec :=
  map (fun x => (x + 1e-12) / (1 + INR n * 1e-12)) post.

(** The two objects agree on everything [__init__] sets except the belief. *)
Definition bayes_same_config {S} (s s' : Bayesian.t S) : Prop :=
  Bayesian.policies s' = Bayesian.policies s /\
  Bayesian.N s' = Bayesian.N s /\
  Bayesian.action_space_size s' = Bayesian.action_space_size s /\
  Bayesian.eps s' = Bayesian.eps s /\
  Bayesian.tau s' = Bayesian.tau s.

Definition maxent_same_config {S} (s s' : MaxEnt.t S) : Prop :=
  MaxEnt.policies s' = MaxEnt.policies s /\
  MaxEnt.N s' = MaxEnt.N s /\
  MaxEnt.action_space_size s' = MaxEnt.action_space_size s /\
  MaxEnt.tau s' = MaxEnt.tau s /\
  MaxEnt.eps s' = MaxEnt.eps s.

(** ... except the belief and the previous action. *)
Definition crf_same_config {S} (s s' : CRF.t S) : Prop :=
  CRF.policies s' = CRF.policies s /\
  CRF.N s' = CRF.N s /\
  CRF.action_space_size s' = CRF.action_space_size s /\
  CRF.eps s' = CRF.eps s /\
  CRF.tau s' = CRF.tau s /\
  CRF.pairwise_weight s' = CRF.pairwise_weight s /\
  CRF.alpha s' = CRF.alpha s /\
  CRF.p_switch s' = CRF.p_switch s /\
  CRF.beta s' = CRF.beta s.

(** The object at the end of a run. *)
Definition final_state {St A} (r : list A * option exn * St) : St := snd r.

(** ** [class SharedAutoPolicy] of [util/shared_auto.py]

    The action selector that consumes a belief.  [iter_space] is imported
    from a module that is not part of the sources: the model takes the tuple
    [tuple(iter_space(self._action_space))] as the action space itself.  The
    branch [sample=True], a random draw, is not modelled. *)

(** [np.min(v)]: raises on an empty array. *)
Definition np_min (v : vec) : result R :=
  match v with
  | [] => Raise ValueError
  | x :: xs => Ok (fold_right Rmin x xs)
  end.

(** The first index of the largest of [best] (at index [besti]) and the
    entries of [v], which start at index [i]. *)
Fixpoint argmax_from (best : R) (besti i : nat) (v : vec) : nat :=
  match v with
  | [] => besti
  | x :: xs =>
      if Rlt_dec best x then argmax_from x i (Datatypes.S i) xs
      else argmax_from best besti (Datatypes.S i) xs
  end.

(** [np.argmax(v)]: the first index of the maximum; raises on an empty
    array. *)
Definition np_argmax (v : vec) : result nat :=
  match v with
  | [] => Raise ValueError
  | x :: xs => Ok (argmax_from x 0 1 xs)
  end.

(** [scipy.special.logsumexp(v)] *)
Definition logsumexp (v : vec) : R := ln (np_sum (map exp v)).

(** [np.dot(p, rows)] for a vector and the rows of a matrix with [n]
    columns: the sum of the rows, each scaled by its weight. *)
Fixpoint weighted_rows (p : vec) (rows : list vec) (n : nat) : vec :=
  match p, rows with
  | w :: p', r :: rows' => zip_with Rplus (scal w r) (weighted_rows p' rows' n)
  | _, _ => repeat 0 n
  end.

Definition np_dot (p : vec) (rows : list vec) (n : nat) : result vec :=
  if Nat.eqb (length p) (length rows) then Ok (weighted_rows p rows n)
  else Raise ValueError.

(** [qs[i] = row] on a matrix with [n] columns: the row must have [n]
    entries, or one entry, which is broadcast. *)
Definition assign_row (n : nat) (row : vec) : result vec :=
  if Nat.eqb (length row) n then Ok row
  else match row with
       | [x] => Ok (repeat x n)
       | _ => Raise ValueError
       end.

(** [t[k]] on a tuple with a non-negative index. *)
Definition tuple_index (t : list Z) (k : nat) : result Z :=
  match nth_error t k with
  | Some a => Ok a
  | None => Raise IndexError
  end.

(** A policy as [SharedAutoPolicy] uses it: [q_table] (its entries),
    [get_q_value], and [get_q_values] when it has that attribute. *)
Record TablePolicy (S : Type) : Type := {
  policy_of : Policy S;
  q_table : vec;
  get_q_values : option (S -> list Z -> vec)
}.
Arguments policy_of {S}.
Arguments q_table {S}.
Arguments get_q_values {S}.

Module SharedAuto.
Section WithState.
Context {S : Type}.

Record t : Type := {
  _action_space : list Z;
  _policies : list (TablePolicy S);
  q_mins : vec;
  q_maxs : vec
}.

(** The body of the loop of [__init__]: [np.min] and [np.max] of the
    policy's table. *)
Definition table_range (p : TablePolicy S) : result (R * R) :=
  let? q_min := np_min (q_table p) in
  let? q_max := np_max (q_table p) in
  Ok (q_min, q_max).

(** [__init__(self, policies, action_space)] *)
Definition init (policies : list (TablePolicy S)) (action_space : list Z)
    : result t :=
  let? ranges := map_result table_range policies in
  Ok {| _action_space := action_space; _policies := policies;
        q_mins := map fst ranges; q_maxs := map snd ranges |}.

(** [normalize_q_value(self, q_value, policy_idx)] *)
Definition normalize_q_value (self : t) (q_value : R) (policy_idx : Z)
    : result R :=
  let? q_min := np_index (q_mins self) policy_idx in
  let? q_max := np_index (q_maxs self) policy_idx in
  if Req_dec_T (q_max - q_min) 0 then Ok 0.5
  else Ok ((q_value - q_min) / (q_max - q_min)).

(** [raw_qs], by [get_q_values] when the policy has it. *)
Definition raw_qs (x : S) (actions : list Z) (p : TablePolicy S) : vec :=
  match get_q_values p with
  | Some f => f x actions
  | None => map (fun a => get_q_value (policy_of p) x a) actions
  end.

(** The rows of [qs], for the policies from index [i] on. *)
Fixpoint fill_rows (self : t) (x : S) (actions : list Z) (i : nat)
    (policies : list (TablePolicy S)) : result (list vec) :=
  match policies with
  | [] => Ok []
  | p :: rest =>
      let? row := map_result
                    (fun q => normalize_q_value self q (Z.of_nat i))
                    (raw_qs x actions p) in
      let? row := assign_row (length actions) row in
      let? rows := fill_rows self x actions (Datatypes.S i) rest in
      Ok (row :: rows)
  end.

(** [expected_q] of [get_action], after [logsumexp] was subtracted. *)
Definition expected_q (self : t) (x : S) (prob_policy : vec) : result vec :=
  let actions := _action_space self in
  let? qs := fill_rows self x actions 0 (_policies self) in
  let? e := np_dot prob_policy qs (length actions) in
  Ok (vsub_s e (logsumexp e)).

(** [get_action(self, x, prob_policy, return_dist=True)] *)
Definition get_action_dist (self : t) (x : S) (prob_policy : vec)
    : result (Z * vec) :=
  let? e := expected_q self x prob_policy in
  let? k := np_argmax e in
  let? a := tuple_index (_action_space self) k in
  Ok (a, np_exp e).

(** [get_action(self, x, prob_policy)], both flags [False] *)
Definition get_action (self : t) (x : S) (prob_policy : vec) : result Z :=
  let? e := expected_q self x prob_policy in
  let? k := np_argmax e in
  tuple_index (_action_space self) k.

End WithState.
Arguments t S : clear implicits.
End SharedAuto.

(** The belief-weighted normalized value of an action, as the selector
    scores it: the sum over the hypotheses of the belief times the
    normalized value. *)
Fixpoint expected_value {S} (self : SharedAuto.t S) (x : S) (a : Z)
    (i : nat) (prob : vec) (policies : list (TablePolicy S)) : R :=
  match prob, policies with
  | w :: prob', p :: rest =>
      w * match SharedAuto.normalize_q_value self
                  (get_q_value (policy_of p) x a) (Z.of_nat i) with
          | Ok r => r
          | Raise _ => 0
          end
      + expected_value self x a (Datatypes.S i) prob' rest
  | _, _ => 0
  end.

(** The normalized value when the range of the table is [[lo, hi]]. *)
Definition norm_at (lo hi q : R) : R :=
  if Req_dec_T (hi - lo) 0 then 0.5 else (q - lo) / (hi - lo).

(** The belief that puts all weight on the policy with index [i]. *)
Definition one_hot (i n : nat) : vec :=
  map (fun j => if Nat.eqb j i then 1 else 0) (seq 0 n).

(** Two policies with tables, for the scenario's hypotheses. *)
Definition table0 : TablePolicy unit :=
  {| policy_of := hyp0; q_table := [1; 0]; get_q_values := None |}.

Definition table1 : TablePolicy unit :=
  {| policy_of := hyp1; q_table := [0; 1]; get_q_values := None |}.

(** The selector [__init__] builds for these two policies and the actions
    0 and 1. *)
Definition two_tables : SharedAuto.t unit :=
  {| SharedAuto._action_space := [0%Z; 1%Z];
     SharedAuto._policies := [table0; table1];
     SharedAuto.q_mins := [0; 0];
     SharedAuto.q_maxs := [1; 1] |}.

(** The values the policies return at [x] are entries of their tables. *)
Definition values_in_tables {S} (pols : list (TablePolicy S)) (acts : list Z)
    (x : S) : Prop :=
  forall p b, In p pols -> In b acts ->
    In (get_q_value (policy_of p) x b) (q_table p).

(** A table whose entries float64 can subtract: magnitude at most [1e300]. *)
Definition moderate_table (t : vec) : Prop :=
  Forall (fun q => Rabs q <= 1e300) t.

(** A belief as the selector expects it, and as [update] and [get_prob]
    return it in float64: non-negative weights whose sum is within [1e-6]
    of 1. *)
Definition probability_vector (p : vec) : Prop :=
  Forall (fun w => 0 <= w) p /\ Rabs (np_sum p - 1) <= 1e-6.

(** ** [class Method_Selector] of [util/selector.py]

    The on-screen menu.  [get] loops: it reads the mouse position, draws the
    options, then handles the queued events.  The model gives [get] the
    passes of the loop as a list of frames (the mouse position and the events
    [pygame.event.get()] returns in that pass); what is drawn is not
    modelled, only whether drawing raises. *)

(** An option of the menu: a string, as in the default argument, or a member
    of one of the enumerations of [util/SA_types.py], which has the attribute
    [value]. *)
Inductive menu_option : Type :=
| StrOption (s : String.string)
| EnumOption (value : String.string).

(** [option.value] *)
Definition option_value (o : menu_option) : result String.string :=
  match o with
  | StrOption _ => Raise AttributeError
  | EnumOption v => Ok v
  end.

(** The default argument of [__init__], and the members of [Inference]. *)
Module MenuOptions.
Import String.
Local Open Scope string_scope.

Definition default_options : list menu_option :=
  [StrOption "Policy A"; StrOption "Policy B"; StrOption "Policy C";
   StrOption "Policy D"].

(** [Inference.X.value] *)
Definition inference_value (i : Inference) : String.string :=
  match i with
  | BAYESIAN => "Bayesian"
  | MAX_ENT => "Max Entropy"
  | CRF => "Conditional Random Fields"
  end.

(** [list(Inference)] *)
Definition inference_options : list menu_option :=
  List.map (fun i => EnumOption (inference_value i)) [BAYESIAN; MAX_ENT; CRF].

End MenuOptions.

Inductive ui_event : Type :=
| QUIT
| MOUSEBUTTONDOWN (x y : Z)
| KEYDOWN (key_is_return : bool)
| OtherEvent.

Record frame : Type := {
  mouse_pos : Z * Z;
  queued : list ui_event
}.

(** How a call of [get] ends: it returns an option, it leaves through
    [sys.exit()], it raises, or the frames given are used up and the loop is
    still running. *)
Inductive get_result : Type :=
| Returned (o : menu_option)
| SystemExit
| RaisedUnboundLocalError
| RaisedAttributeError
| StillRunning.

(** [50 < x < 350 and text_y - 5 < y < text_y + 35] with
    [text_y = 60 + 50 * i] *)
Definition in_box (i : nat) (x y : Z) : bool :=
  let text_y := (60 + 50 * Z.of_nat i)%Z in
  ((50 <? x) && (x <? 350) && (text_y - 5 <? y) && (y <? text_y + 35))%Z.

(** The hover loop of [get]: the last index whose box holds the mouse. *)
Definition hover_index (n : nat) (mx my : Z) : option nat :=
  fold_left (fun acc i => if in_box i mx my then Some i else acc)
            (seq 0 n) None.

(** The loop of the [MOUSEBUTTONDOWN] branch: the first index whose box
    holds the click. *)
Definition clicked_index (n : nat) (x y : Z) : option nat :=
  find (fun i => in_box i x y) (seq 0 n).

(** [draw_options]: rendering evaluates [option.value] of every option. *)
Definition draw_options (options : list menu_option) : result unit :=
  let? _ := map_result option_value options in Ok tt.

(** The [for event in pygame.event.get()] loop of one pass; [running] is the
    loop variable of [get].  [selected_index] is a local variable of [get]
    that is assigned only just before [return], so the test
    [selected_index is not None] of the [KEYDOWN] branch, reached when the
    key is [K_RETURN], reads an unbound local. *)
Fixpoint handle_events (options : list menu_option) (events : list ui_event)
    (running : bool) : get_result + bool :=
  match events with
  | [] => inr running
  | QUIT :: rest => handle_events options rest false
  | MOUSEBUTTONDOWN x y :: rest =>
      match clicked_index (length options) x y with
      | Some i => inl (Returned (nth i options (StrOption String.EmptyString)))
      | None => handle_events options rest running
      end
  | KEYDOWN key_is_return :: rest =>
      if key_is_return then inl RaisedUnboundLocalError
      else handle_events options rest running
  | OtherEvent :: rest => handle_events options rest running
  end.

(** [get(self)] on the frames given. *)
Fixpoint selector_get (options : list menu_option) (frames : list frame)
    : get_result :=
  match frames with
  | [] => StillRunning
  | f :: rest =>
      match draw_options options with
      | Raise _ => RaisedAttributeError
      | Ok _ =>
          match handle_events options (queued f) true with
          | inl r => r
          | inr true => selector_get options rest
          | inr false => SystemExit
          end
      end
  end.

(** An event that neither ends [get] nor stops the loop: no [QUIT], no
    [K_RETURN], no click inside a box. *)
Definition inert (n : nat) (e : ui_event) : bool :=
  match e with
  | QUIT => false
  | MOUSEBUTTONDOWN x y =>
      match clicked_index n x y with Some _ => false | None => true end
  | KEYDOWN key_is_return => negb key_is_return
  | OtherEvent => true
  end.

(** An event that does not end [get] at once: as [inert], or [QUIT]. *)
Definition passes (n : nat) (e : ui_event) : bool :=
  match e with
  | QUIT => true
  | _ => inert n e
  end.

(** * Lemmas on vectors *)

Section VectorFacts.

Lemma np_sum_map_affine (a b : R) (v : vec) :
  np_sum (map (fun x => a * x + b) v) = a * np_sum v + b * INR (length v).
Proof.
  induction v as [|x v IH].
  - simpl. lra.
  - change (length (x :: v)) with (Datatypes.S (length v)).
    rewrite S_INR. simpl. rewrite IH. lra.
Qed.

Lemma np_sum_map_div (c : R) (v : vec) :
  np_sum (map (fun x => x / c) v) = np_sum v / c.
Proof.
  induction v as [|x v IH]; simpl.
  - unfold Rdiv. lra.
  - rewrite IH. unfold Rdiv. lra.
Qed.

Lemma pos_sum_nonneg (v : vec) : pos v -> 0 <= np_sum v.
Proof.
  induction 1 as [|x v Hx _ IH]; simpl; lra.
Qed.

Lemma pos_sum_pos (v : vec) : pos v -> v <> [] -> 0 < np_sum v.
Proof.
  intros Hp Hne. destruct Hp as [|x v Hx Hv]; [congruence|].
  simpl. pose proof (pos_sum_nonneg v Hv). lra.
Qed.

Lemma pos_In_le_sum (v : vec) (x : R) : pos v -> In x v -> x <= np_sum v.
Proof.
  induction 1 as [|y v Hy Hv IH]; intros Hin; simpl in *; [tauto|].
  pose proof (pos_sum_nonneg v Hv).
  destruct Hin as [->|Hin]; [lra|]. specialize (IH Hin). lra.
Qed.

Lemma pos_In_lt_sum (v : vec) (x : R) :
  pos v -> (2 <= length v)%nat -> In x v -> x < np_sum v.
Proof.
  intros Hp Hlen Hin.
  destruct Hp as [|y v Hy Hv]; [simpl in Hlen; lia|].
  simpl in *. destruct Hin as [->|Hin].
  - assert (v <> []) by (destruct v; simpl in Hlen; [lia|discriminate]).
    pose proof (pos_sum_pos v Hv H). lra.
  - pose proof (pos_In_le_sum v x Hv Hin). lra.
Qed.

Lemma pos_map (f : R -> R) (v : vec) :
  (forall x, In x v -> 0 < f x) -> pos (map f v).
Proof.
  intros H. apply Forall_forall. intros y Hy.
  apply in_map_iff in Hy. destruct Hy as [x [<- Hx]]. auto.
Qed.

Lemma div_sum_simplex (e : vec) :
  pos e -> e <> [] -> simplex (map (fun y => y / np_sum e) e).
Proof.
  intros Hp Hne. pose proof (pos_sum_pos e Hp Hne) as Hs. split.
  - apply pos_map. intros x Hx.
    assert (0 < x) by (eapply Forall_forall in Hp; eauto).
    apply Rdiv_lt_0_compat; assumption.
  - rewrite np_sum_map_div. field. lra.
Qed.

Lemma renormalize_simplex (v : vec) : v <> [] -> simplex (renormalize v).
Proof.
  intros Hne. unfold renormalize. apply div_sum_simplex.
  - apply pos_map. intros x _. apply exp_pos.
  - destruct v; [congruence|discriminate].
Qed.

Lemma renormalize_length (v : vec) : length (renormalize v) = length v.
Proof. unfold renormalize. now rewrite !length_map. Qed.

Lemma exp_normalize_eq (v : vec) :
  exp_normalize v =
  match v with [] => Raise ValueError | _ => Ok (renormalize v) end.
Proof.
  destruct v as [|x v]; [reflexivity|].
  unfold exp_normalize, renormalize, vmax, np_exp, vsub_s, vdiv_s. simpl.
  rewrite !map_map. reflexivity.
Qed.

Lemma simplex_mix_uniform (c : R) (n : nat) (v : vec) :
  simplex v -> length v = n -> 0 <= c <= 1 -> simplex (mix_uniform c n v).
Proof.
  intros [Hp Hs] Hlen Hc.
  assert (Hn : 0 < INR n).
  { apply lt_0_INR. destruct v; simpl in *; [lra|subst; lia]. }
  assert (Hu : 0 < 1 / INR n) by (apply Rdiv_lt_0_compat; lra).
  unfold mix_uniform. split.
  - apply pos_map. intros x Hx.
    assert (0 < x) by (eapply Forall_forall in Hp; eauto).
    destruct (Rle_lt_dec c 0); nra.
  - replace (fun x => (1 - c) * x + c * (1 / INR n))
      with (fun x => (1 - c) * x + (c * (1 / INR n))) by reflexivity.
    rewrite np_sum_map_affine, Hs, Hlen. field. lra.
Qed.

Lemma mix_uniform_floor (c : R) (n : nat) (v : vec) :
  pos v -> c <= 1 -> floor_at (c / INR n) (mix_uniform c n v).
Proof.
  intros Hp Hc. unfold floor_at, mix_uniform. apply Forall_forall.
  intros y Hy. apply in_map_iff in Hy. destruct Hy as [x [<- Hx]].
  assert (0 < x) by (eapply Forall_forall in Hp; eauto).
  unfold Rdiv. nra.
Qed.

Lemma mix_uniform_length (c : R) (n : nat) (v : vec) :
  length (mix_uniform c n v) = length v.
Proof. unfold mix_uniform. now rewrite length_map. Qed.

Lemma goal_switch_simplex (p : R) (n : nat) (v : vec) :
  simplex v -> length v = n -> p <= 1 -> simplex (goal_switch p n v).
Proof.
  intros Hv Hlen Hp. unfold goal_switch.
  destruct (Rlt_dec 0 p); [|assumption].
  apply simplex_mix_uniform; auto. lra.
Qed.

Lemma goal_switch_length (p : R) (n : nat) (v : vec) :
  length (goal_switch p n v) = length v.
Proof.
  unfold goal_switch. destruct (Rlt_dec 0 p); auto using mix_uniform_length.
Qed.

Lemma pow_s_pos (x y : R) : 0 < x -> 0 < pow_s x y.
Proof.
  intros Hx. unfold pow_s. destruct (Rlt_dec 0 x); [|contradiction].
  unfold Rpower. apply exp_pos.
Qed.

Lemma temper_simplex (beta : R) (v : vec) :
  simplex v -> simplex (temper beta v).
Proof.
  intros [Hp Hs]. unfold temper.
  destruct (Req_dec_T beta 1); [split; assumption|].
  apply div_sum_simplex.
  - apply pos_map. intros x Hx. apply pow_s_pos.
    eapply Forall_forall in Hp; eauto.
  - destruct v; simpl in *; [lra|discriminate].
Qed.

Lemma temper_length (beta : R) (v : vec) : length (temper beta v) = length v.
Proof.
  unfold temper. destruct (Req_dec_T beta 1); auto. now rewrite !length_map.
Qed.

Lemma simplex_valid (v : vec) :
  simplex v -> (2 <= length v)%nat -> valid_simplex v.
Proof.
  intros [Hp Hs] Hlen. split.
  - apply Forall_forall. intros x Hx. split.
    + eapply Forall_forall in Hp; eauto.
    + rewrite <- Hs. apply pos_In_lt_sum; assumption.
  - rewrite Hs. replace (1 - 1) with 0 by lra. rewrite Rabs_R0. lra.
Qed.

End VectorFacts.

(** * The methods against the pipeline *)

Section MethodFacts.
Context {S : Type}.

Lemma map_result_length {A B} (f : A -> result B) (l : list A) (r : list B) :
  map_result f l = Ok r -> length r = length l.
Proof.
  revert r. induction l as [|x l IH]; simpl; intros r H.
  - injection H as <-. reflexivity.
  - destruct (f x) as [y|e]; simpl in H; [|discriminate].
    destruct (map_result f l) as [ys|e]; simpl in H; [|discriminate].
    injection H as <-. simpl. f_equal. auto.
Qed.

Lemma map_result_ok {A B} (f : A -> result B) (g : A -> B) (l : list A) :
  (forall x, In x l -> f x = Ok (g x)) -> map_result f l = Ok (map g l).
Proof.
  induction l as [|x l IH]; simpl; intros H; [reflexivity|].
  rewrite (H x) by auto. simpl. rewrite IH by auto. reflexivity.
Qed.


Lemma zip_with_length (f : R -> R -> R) (u v : vec) :
  length u = length v -> length (zip_with f u v) = length u.
Proof.
  revert v. induction u as [|x u IH]; destruct v; simpl; intros H;
    try discriminate; auto.
Qed.

Lemma np_add_blend (alpha : R) (lb ll : vec) :
  length lb = length ll ->
  np_add (scal (1 - alpha) lb) (scal alpha ll) = Ok (blend alpha lb ll).
Proof.
  intros Hlen. unfold np_add, scal. rewrite !length_map, Hlen, Nat.eqb_refl.
  f_equal. unfold blend. revert ll Hlen.
  induction lb as [|b lb IH]; destruct ll as [|l ll]; simpl; intros H;
    try discriminate; auto.
  f_equal. apply IH. lia.
Qed.

Lemma blend_length (alpha : R) (lb ll : vec) :
  length lb = length ll -> length (blend alpha lb ll) = length lb.
Proof. apply zip_with_length. Qed.

Lemma vadd_scal_mix (c : R) (n : nat) (v : vec) :
  vadd_s (scal (1 - c) v) (c * (1 / INR n)) = mix_uniform c n v.
Proof. unfold vadd_s, scal, mix_uniform. now rewrite map_map. Qed.

Lemma np_log_vadd_stored (v : vec) : np_log (vadd_s v 1e-12) = stored_log v.
Proof. unfold np_log, vadd_s, stored_log. now rewrite map_map. Qed.

Lemma py_div_ok (x y : R) : y <> 0 -> py_div x y = Ok (x / y).
Proof. intros H. unfold py_div. destruct (Req_dec_T y 0); tauto. Qed.

Lemma INR_pos_neq (n : nat) : (1 <= n)%nat -> INR n <> 0.
Proof. intros H. apply not_0_INR. lia. Qed.

Lemma nonempty_length (v : vec) : (1 <= length v)%nat -> v <> [].
Proof. destruct v; simpl; [lia|discriminate]. Qed.

Lemma exp_normalize_ok (v : vec) :
  (1 <= length v)%nat -> exp_normalize v = Ok (renormalize v).
Proof.
  intros H. rewrite exp_normalize_eq. destruct v; simpl in H; [lia|reflexivity].
Qed.

(** *** Indexing *)

Lemma np_index_nonneg (v : vec) (i : Z) :
  (0 <= i < Z.of_nat (length v))%Z ->
  np_index v i = Ok (nth (Z.to_nat i) v 0).
Proof.
  intros H. unfold np_index.
  replace ((0 <=? i) && (i <? Z.of_nat (length v)))%Z with true; [reflexivity|].
  symmetry. apply andb_true_iff. split; [apply Z.leb_le|apply Z.ltb_lt]; lia.
Qed.

Lemma np_index_wrap (v : vec) (i : Z) :
  (- Z.of_nat (length v) <= i < 0)%Z ->
  np_index v i = np_index v (Z.of_nat (length v) + i).
Proof.
  intros H. rewrite (np_index_nonneg v (Z.of_nat (length v) + i)) by lia.
  unfold np_index.
  replace ((0 <=? i) && (i <? Z.of_nat (length v)))%Z with false.
  - replace ((- Z.of_nat (length v) <=? i) && (i <? 0))%Z with true;
      [reflexivity|].
    symmetry. apply andb_true_iff. split; [apply Z.leb_le|apply Z.ltb_lt]; lia.
  - symmetry. apply andb_false_iff. left. apply Z.leb_gt. lia.
Qed.

Lemma np_index_cases (v : vec) (i : Z) :
  ((- Z.of_nat (length v) <= i < Z.of_nat (length v))%Z /\
   exists x, np_index v i = Ok x /\ In x v) \/
  (~ (- Z.of_nat (length v) <= i < Z.of_nat (length v))%Z /\
   np_index v i = Raise IndexError).
Proof.
  destruct (Z_lt_dec i 0) as [Hneg|Hnn].
  - destruct (Z_le_dec (- Z.of_nat (length v)) i) as [Hlo|Hlo].
    + left. split; [lia|]. rewrite np_index_wrap by lia.
      rewrite np_index_nonneg by lia. eexists. split; [reflexivity|].
      apply nth_In. lia.
    + right. split; [lia|]. unfold np_index.
      replace ((0 <=? i) && (i <? Z.of_nat (length v)))%Z with false
        by (symmetry; apply andb_false_iff; left; apply Z.leb_gt; lia).
      replace ((- Z.of_nat (length v) <=? i) && (i <? 0))%Z with false
        by (symmetry; apply andb_false_iff; left; apply Z.leb_gt; lia).
      reflexivity.
  - destruct (Z_lt_dec i (Z.of_nat (length v))) as [Hhi|Hhi].
    + left. split; [lia|]. rewrite np_index_nonneg by lia.
      eexists. split; [reflexivity|]. apply nth_In. lia.
    + right. split; [lia|]. unfold np_index.
      replace ((0 <=? i) && (i <? Z.of_nat (length v)))%Z with false
        by (symmetry; apply andb_false_iff; right; apply Z.ltb_ge; lia).
      replace ((- Z.of_nat (length v) <=? i) && (i <? 0))%Z with false
        by (symmetry; apply andb_false_iff; right; apply Z.ltb_ge; lia).
      reflexivity.
Qed.

Lemma range_length (n : Z) : length (range n) = Z.to_nat n.
Proof. unfold range. now rewrite length_map, length_seq. Qed.

Lemma range_In (n a : Z) : In a (range n) <-> (0 <= a < n)%Z.
Proof.
  unfold range. rewrite in_map_iff. split.
  - intros [k [<- Hk]]. apply in_seq in Hk. lia.
  - intros H. exists (Z.to_nat a). split; [lia|]. apply in_seq. lia.
Qed.

Lemma range_nth (n : Z) (k : nat) :
  (k < Z.to_nat n)%nat -> nth k (range n) 0%Z = Z.of_nat k.
Proof.
  intros H. unfold range.
  rewrite (nth_indep _ 0%Z (Z.of_nat 0)) by (rewrite length_map, length_seq; lia).
  rewrite map_nth, seq_nth by lia. reflexivity.
Qed.

(** *** The log-likelihood of an action *)


Lemma loglik_of_ok (fl : R) (logits : vec) (a : Z) :
  (- Z.of_nat (length logits) <= a < Z.of_nat (length logits))%Z ->
  exists p, loglik_of fl logits a = Ok (ln (p + fl)) /\
            In p (renormalize logits).
Proof.
  intros H. unfold loglik_of. rewrite exp_normalize_eq.
  destruct logits as [|x l]; [simpl in H; lia|]. cbn [bindR].
  rewrite <- (renormalize_length (x :: l)) in H.
  destruct (np_index_cases (renormalize (x :: l)) a) as [[_ [p [Hp Hin]]]|[Hn _]];
    [|contradiction].
  exists p. rewrite Hp. auto.
Qed.

Lemma loglik_of_raises (fl : R) (logits : vec) (a : Z) :
  (1 <= length logits)%nat ->
  loglik_of fl logits a = Raise IndexError <->
  ~ (- Z.of_nat (length logits) <= a < Z.of_nat (length logits))%Z.
Proof.
  intros Hlen. split.
  - intros Hr Hin. destruct (loglik_of_ok fl logits a Hin) as [p [Hp _]].
    congruence.
  - intros Hout. unfold loglik_of. rewrite exp_normalize_ok by assumption.
    cbn [bindR]. rewrite <- (renormalize_length logits) in Hout.
    destruct (np_index_cases (renormalize logits) a) as [[Hin _]|[_ Hr]];
      [contradiction|].
    rewrite Hr. reflexivity.
Qed.

Lemma map_result_total {A B} (f : A -> result B) (l : list A) :
  (forall x, In x l -> exists y, f x = Ok y) ->
  exists r, map_result f l = Ok r.
Proof.
  induction l as [|x l IH]; simpl; intros H; [eexists; reflexivity|].
  destruct (H x) as [y Hy]; auto. destruct IH as [r Hr]; auto.
  exists (y :: r). rewrite Hy, Hr. reflexivity.
Qed.

Lemma bayes_loglik_shape (s : Bayesian.t S) state a pi :
  Bayesian.log_likelihood s state a pi =
  loglik_of 1e-8 (bayes_logits s state pi) a.
Proof.
  unfold Bayesian.log_likelihood, loglik_of, bayes_logits, vdiv_s.
  now rewrite map_map.
Qed.

Lemma maxent_loglik_shape (s : MaxEnt.t S) state a pi :
  MaxEnt.log_likelihood s state a pi =
  loglik_of 1e-12 (maxent_logits s state pi) a.
Proof.
  unfold MaxEnt.log_likelihood, loglik_of, maxent_logits, vdiv_s.
  now rewrite map_map.
Qed.

Lemma crf_loglik_shape (s : CRF.t S) state a pi :
  CRF.log_likelihood s state a pi =
  loglik_of 1e-12 (crf_logits s state pi) a.
Proof. reflexivity. Qed.

Lemma bayes_logits_length (s : Bayesian.t S) state pi :
  Z.of_nat (length (bayes_logits s state pi)) =
  Z.max 0 (Bayesian.action_space_size s).
Proof. unfold bayes_logits. rewrite length_map, range_length. lia. Qed.

Lemma maxent_logits_length (s : MaxEnt.t S) state pi :
  Z.of_nat (length (maxent_logits s state pi)) =
  Z.max 0 (MaxEnt.action_space_size s).
Proof. unfold maxent_logits. rewrite length_map, range_length. lia. Qed.

Lemma crf_logits_length (s : CRF.t S) state pi :
  Z.of_nat (length (crf_logits s state pi)) =
  Z.max 0 (CRF.action_space_size s).
Proof. unfold crf_logits. rewrite length_map, range_length. lia. Qed.

(** *** The update methods as pipelines *)

Lemma temper_eq (beta : R) (v : vec) :
  beta <> 1 ->
  vdiv_s (np_power v (1 / beta)) (np_sum (np_power v (1 / beta))) =
  temper beta v.
Proof.
  intros H. unfold temper. destruct (Req_dec_T beta 1); [contradiction|].
  reflexivity.
Qed.

Lemma bayes_update_eq (s : Bayesian.t S) (state : S) (a : Z)
    (alpha p_switch beta : R) (ll : vec) :
  Bayesian.N s = length (Bayesian.policies s) ->
  length (Bayesian.log_post s) = Bayesian.N s ->
  (1 <= Bayesian.N s)%nat ->
  beta <> 0 ->
  map_result (Bayesian.log_likelihood s state a) (Bayesian.policies s)
    = Ok ll ->
  let final := bayes_pipeline alpha p_switch beta (Bayesian.eps s)
                 (Bayesian.N s) (Bayesian.log_post s) ll in
  Bayesian.update state a alpha p_switch beta s =
  (Ok final, Bayesian.set_log_post (stored_log final) s).
Proof.
  intros HN Hlen Hpos Hbeta Hll final.
  pose proof (map_result_length _ _ _ Hll) as Hl.
  unfold Bayesian.update, bind, read, liftR, assign, ret.
  rewrite Hll. rewrite np_add_blend by lia. simpl.
  rewrite exp_normalize_ok by (rewrite blend_length; lia).
  rewrite (py_div_ok 1 (INR (Bayesian.N s)))
    by (apply INR_pos_neq; assumption).
  subst final. unfold bayes_pipeline, goal_switch.
  destruct (Rlt_dec 0 p_switch); simpl;
    (destruct (Req_dec_T beta 1) as [Hb|Hb]; simpl;
     [|rewrite (py_div_ok 1 beta) by assumption;
       rewrite temper_eq by assumption];
     rewrite ?vadd_scal_mix, ?np_log_vadd_stored;
     try (unfold temper at 1 2; destruct (Req_dec_T beta 1);
          [|contradiction]);
     reflexivity).
Qed.

Lemma crf_update_belief_eq (s : CRF.t S) (state : S) (a : Z) (ll : vec) :
  CRF.N s = length (CRF.policies s) ->
  length (CRF.log_post s) = CRF.N s ->
  (1 <= CRF.N s)%nat ->
  CRF.beta s <> 0 ->
  map_result (CRF.log_likelihood s state a) (CRF.policies s) = Ok ll ->
  let final := bayes_pipeline (CRF.alpha s) (CRF.p_switch s) (CRF.beta s)
                 (CRF.eps s) (CRF.N s) (CRF.log_post s) ll in
  CRF.update_belief state a s =
  (Ok final, CRF.set_log_post (stored_log final) s).
Proof.
  intros HN Hlen Hpos Hbeta Hll final.
  pose proof (map_result_length _ _ _ Hll) as Hl.
  unfold CRF.update_belief, bind, read, liftR, assign, ret.
  rewrite Hll. rewrite np_add_blend by lia. simpl.
  rewrite exp_normalize_ok by (rewrite blend_length; lia).
  rewrite (py_div_ok 1 (INR (CRF.N s))) by (apply INR_pos_neq; assumption).
  subst final. unfold bayes_pipeline, goal_switch.
  destruct (Rlt_dec 0 (CRF.p_switch s)); simpl;
    (destruct (Req_dec_T (CRF.beta s) 1) as [Hb|Hb]; simpl;
     [|rewrite (py_div_ok 1 (CRF.beta s)) by assumption;
       rewrite temper_eq by assumption];
     rewrite ?vadd_scal_mix, ?np_log_vadd_stored;
     try (unfold temper at 1 2; destruct (Req_dec_T (CRF.beta s) 1);
          [|contradiction]);
     reflexivity).
Qed.

Lemma crf_update_eq (s : CRF.t S) (state : S) (a : Z) (ll : vec) :
  CRF.N s = length (CRF.policies s) ->
  length (CRF.log_post s) = CRF.N s ->
  (1 <= CRF.N s)%nat ->
  CRF.beta s <> 0 ->
  map_result (CRF.log_likelihood s state a) (CRF.policies s) = Ok ll ->
  let final := bayes_pipeline (CRF.alpha s) (CRF.p_switch s) (CRF.beta s)
                 (CRF.eps s) (CRF.N s) (CRF.log_post s) ll in
  CRF.update state a s =
  (Ok final,
   CRF.set_prev_action (Some a) (CRF.set_log_post (stored_log final) s)).
Proof.
  intros HN Hlen Hpos Hbeta Hll final.
  unfold CRF.update, bind.
  rewrite (crf_update_belief_eq s state a ll) by assumption.
  reflexivity.
Qed.

Lemma maxent_update_eq (s : MaxEnt.t S) (state : S) (a : Z) (alpha : R)
    (ll : vec) :
  MaxEnt.N s = length (MaxEnt.policies s) ->
  length (MaxEnt.log_post s) = MaxEnt.N s ->
  (1 <= MaxEnt.N s)%nat ->
  map_result (MaxEnt.log_likelihood s state a) (MaxEnt.policies s) = Ok ll ->
  let final := mix_uniform (MaxEnt.eps s) (MaxEnt.N s)
                 (blend alpha (renormalize (MaxEnt.log_post s))
                    (renormalize ll)) in
  MaxEnt.update state a alpha s =
  (Ok final, MaxEnt.set_log_post (stored_log final) s).
Proof.
  intros HN Hlen Hpos Hll final.
  pose proof (map_result_length _ _ _ Hll) as Hl.
  unfold MaxEnt.update, bind, read, liftR, assign, ret.
  rewrite Hll. simpl.
  rewrite (exp_normalize_ok ll) by lia.
  rewrite (exp_normalize_ok (MaxEnt.log_post s)) by lia.
  rewrite np_add_blend by (rewrite !renormalize_length; lia).
  rewrite (py_div_ok 1 (INR (MaxEnt.N s))) by (apply INR_pos_neq; assumption).
  simpl. rewrite vadd_scal_mix, np_log_vadd_stored. reflexivity.
Qed.

(** *** The log-likelihoods exist for an index in [[-A, A)] *)

Lemma bayes_loglikes_ok (s : Bayesian.t S) (state : S) (a : Z) :
  (- Bayesian.action_space_size s <= a < Bayesian.action_space_size s)%Z ->
  exists ll,
    map_result (Bayesian.log_likelihood s state a) (Bayesian.policies s)
    = Ok ll.
Proof.
  intros Ha. apply map_result_total. intros pi _.
  rewrite bayes_loglik_shape.
  destruct (loglik_of_ok 1e-8 (bayes_logits s state pi) a) as [p [Hp _]].
  - rewrite bayes_logits_length. lia.
  - eauto.
Qed.

Lemma maxent_loglikes_ok (s : MaxEnt.t S) (state : S) (a : Z) :
  (- MaxEnt.action_space_size s <= a < MaxEnt.action_space_size s)%Z ->
  exists ll,
    map_result (MaxEnt.log_likelihood s state a) (MaxEnt.policies s) = Ok ll.
Proof.
  intros Ha. apply map_result_total. intros pi _.
  rewrite maxent_loglik_shape.
  destruct (loglik_of_ok 1e-12 (maxent_logits s state pi) a) as [p [Hp _]].
  - rewrite maxent_logits_length. lia.
  - eauto.
Qed.

Lemma crf_loglikes_ok (s : CRF.t S) (state : S) (a : Z) :
  (- CRF.action_space_size s <= a < CRF.action_space_size s)%Z ->
  exists ll,
    map_result (CRF.log_likelihood s state a) (CRF.policies s) = Ok ll.
Proof.
  intros Ha. apply map_result_total. intros pi _.
  rewrite crf_loglik_shape.
  destruct (loglik_of_ok 1e-12 (crf_logits s state pi) a) as [p [Hp _]].
  - rewrite crf_logits_length. lia.
  - eauto.
Qed.

(** *** What the pipelines return *)

Lemma np_sum_blend (alpha : R) (u v : vec) :
  length u = length v ->
  np_sum (blend alpha u v) = (1 - alpha) * np_sum u + alpha * np_sum v.
Proof.
  unfold blend. revert v.
  induction u as [|x u IH]; destruct v as [|y v]; simpl; intros H;
    try discriminate; [lra|].
  rewrite IH by lia. lra.
Qed.

Lemma pos_blend (alpha : R) (u v : vec) :
  pos u -> pos v -> 0 <= alpha <= 1 -> pos (blend alpha u v).
Proof.
  unfold blend. intros Hu. revert v.
  induction Hu as [|x u Hx Hu IH]; intros v Hv Ha; [constructor|].
  destruct Hv as [|y v Hy Hv]; simpl; constructor.
  - destruct (Rle_lt_dec alpha 0); nra.
  - apply IH; assumption.
Qed.

Lemma blend_simplex (alpha : R) (u v : vec) :
  simplex u -> simplex v -> length u = length v -> 0 <= alpha <= 1 ->
  simplex (blend alpha u v).
Proof.
  intros [Hu Su] [Hv Sv] Hlen Ha. split.
  - apply pos_blend; assumption.
  - rewrite np_sum_blend, Su, Sv by assumption. lra.
Qed.

Lemma stored_log_length (v : vec) : length (stored_log v) = length v.
Proof. unfold stored_log. now rewrite length_map. Qed.

Lemma simplex_pos (v : vec) : simplex v -> pos v.
Proof. now intros [H _]. Qed.

Lemma bayes_pipeline_length (alpha p beta e : R) (n : nat) (lb ll : vec) :
  length lb = n -> length ll = n ->
  length (bayes_pipeline alpha p beta e n lb ll) = n.
Proof.
  intros Hb Hl. unfold bayes_pipeline.
  rewrite mix_uniform_length, temper_length, goal_switch_length,
    renormalize_length, blend_length; lia.
Qed.

Lemma bayes_pipeline_inner_simplex (alpha p beta : R) (n : nat)
    (lb ll : vec) :
  length lb = n -> length ll = n -> (1 <= n)%nat -> p <= 1 ->
  simplex (temper beta (goal_switch p n (renormalize (blend alpha lb ll)))).
Proof.
  intros Hb Hl Hn Hp.
  apply temper_simplex, goal_switch_simplex; auto.
  - apply renormalize_simplex, nonempty_length. rewrite blend_length; lia.
  - rewrite renormalize_length, blend_length; lia.
Qed.

Lemma bayes_pipeline_simplex (alpha p beta e : R) (n : nat) (lb ll : vec) :
  length lb = n -> length ll = n -> (1 <= n)%nat -> p <= 1 -> 0 <= e <= 1 ->
  simplex (bayes_pipeline alpha p beta e n lb ll).
Proof.
  intros Hb Hl Hn Hp He. unfold bayes_pipeline.
  apply simplex_mix_uniform; auto.
  - apply bayes_pipeline_inner_simplex; assumption.
  - rewrite temper_length, goal_switch_length, renormalize_length,
      blend_length; lia.
Qed.

Lemma bayes_pipeline_floor (alpha p beta e : R) (n : nat) (lb ll : vec) :
  length lb = n -> length ll = n -> (1 <= n)%nat -> p <= 1 -> e <= 1 ->
  floor_at (e / INR n) (bayes_pipeline alpha p beta e n lb ll).
Proof.
  intros Hb Hl Hn Hp He. unfold bayes_pipeline.
  apply mix_uniform_floor; auto.
  apply simplex_pos, bayes_pipeline_inner_simplex; assumption.
Qed.

Lemma maxent_pipeline_inner_simplex (alpha : R) (lb ll : vec) :
  length lb = length ll -> (1 <= length ll)%nat -> 0 <= alpha <= 1 ->
  simplex (blend alpha (renormalize lb) (renormalize ll)).
Proof.
  intros Hlen Hn Ha. apply blend_simplex; auto.
  - apply renormalize_simplex, nonempty_length. lia.
  - apply renormalize_simplex, nonempty_length. lia.
  - rewrite !renormalize_length. assumption.
Qed.

Lemma maxent_pipeline_length (alpha e : R) (n : nat) (lb ll : vec) :
  length lb = n -> length ll = n ->
  length (mix_uniform e n (blend alpha (renormalize lb) (renormalize ll)))
  = n.
Proof.
  intros Hb Hl.
  rewrite mix_uniform_length, blend_length, renormalize_length;
    rewrite ?renormalize_length; lia.
Qed.

(** *** One call keeps the object well formed *)

Lemma bayes_step_ok (A : Z) (e : R) (n : nat) (s : Bayesian.t S)
    (c : BayesCall S) :
  bayes_inv A e n s -> bayes_call_ok A c ->
  exists v s', bayes_step c s = (Ok v, s') /\ bayes_inv A e n s' /\
               belief_ok e n v.
Proof.
  intros [[HN Hlen Hh Ha Ht He] [HA [HE Hn]]] [Hact Hal Hps Hb].
  unfold valid_action in Hact.
  destruct (bayes_loglikes_ok s (b_state c) (b_action c)) as [ll Hll];
    [lia|].
  pose proof (map_result_length _ _ _ Hll) as Hl.
  unfold bayes_step.
  rewrite (bayes_update_eq s _ _ _ _ _ ll) by (auto; lra).
  eexists. eexists. split; [reflexivity|].
  assert (Hlen' : length (bayes_pipeline (b_alpha c) (b_p_switch c)
            (b_beta c) (Bayesian.eps s) (Bayesian.N s) (Bayesian.log_post s)
            ll) = Bayesian.N s) by (apply bayes_pipeline_length; lia).
  split; [|split; [|split]].
  - split; [|auto]. constructor; simpl; auto.
    rewrite stored_log_length. assumption.
  - apply bayes_pipeline_simplex; try lia; lra.
  - lia.
  - subst e n. apply bayes_pipeline_floor; try lia; lra.
Qed.

Lemma maxent_step_ok (A : Z) (e : R) (n : nat) (s : MaxEnt.t S)
    (c : MaxEntCall S) :
  maxent_inv A e n s -> maxent_call_ok A c ->
  exists v s', maxent_step c s = (Ok v, s') /\ maxent_inv A e n s' /\
               belief_ok e n v.
Proof.
  intros [[HN Hlen Hh Ha Ht He] [HA [HE Hn]]] [Hact Hal].
  unfold valid_action in Hact.
  destruct (maxent_loglikes_ok s (m_state c) (m_action c)) as [ll Hll];
    [lia|].
  pose proof (map_result_length _ _ _ Hll) as Hl.
  unfold maxent_step.
  rewrite (maxent_update_eq s _ _ _ ll) by auto.
  eexists. eexists. split; [reflexivity|].
  assert (Hin : simplex (blend (m_alpha c) (renormalize (MaxEnt.log_post s))
                           (renormalize ll)))
    by (apply maxent_pipeline_inner_simplex; auto; lia).
  assert (Hlen' : length (mix_uniform (MaxEnt.eps s) (MaxEnt.N s)
            (blend (m_alpha c) (renormalize (MaxEnt.log_post s))
               (renormalize ll))) = MaxEnt.N s)
    by (apply maxent_pipeline_length; lia).
  split; [|split; [|split]].
  - split; [|auto]. constructor; simpl; auto.
    rewrite stored_log_length. assumption.
  - apply simplex_mix_uniform; auto; [|lra].
    rewrite mix_uniform_length in Hlen'. assumption.
  - lia.
  - subst e n. apply mix_uniform_floor; [apply simplex_pos; assumption|lra].
Qed.

Lemma crf_step_ok (A : Z) (e : R) (n : nat) (s : CRF.t S) (c : S * Z) :
  crf_inv A e n s -> valid_action A (snd c) ->
  exists v s', crf_step c s = (Ok v, s') /\ crf_inv A e n s' /\
               belief_ok e n v.
Proof.
  intros [[HN Hlen Hh Ha Ht He Hal Hps Hb] [HA [HE Hn]]] Hact.
  unfold valid_action in Hact.
  destruct (crf_loglikes_ok s (fst c) (snd c)) as [ll Hll]; [lia|].
  pose proof (map_result_length _ _ _ Hll) as Hl.
  unfold crf_step.
  rewrite (crf_update_eq s _ _ ll) by (auto; lra).
  eexists. eexists. split; [reflexivity|].
  assert (Hlen' : length (bayes_pipeline (CRF.alpha s) (CRF.p_switch s)
            (CRF.beta s) (CRF.eps s) (CRF.N s) (CRF.log_post s) ll)
            = CRF.N s) by (apply bayes_pipeline_length; lia).
  split; [|split; [|split]].
  - split; [|auto]. constructor; simpl; auto.
    rewrite stored_log_length. assumption.
  - apply bayes_pipeline_simplex; try lia; lra.
  - lia.
  - subst e n. apply bayes_pipeline_floor; try lia; lra.
Qed.

(** *** A sequence of calls *)

Lemma run_invariant {St O A} (step : O -> M St A) (I : St -> Prop)
    (V : O -> Prop) (P : A -> Prop) :
  (forall o s, I s -> V o ->
     exists a s', step o s = (Ok a, s') /\ I s' /\ P a) ->
  forall obs s, I s -> Forall V obs ->
  exists outs s', run step obs s = (outs, None, s') /\ I s' /\
                  Forall P outs /\ length outs = length obs.
Proof.
  intros Hstep obs. induction obs as [|o obs IH]; intros s Hs Hobs.
  - exists [], s. simpl. auto.
  - inversion Hobs as [|? ? Ho Hrest]; subst.
    destruct (Hstep o s Hs Ho) as [a [s1 [Hrun [Hs1 Pa]]]].
    destruct (IH s1 Hs1 Hrest) as [outs [s2 [Hr [Hs2 [Hall Hlen]]]]].
    exists (a :: outs), s2. simpl. rewrite Hrun, Hr.
    repeat split; auto; simpl; lia.
Qed.

End MethodFacts.

(** * Properties of the specification *)

(** C4.  A single Bayesian update applies exactly this pipeline to the
    stored log-belief: the blend [(1-alpha)*log_belief + alpha*log_likelihoods],
    then max-subtract normalization, then the goal-switch mixing if
    [p_switch > 0], then the temperature step if [beta != 1], then the [eps]
    smoothing; the log of the final vector plus the floor is stored and the
    final vector is returned.  (Stated for a well-formed predictor, an index
    the softmax can be indexed with, [p_switch <= 1] and [beta != 0];
    [beta = 0] raises at [1.0 / beta].) *)
Theorem bayesian_update_pipeline {S : Type} (s : Bayesian.t S) (state : S)
    (a : Z) (alpha p_switch beta : R) :
  bayes_wf s ->
  (- Bayesian.action_space_size s <= a < Bayesian.action_space_size s)%Z ->
  p_switch <= 1 ->
  beta <> 0 ->
  exists log_likes,
    map_result (Bayesian.log_likelihood s state a) (Bayesian.policies s)
      = Ok log_likes /\
    let log_belief := blend alpha (Bayesian.log_post s) log_likes in
    let post3 := renormalize log_belief in
    let post4 := if Rlt_dec 0 p_switch
                 then mix_uniform p_switch (Bayesian.N s) post3 else post3 in
    let post5 := if Req_dec_T beta 1 then post4
                 else let q := map (fun x => pow_s x (1 / beta)) post4 in
                      map (fun y => y / np_sum q) q in
    let post6 := mix_uniform (Bayesian.eps s) (Bayesian.N s) post5 in
    Bayesian.update state a alpha p_switch beta s =
    (Ok post6, Bayesian.set_log_post (stored_log post6) s).
Proof.
  intros Hwf Ha Hp Hb.
  destruct (bayes_loglikes_ok s state a Ha) as [ll Hll].
  exists ll. split; [assumption|].
  apply (bayes_update_eq s state a alpha p_switch beta ll);
    try apply Hwf; assumption.
Qed.

Lemma single_bayes_wf : bayes_wf single_bayes.
Proof.
  constructor; simpl; try reflexivity; try lia;
    unfold Bayesian.default_tau, Bayesian.default_eps; lra.
Qed.

Lemma bayesian_update_pipeline_witness :
  exists log_likes post,
    map_result (Bayesian.log_likelihood single_bayes tt 0%Z)
      (Bayesian.policies single_bayes) = Ok log_likes /\
    Bayesian.update tt 0%Z 0.05 0.02 2 single_bayes =
    (Ok post, Bayesian.set_log_post (stored_log post) single_bayes).
Proof.
  destruct (bayesian_update_pipeline single_bayes tt 0%Z 0.05 0.02 2)
    as [ll [Hll Hup]];
    [exact single_bayes_wf|simpl; lia|lra|lra|].
  exists ll. eexists. split; [exact Hll|exact Hup].
Defined.

(** ** Sequences of updates: simplex and floor *)

Lemma simplex_le_1 (v : vec) :
  simplex v ->
  Forall (fun x => 0 < x <= 1) v /\ Rabs (np_sum v - 1) <= 1e-6.
Proof.
  intros [Hp Hs]. split.
  - apply Forall_forall. intros x Hx. split.
    + eapply Forall_forall in Hp; eauto.
    + rewrite <- Hs. apply pos_In_le_sum; assumption.
  - rewrite Hs. replace (1 - 1) with 0 by lra. rewrite Rabs_R0. lra.
Qed.

Lemma simplex_singleton (v : vec) : simplex v -> length v = 1%nat -> v = [1].
Proof.
  intros [_ Hs] Hlen. destruct v as [|x [|y v]]; simpl in *; try discriminate.
  f_equal. lra.
Qed.

Lemma bayes_step_eq {S} (s : Bayesian.t S) (c : BayesCall S) :
  bayes_wf s -> bayes_call_ok (Bayesian.action_space_size s) c ->
  exists post,
    bayes_step c s = (Ok post, Bayesian.set_log_post (stored_log post) s) /\
    simplex post /\ length post = Bayesian.N s.
Proof.
  intros [HN Hlen Hh Ha Ht He] [Hact Hal Hps Hb]. unfold valid_action in Hact.
  destruct (bayes_loglikes_ok s (b_state c) (b_action c)) as [ll Hll]; [lia|].
  pose proof (map_result_length _ _ _ Hll) as Hl.
  unfold bayes_step.
  rewrite (bayes_update_eq s _ _ _ _ _ ll) by (auto; lra).
  eexists. split; [reflexivity|]. split.
  - apply bayes_pipeline_simplex; try lia; lra.
  - apply bayes_pipeline_length; lia.
Qed.

Lemma maxent_step_eq {S} (s : MaxEnt.t S) (c : MaxEntCall S) :
  maxent_wf s -> maxent_call_ok (MaxEnt.action_space_size s) c ->
  exists post,
    maxent_step c s = (Ok post, MaxEnt.set_log_post (stored_log post) s) /\
    simplex post /\ length post = MaxEnt.N s.
Proof.
  intros [HN Hlen Hh Ha Ht He] [Hact Hal]. unfold valid_action in Hact.
  destruct (maxent_loglikes_ok s (m_state c) (m_action c)) as [ll Hll]; [lia|].
  pose proof (map_result_length _ _ _ Hll) as Hl.
  unfold maxent_step.
  rewrite (maxent_update_eq s _ _ _ ll) by auto.
  eexists. split; [reflexivity|].
  assert (Hin : simplex (blend (m_alpha c) (renormalize (MaxEnt.log_post s))
                           (renormalize ll)))
    by (apply maxent_pipeline_inner_simplex; auto; lia).
  assert (Hlen' : length (blend (m_alpha c) (renormalize (MaxEnt.log_post s))
                            (renormalize ll)) = MaxEnt.N s)
    by (rewrite blend_length, renormalize_length;
        rewrite ?renormalize_length; lia).
  split.
  - apply simplex_mix_uniform; auto. lra.
  - rewrite mix_uniform_length. assumption.
Qed.

Lemma crf_step_eq {S} (s : CRF.t S) (c : S * Z) :
  crf_wf s -> valid_action (CRF.action_space_size s) (snd c) ->
  exists post,
    crf_step c s =
    (Ok post,
     CRF.set_prev_action (Some (snd c))
       (CRF.set_log_post (stored_log post) s)) /\
    simplex post /\ length post = CRF.N s.
Proof.
  intros [HN Hlen Hh Ha Ht He Hal Hps Hb] Hact. unfold valid_action in Hact.
  destruct (crf_loglikes_ok s (fst c) (snd c)) as [ll Hll]; [lia|].
  pose proof (map_result_length _ _ _ Hll) as Hl.
  unfold crf_step.
  rewrite (crf_update_eq s _ _ ll) by (auto; lra).
  eexists. split; [reflexivity|]. split.
  - apply bayes_pipeline_simplex; try lia; lra.
  - apply bayes_pipeline_length; lia.
Qed.



Lemma crf_run_ok {S} (s : CRF.t S) (calls : list (S * Z)) :
  crf_wf s ->
  Forall (fun c => valid_action (CRF.action_space_size s) (snd c)) calls ->
  exists outs s',
    run crf_step calls s = (outs, None, s') /\
    length outs = length calls /\
    Forall (belief_ok (CRF.eps s) (CRF.N s)) outs.
Proof.
  intros Hwf Hcalls.
  destruct (run_invariant (@crf_step S)
              (crf_inv (CRF.action_space_size s) (CRF.eps s) (CRF.N s))
              (fun c => valid_action (CRF.action_space_size s) (snd c))
              (belief_ok (CRF.eps s) (CRF.N s)))
    with (obs := calls) (s := s) as [outs [s' [Hr [_ [Hall Hlen]]]]].
  - intros o s0. apply crf_step_ok.
  - repeat split; auto; apply Hwf.
  - assumption.
  - exists outs, s'. auto.
Qed.

Lemma belief_ok_report (e : R) (n : nat) (outs : list vec) :
  Forall (belief_ok e n) outs -> Forall (simplex_report n) outs.
Proof.
  apply Forall_impl. intros v [Hs [Hlen _]]. split; [|split].
  - apply simplex_le_1. assumption.
  - intros Hn. apply simplex_valid; [assumption|lia].
  - intros Hn. apply simplex_singleton; [assumption|lia].
Qed.


Lemma ln_le_compat (x y : R) : 0 < x -> x <= y -> ln x <= ln y.
Proof.
  intros Hx [Hlt|Heq].
  - left. apply ln_increasing; assumption.
  - right. now rewrite Heq.
Qed.

(** What [update] stores is in the range of a stored belief. *)
Lemma stored_log_range (v : vec) : simplex v -> stored_range (stored_log v).
Proof.
  intros Hs. destruct (simplex_le_1 v Hs) as [Hall _].
  unfold stored_range, stored_log. apply Forall_map.
  revert Hall. apply Forall_impl. intros x [H0 H1].
  split; apply ln_le_compat; lra.
Qed.

(** What the constructors store for the uniform prior is in that range. *)
Lemma uniform_log_post_range (n : nat) :
  (1 <= n)%nat -> stored_range (uniform_log_post n).
Proof.
  intros Hn. unfold stored_range, uniform_log_post, np_log, vadd_s, vdiv_s.
  rewrite !Forall_map. apply Forall_forall. intros x Hx.
  apply repeat_spec in Hx. subst x.
  assert (H1 : 1 <= INR n) by (apply (le_INR 1); lia).
  assert (Hi : 0 < / INR n) by (apply Rinv_0_lt_compat; lra).
  assert (Hle : / INR n <= 1).
  { rewrite <- Rinv_1. apply Rinv_le_contravar; lra. }
  unfold Rdiv. rewrite Rmult_1_l.
  split; apply ln_le_compat; lra.
Qed.

Lemma bayes_run_range {S} (s : Bayesian.t S) (calls : list (BayesCall S)) :
  bayes_wf s -> stored_range (Bayesian.log_post s) ->
  Forall (bayes_call_ok (Bayesian.action_space_size s)) calls ->
  exists outs s',
    run bayes_step calls s = (outs, None, s') /\
    length outs = length calls /\
    Forall (belief_ok (Bayesian.eps s) (Bayesian.N s)) outs /\
    stored_range (Bayesian.log_post s').
Proof.
  intros Hwf Hst Hcalls.
  destruct (run_invariant (@bayes_step S)
              (fun s0 =>
                 bayes_inv (Bayesian.action_space_size s) (Bayesian.eps s)
                   (Bayesian.N s) s0 /\
                 stored_range (Bayesian.log_post s0))
              (bayes_call_ok (Bayesian.action_space_size s))
              (belief_ok (Bayesian.eps s) (Bayesian.N s)))
    with (obs := calls) (s := s)
    as [outs [s' [Hr [[_ Hst'] [Hall Hlen]]]]].
  - intros o s0 [Hinv _] Ho.
    destruct (bayes_step_ok _ _ _ s0 o Hinv Ho) as [v [s1 [Hrun [Hinv1 Hok]]]].
    exists v, s1. split; [exact Hrun|]. split; [|exact Hok].
    split; [exact Hinv1|].
    destruct Hinv as [Hwf0 [HA0 _]].
    destruct (bayes_step_eq s0 o Hwf0) as [post [Heq [Hsim _]]];
      [rewrite HA0; exact Ho|].
    rewrite Heq in Hrun. inversion Hrun; subst. simpl.
    apply stored_log_range. assumption.
  - split; [|assumption]. repeat split; auto; apply Hwf.
  - assumption.
  - exists outs, s'. auto.
Qed.

Lemma maxent_run_range {S} (s : MaxEnt.t S) (calls : list (MaxEntCall S)) :
  maxent_wf s -> stored_range (MaxEnt.log_post s) ->
  Forall (maxent_call_ok (MaxEnt.action_space_size s)) calls ->
  exists outs s',
    run maxent_step calls s = (outs, None, s') /\
    length outs = length calls /\
    Forall (belief_ok (MaxEnt.eps s) (MaxEnt.N s)) outs /\
    stored_range (MaxEnt.log_post s').
Proof.
  intros Hwf Hst Hcalls.
  destruct (run_invariant (@maxent_step S)
              (fun s0 =>
                 maxent_inv (MaxEnt.action_space_size s) (MaxEnt.eps s)
                   (MaxEnt.N s) s0 /\
                 stored_range (MaxEnt.log_post s0))
              (maxent_call_ok (MaxEnt.action_space_size s))
              (belief_ok (MaxEnt.eps s) (MaxEnt.N s)))
    with (obs := calls) (s := s)
    as [outs [s' [Hr [[_ Hst'] [Hall Hlen]]]]].
  - intros o s0 [Hinv _] Ho.
    destruct (maxent_step_ok _ _ _ s0 o Hinv Ho)
      as [v [s1 [Hrun [Hinv1 Hok]]]].
    exists v, s1. split; [exact Hrun|]. split; [|exact Hok].
    split; [exact Hinv1|].
    destruct Hinv as [Hwf0 [HA0 _]].
    destruct (maxent_step_eq s0 o Hwf0) as [post [Heq [Hsim _]]];
      [rewrite HA0; exact Ho|].
    rewrite Heq in Hrun. inversion Hrun; subst. simpl.
    apply stored_log_range. assumption.
  - split; [|assumption]. repeat split; auto; apply Hwf.
  - assumption.
  - exists outs, s'. auto.
Qed.

Lemma crf_run_range {S} (s : CRF.t S) (calls : list (S * Z)) :
  crf_wf s -> stored_range (CRF.log_post s) ->
  Forall (fun c => valid_action (CRF.action_space_size s) (snd c)) calls ->
  exists outs s',
    run crf_step calls s = (outs, None, s') /\
    length outs = length calls /\
    Forall (belief_ok (CRF.eps s) (CRF.N s)) outs /\
    stored_range (CRF.log_post s').
Proof.
  intros Hwf Hst Hcalls.
  destruct (run_invariant (@crf_step S)
              (fun s0 =>
                 crf_inv (CRF.action_space_size s) (CRF.eps s) (CRF.N s) s0 /\
                 stored_range (CRF.log_post s0))
              (fun c => valid_action (CRF.action_space_size s) (snd c))
              (belief_ok (CRF.eps s) (CRF.N s)))
    with (obs := calls) (s := s)
    as [outs [s' [Hr [[_ Hst'] [Hall Hlen]]]]].
  - intros o s0 [Hinv _] Ho.
    destruct (crf_step_ok _ _ _ s0 o Hinv Ho) as [v [s1 [Hrun [Hinv1 Hok]]]].
    exists v, s1. split; [exact Hrun|]. split; [|exact Hok].
    split; [exact Hinv1|].
    destruct Hinv as [Hwf0 [HA0 _]].
    destruct (crf_step_eq s0 o Hwf0) as [post [Heq [Hsim _]]];
      [rewrite HA0; exact Ho|].
    rewrite Heq in Hrun. inversion Hrun; subst. simpl.
    apply stored_log_range. assumption.
  - split; [|assumption]. repeat split; auto; apply Hwf.
  - assumption.
  - exists outs, s'. auto.
Qed.

(** C3, as the code has it.  For each of the three updaters with at least
    one hypothesis and one action, hyperparameters in the data model's
    ranges with a posterior temperature [beta >= 1], finite likelihoods, and
    a stored belief as the constructor or an update leaves it: every
    sequence of valid observations runs without an exception, and every
    returned vector has all entries in (0,1] and sums to 1 (so within 1e-6
    of 1); with at least two hypotheses every entry is strictly inside
    (0,1).  With one hypothesis the entry is 1.  The belief stored at the
    end is again as an update leaves it. *)
Theorem updates_return_simplex {S : Type} :
  (forall (s : Bayesian.t S) (calls : list (BayesCall S)),
     bayes_wf s ->
     stored_range (Bayesian.log_post s) ->
     Forall (bayes_call_smooth s) calls ->
     exists outs s',
       run bayes_step calls s = (outs, None, s') /\
       length outs = length calls /\
       Forall (simplex_report (Bayesian.N s)) outs /\
       stored_range (Bayesian.log_post s')) /\
  (forall (s : MaxEnt.t S) (calls : list (MaxEntCall S)),
     maxent_wf s ->
     stored_range (MaxEnt.log_post s) ->
     Forall (maxent_call_finite s) calls ->
     exists outs s',
       run maxent_step calls s = (outs, None, s') /\
       length outs = length calls /\
       Forall (simplex_report (MaxEnt.N s)) outs /\
       stored_range (MaxEnt.log_post s')) /\
  (forall (s : CRF.t S) (calls : list (S * Z)),
     crf_wf s ->
     crf_smooth s ->
     stored_range (CRF.log_post s) ->
     Forall (crf_call_finite s) calls ->
     exists outs s',
       run crf_step calls s = (outs, None, s') /\
       length outs = length calls /\
       Forall (simplex_report (CRF.N s)) outs /\
       stored_range (CRF.log_post s')).
Proof.
  split; [|split].
  - intros s calls Hwf Hst Hc.
    destruct (bayes_run_range s calls Hwf Hst)
      as [outs [s' [Hr [Hl [Ha Hst']]]]].
    { revert Hc. apply Forall_impl. intros c Hc. apply Hc. }
    exists outs, s'. eauto using belief_ok_report.
  - intros s calls Hwf Hst Hc.
    destruct (maxent_run_range s calls Hwf Hst)
      as [outs [s' [Hr [Hl [Ha Hst']]]]].
    { revert Hc. apply Forall_impl. intros c Hc. apply Hc. }
    exists outs, s'. eauto using belief_ok_report.
  - intros s calls Hwf _ Hst Hc.
    destruct (crf_run_range s calls Hwf Hst)
      as [outs [s' [Hr [Hl [Ha Hst']]]]].
    { revert Hc. apply Forall_impl. intros c Hc. apply Hc. }
    exists outs, s'. eauto using belief_ok_report.
Qed.

Lemma twin_bayes_wf : bayes_wf twin_bayes.
Proof.
  constructor; simpl; try reflexivity; try lia;
    unfold Bayesian.default_tau, Bayesian.default_eps; lra.
Qed.

Lemma twin_maxent_wf : maxent_wf twin_maxent.
Proof.
  constructor; simpl; try reflexivity; try lia;
    unfold MaxEnt.default_tau, MaxEnt.default_eps; lra.
Qed.

Lemma twin_crf_wf : crf_wf twin_crf.
Proof.
  constructor; simpl; try reflexivity; try lia;
    unfold CRF.default_tau, CRF.default_eps, CRF.default_alpha,
      CRF.default_p_switch, CRF.default_beta; lra.
Qed.

Lemma default_bayes_call_ok (a : Z) :
  (0 <= a < 2)%Z -> bayes_call_ok 2 (default_bayes_call a).
Proof.
  intros H. constructor; simpl; auto;
    unfold Bayesian.default_alpha, Bayesian.default_p_switch,
      Bayesian.default_beta; lra.
Qed.

Lemma default_maxent_call_ok (a : Z) :
  (0 <= a < 2)%Z -> maxent_call_ok 2 (default_maxent_call a).
Proof.
  intros H. constructor; simpl; auto. unfold MaxEnt.default_alpha. lra.
Qed.


Lemma twin_finite_logits (A : Z) (tau : R) :
  finite_logits [const_policy 0; const_policy 0] A tau tt.
Proof.
  intros pi b [<-|[<-|[]]] _; simpl;
    unfold Rdiv; rewrite Rmult_0_l, Rabs_R0; lra.
Qed.

Lemma twin_bayes_call_smooth (a : Z) :
  (0 <= a < 2)%Z -> bayes_call_smooth twin_bayes (default_bayes_call a).
Proof.
  intros H. split; [|split].
  - apply default_bayes_call_ok. assumption.
  - simpl. unfold Bayesian.default_beta. lra.
  - apply twin_finite_logits.
Qed.

Lemma twin_maxent_call_finite (a : Z) :
  (0 <= a < 2)%Z -> maxent_call_finite twin_maxent (default_maxent_call a).
Proof.
  intros H. split.
  - apply default_maxent_call_ok. assumption.
  - apply twin_finite_logits.
Qed.

Lemma twin_crf_smooth : crf_smooth twin_crf.
Proof.
  split; simpl.
  - unfold CRF.default_beta. lra.
  - unfold CRF.default_pairwise_weight. rewrite Rabs_pos_eq; lra.
Qed.

Lemma updates_return_simplex_witness :
  (exists outs s',
     run bayes_step [default_bayes_call 0; default_bayes_call 1] twin_bayes
       = (outs, None, s') /\
     length outs = 2%nat /\ Forall (simplex_report 2) outs /\
     stored_range (Bayesian.log_post s')) /\
  (exists outs s',
     run maxent_step [default_maxent_call 0; default_maxent_call 1]
       twin_maxent = (outs, None, s') /\
     length outs = 2%nat /\ Forall (simplex_report 2) outs /\
     stored_range (MaxEnt.log_post s')) /\
  (exists outs s',
     run crf_step [(tt, 0%Z); (tt, 1%Z)] twin_crf = (outs, None, s') /\
     length outs = 2%nat /\ Forall (simplex_report 2) outs /\
     stored_range (CRF.log_post s')).
Proof.
  destruct (@updates_return_simplex unit) as [HB [HM HC]].
  split; [|split].
  - apply (HB twin_bayes [default_bayes_call 0; default_bayes_call 1]).
    + exact twin_bayes_wf.
    + apply (uniform_log_post_range 2). lia.
    + repeat (apply Forall_cons; [apply twin_bayes_call_smooth; lia|]).
      apply Forall_nil.
  - apply (HM twin_maxent [default_maxent_call 0; default_maxent_call 1]).
    + exact twin_maxent_wf.
    + apply (uniform_log_post_range 2). lia.
    + repeat (apply Forall_cons; [apply twin_maxent_call_finite; lia|]).
      apply Forall_nil.
  - apply (HC twin_crf [(tt, 0%Z); (tt, 1%Z)]).
    + exact twin_crf_wf.
    + exact twin_crf_smooth.
    + apply (uniform_log_post_range 2). lia.
    + repeat (apply Forall_cons;
              [split; [unfold valid_action; simpl; lia
                      |apply twin_finite_logits]|]).
      apply Forall_nil.
Defined.

(** C3 as stated fails: a Bayesian predictor over a single hypothesis
    returns the vector [1], whose entry is not strictly below 1. *)
Lemma single_hypothesis_entry_is_one :
  exists s',
    bayes_step (default_bayes_call 0) single_bayes = (Ok [1], s') /\
    ~ valid_simplex [1].
Proof.
  destruct (bayes_step_ok 2 Bayesian.default_eps 1 single_bayes
              (default_bayes_call 0)) as [v [s' [Hr [_ [Hs [Hl _]]]]]].
  - split; [exact single_bayes_wf|repeat split].
  - apply default_bayes_call_ok. lia.
  - rewrite (simplex_singleton v Hs Hl) in Hr. exists s'. split; [exact Hr|].
    intros [Hall _]. inversion Hall as [|x l Hx _]; subst. lra.
Qed.





(** ** [get_prob] and [reset] *)

(** C9.  For every updater, [get_prob] returns the max-subtract,
    exponentiate, normalize renormalization of the stored log-belief (it
    raises on an empty one) and leaves the object as it was, so two
    consecutive calls return equal vectors. *)
Theorem get_prob_pure {S : Type} (u : Updater S) :
  call_get_prob u =
    (match stored_belief u with
     | [] => Raise ValueError
     | _ :: _ => Ok (renormalize (stored_belief u))
     end, u) /\
  fst (call_get_prob (snd (call_get_prob u))) = fst (call_get_prob u).
Proof.
  assert (H : call_get_prob u =
    (match stored_belief u with
     | [] => Raise ValueError
     | _ :: _ => Ok (renormalize (stored_belief u))
     end, u)).
  { destruct u as [b|m|c]; unfold call_get_prob, on_class;
      [unfold Bayesian.get_prob|unfold MaxEnt.get_prob|unfold CRF.get_prob];
      unfold bind, read, liftR; simpl; rewrite exp_normalize_eq;
      reflexivity. }
  split; [exact H|]. rewrite H. simpl. rewrite H. reflexivity.
Qed.

Lemma vmax_repeat (c : R) (n : nat) : vmax (repeat c n) = c \/ n = 0%nat.
Proof.
  destruct n as [|n]; [now right|left]. unfold vmax. simpl.
  induction n as [|n IH]; simpl; [reflexivity|].
  rewrite IH. apply Rmax_left. lra.
Qed.

Lemma np_sum_repeat (c : R) (n : nat) : np_sum (repeat c n) = INR n * c.
Proof.
  induction n as [|n IH]; [simpl; lra|].
  rewrite S_INR. simpl. rewrite IH. lra.
Qed.

Lemma renormalize_repeat (c : R) (n : nat) :
  (1 <= n)%nat -> renormalize (repeat c n) = uniform n.
Proof.
  intros Hn. unfold renormalize, uniform.
  destruct (vmax_repeat c n) as [-> | ->]; [|lia].
  rewrite !map_repeat, np_sum_repeat.
  replace (c - c) with 0 by lra. rewrite exp_0. f_equal.
  field. apply INR_pos_neq. assumption.
Qed.

Lemma uniform_log_post_repeat (n : nat) :
  uniform_log_post n = repeat (ln (1 / INR n + 1e-12)) n.
Proof.
  unfold uniform_log_post, np_log, vadd_s, vdiv_s.
  now rewrite !map_repeat.
Qed.

(** C2, as the code has it.  Only the CRF updater defines [reset]: on a
    Bayesian or MaxEnt updater the call raises [AttributeError] and changes
    nothing.  On a CRF updater with at least one hypothesis, [reset] makes
    [get_prob] report exactly the uniform belief [1/N] and clears the
    previous action, so the pairwise term is zero for every action and the
    logits of the next update are the unary potentials alone. *)
Theorem reset_only_on_crf {S : Type} :
  (forall b : Bayesian.t S,
     call_reset (UBayesian b) = (Raise AttributeError, UBayesian b)) /\
  (forall m : MaxEnt.t S,
     call_reset (UMaxEnt m) = (Raise AttributeError, UMaxEnt m)) /\
  (forall c : CRF.t S,
     (1 <= CRF.N c)%nat ->
     exists c',
       call_reset (UCRF c) = (Ok tt, UCRF c') /\
       call_get_prob (UCRF c') = (Ok (uniform (CRF.N c)), UCRF c') /\
       CRF.prev_action c' = None /\
       (forall a, CRF.pair_term c' a = 0) /\
       (forall state pi,
          crf_logits c' state pi =
          map (fun a => CRF.unary_fn c' pi state a)
              (range (CRF.action_space_size c')))).
Proof.
  split; [reflexivity|]. split; [reflexivity|].
  intros c Hn.
  exists (CRF.set_prev_action None
            (CRF.set_log_post (uniform_log_post (CRF.N c)) c)).
  split; [reflexivity|]. split; [|split; [reflexivity|split]].
  - unfold call_get_prob, on_class, CRF.get_prob, bind, read, liftR. simpl.
    rewrite exp_normalize_ok
      by (rewrite uniform_log_post_repeat, repeat_length; assumption).
    rewrite uniform_log_post_repeat, renormalize_repeat by assumption.
    reflexivity.
  - reflexivity.
  - intros state pi. unfold crf_logits. apply map_ext. intros a.
    unfold CRF.pair_term. simpl. lra.
Qed.

Lemma reset_only_on_crf_witness :
  exists c',
    call_reset (UCRF twin_crf) = (Ok tt, UCRF c') /\
    call_get_prob (UCRF c') = (Ok (uniform 2), UCRF c') /\
    CRF.prev_action c' = None /\
    (forall a, CRF.pair_term c' a = 0) /\
    (forall state pi,
       crf_logits c' state pi =
       map (fun a => CRF.unary_fn c' pi state a)
           (range (CRF.action_space_size c'))).
Proof.
  destruct (@reset_only_on_crf unit) as [_ [_ H]].
  apply (H twin_crf). simpl. lia.
Defined.

(** C2 as stated fails: a Bayesian predictor has no [reset]. *)
Lemma bayesian_has_no_reset :
  call_reset (UBayesian single_bayes)
  = (Raise AttributeError, UBayesian single_bayes) /\
  fst (call_reset (UBayesian single_bayes)) <> Ok tt.
Proof.
  split; [reflexivity|]. simpl. discriminate.
Qed.

(** ** Negative action indices *)

(** ** Negative action indices *)







(** [update] writes the action it was given, as given, into [prev_action]. *)
Lemma crf_update_split {S} (s : CRF.t S) state a :
  CRF.update state a s =
  match CRF.update_belief state a s with
  | (Ok post, s') => (Ok post, CRF.set_prev_action (Some a) s')
  | (Raise e, s') => (Raise e, s')
  end.
Proof.
  unfold CRF.update, bind, assign, ret.
  destruct (CRF.update_belief state a s) as [[post|e] s']; reflexivity.
Qed.



(** ** The temporal context of the CRF updater *)

Lemma crf_update_belief_frame {S} (s : CRF.t S) state a :
  CRF.prev_action (snd (CRF.update_belief state a s)) = CRF.prev_action s.
Proof.
  unfold CRF.update_belief, bind, read, liftR, assign, ret.
  repeat (simpl;
          match goal with
          | |- context [map_result ?f ?l] => destruct (map_result f l)
          | |- context [np_add ?u ?v] => destruct (np_add u v)
          | |- context [exp_normalize ?v] => destruct (exp_normalize v)
          | |- context [Rlt_dec ?x ?y] => destruct (Rlt_dec x y)
          | |- context [Req_dec_T ?x ?y] => destruct (Req_dec_T x y)
          | |- context [py_div ?x ?y] => destruct (py_div x y)
          end);
  reflexivity.
Qed.

Lemma renormalize_nth (v : vec) (k : nat) :
  (k < length v)%nat ->
  nth k (renormalize v) 0 =
  exp (nth k v 0 - vmax v) / np_sum (map (fun x => exp (x - vmax v)) v).
Proof.
  intros Hk. unfold renormalize.
  set (e := map (fun x => exp (x - vmax v)) v).
  rewrite (nth_indep _ 0 ((fun y => y / np_sum e) (exp (0 - vmax v))))
    by (unfold e; rewrite !length_map; assumption).
  rewrite (map_nth (fun y => y / np_sum e)).
  unfold e at 1.
  rewrite (map_nth (fun x => exp (x - vmax v))). reflexivity.
Qed.

Lemma loglik_of_nonneg (fl : R) (logits : vec) (a : Z) :
  (0 <= a < Z.of_nat (length logits))%Z ->
  loglik_of fl logits a =
  Ok (ln (exp (nth (Z.to_nat a) logits 0 - vmax logits)
          / np_sum (map (fun x => exp (x - vmax logits)) logits) + fl)).
Proof.
  intros Ha. unfold loglik_of.
  rewrite exp_normalize_ok by lia. cbn [bindR].
  rewrite np_index_nonneg by (rewrite renormalize_length; lia).
  cbn [bindR]. rewrite renormalize_nth by lia. reflexivity.
Qed.

Lemma crf_logits_nth {S} (s : CRF.t S) state pi (a : Z) :
  (0 <= a < CRF.action_space_size s)%Z ->
  nth (Z.to_nat a) (crf_logits s state pi) 0 =
  CRF.unary_fn s pi state a + CRF.pair_term s a.
Proof.
  intros Ha. unfold crf_logits.
  rewrite (nth_indep _ 0
             ((fun a => CRF.unary_fn s pi state a + CRF.pair_term s a) 0%Z))
    by (rewrite length_map, range_length; lia).
  rewrite (map_nth (fun a => CRF.unary_fn s pi state a + CRF.pair_term s a)).
  rewrite range_nth by lia. f_equal; f_equal; lia.
Qed.

Lemma crf_loglik_valid {S} (s : CRF.t S) state pi (a : Z) :
  (0 <= a < CRF.action_space_size s)%Z ->
  CRF.log_likelihood s state a pi =
  Ok (ln (exp (CRF.unary_fn s pi state a + CRF.pair_term s a
               - vmax (crf_logits s state pi))
          / np_sum (map (fun x => exp (x - vmax (crf_logits s state pi)))
                        (crf_logits s state pi))
          + 1e-12)).
Proof.
  intros Ha. rewrite crf_loglik_shape.
  pose proof (crf_logits_length s state pi) as Hl.
  rewrite loglik_of_nonneg by lia.
  rewrite crf_logits_nth by assumption. reflexivity.
Qed.






(** C6.  In every CRF [update] call the log-likelihoods are computed in the
    object as it is before the call, so against the old previous action;
    the pairwise term is a function of that raw previous action and of
    nothing else in the belief; steps 1 to 7 never write the previous action
    and step 8 writes the observed action, once, when the call returns (a
    call that raises leaves it as it was); and with no previous action (at
    construction or after [reset]) the pairwise term is 0 for every action. *)
Theorem crf_temporal_context {S : Type} (s : CRF.t S) (state : S) (a : Z) :
  (crf_wf s ->
   (- CRF.action_space_size s <= a < CRF.action_space_size s)%Z ->
   exists log_likes,
     map_result (CRF.log_likelihood s state a) (CRF.policies s)
       = Ok log_likes /\
     let post := bayes_pipeline (CRF.alpha s) (CRF.p_switch s) (CRF.beta s)
                   (CRF.eps s) (CRF.N s) (CRF.log_post s) log_likes in
     CRF.update state a s =
     (Ok post,
      CRF.set_prev_action (Some a)
        (CRF.set_log_post (stored_log post) s))) /\
  CRF.prev_action (snd (CRF.update_belief state a s)) = CRF.prev_action s /\
  (forall post s',
     CRF.update state a s = (Ok post, s') -> CRF.prev_action s' = Some a) /\
  (forall e s',
     CRF.update state a s = (Raise e, s') ->
     CRF.prev_action s' = CRF.prev_action s) /\
  (forall lp a',
     CRF.pair_term (CRF.set_log_post lp s) a' = CRF.pair_term s a' /\
     CRF.pair_term s a' =
       match CRF.prev_action s with
       | None => 0
       | Some prev => if Z.eqb prev a' then CRF.pairwise_weight s else 0
       end) /\
  (forall lp pi a',
     CRF.log_likelihood (CRF.set_log_post lp s) state a' pi =
     CRF.log_likelihood s state a' pi) /\
  (forall pols A e t w al p b a',
     CRF.pair_term (@CRF.init S pols A e t w al p b) a' = 0) /\
  (forall a', CRF.pair_term (snd (CRF.reset s)) a' = 0).
Proof.
  repeat apply conj.
  - intros Hwf Ha.
    destruct (crf_loglikes_ok s state a Ha) as [ll Hll].
    exists ll. split; [assumption|].
    apply crf_update_eq; try apply Hwf; try assumption.
    apply Rgt_not_eq, Hwf.
  - apply crf_update_belief_frame.
  - intros post s'. rewrite crf_update_split.
    destruct (CRF.update_belief state a s) as [[post0|e] s0]; intros H;
      inversion H; subst. reflexivity.
  - intros e s'. rewrite crf_update_split.
    pose proof (crf_update_belief_frame s state a) as Hf.
    destruct (CRF.update_belief state a s) as [[post0|e0] s0]; intros H;
      inversion H; subst. exact Hf.
  - intros lp a'. split; reflexivity.
  - reflexivity.
  - reflexivity.
  - reflexivity.
Qed.

Lemma crf_temporal_context_witness :
  (exists post,
     CRF.update tt 1%Z twin_crf =
     (Ok post,
      CRF.set_prev_action (Some 1%Z)
        (CRF.set_log_post (stored_log post) twin_crf))) /\
  (forall post s',
     CRF.update tt 1%Z twin_crf = (Ok post, s') ->
     CRF.prev_action s' = Some 1%Z).
Proof.
  destruct (crf_temporal_context twin_crf tt 1%Z) as [H1 [_ [H3 _]]].
  split; [|exact H3].
  destruct H1 as [ll [_ Hup]]; [exact twin_crf_wf|simpl; lia|].
  eexists. exact Hup.
Defined.

(** ** The concrete scenario: five observations of action 0 *)

Lemma renormalize_pair (a b : R) :
  exists x y, renormalize [a; b] = [x; y] /\ 0 < x /\ 0 < y /\ x + y = 1 /\
              x = exp (a - b) * y.
Proof.
  unfold renormalize, vmax. simpl.
  set (m := Rmax b a).
  pose proof (exp_pos (a - m)) as Ha. pose proof (exp_pos (b - m)) as Hb.
  assert (Hs : 0 < exp (a - m) + (exp (b - m) + 0)) by lra.
  eexists. eexists. split; [reflexivity|].
  repeat split.
  - apply Rdiv_lt_0_compat; assumption.
  - apply Rdiv_lt_0_compat; assumption.
  - field. lra.
  - replace (a - m) with ((a - b) + (b - m)) at 1 by lra.
    rewrite exp_plus. field. lra.
Qed.

Lemma loglik_pair0 (fl a b : R) :
  exists x y, loglik_of fl [a; b] 0 = Ok (ln (x + fl)) /\
              0 < x /\ 0 < y /\ x + y = 1 /\ x = exp (a - b) * y.
Proof.
  destruct (renormalize_pair a b) as [x [y [Hr H]]].
  exists x, y. split; [|exact H].
  unfold loglik_of. rewrite exp_normalize_ok by (simpl; lia).
  cbn [bindR]. rewrite Hr. reflexivity.
Qed.

Lemma exp_5_4_lt_9 : exp (5 / 4) < 9.
Proof.
  apply Rlt_le_trans with (exp (1 + 1)).
  - apply exp_increasing. lra.
  - rewrite exp_plus. pose proof exp_le_3. pose proof (exp_pos 1). nra.
Qed.

Lemma exp_5_4_gt_1 : 1 < exp (5 / 4).
Proof. rewrite <- exp_0. apply exp_increasing. lra. Qed.

(** Log-odds of two positive numbers whose ratio is between 1 and [exp D]. *)
Lemma ln_odds_bounds (D x y c : R) :
  0 < y -> y <= x -> x <= exp D * y -> 0 <= c -> 0 <= D ->
  0 <= ln (x + c) - ln (y + c) <= D.
Proof.
  intros Hy Hyx Hxy Hc HD.
  assert (HK : 1 <= exp D).
  { rewrite <- exp_0. destruct (Req_dec_T 0 D) as [<-|Hne]; [lra|].
    left. apply exp_increasing. lra. }
  split.
  - destruct (Req_dec_T x y) as [->|Hne]; [lra|].
    assert (ln (y + c) < ln (x + c)) by (apply ln_increasing; lra). lra.
  - assert (Hle : x + c <= exp D * (y + c)) by nra.
    assert (ln (x + c) <= ln (exp D * (y + c))).
    { destruct (Req_dec_T (x + c) (exp D * (y + c))) as [->|Hne];
        [lra|]. left. apply ln_increasing; lra. }
    rewrite ln_mult, ln_exp in H; lra.
Qed.

Lemma scenario_loglikes (s : Bayesian.t unit) :
  Bayesian.policies s = [hyp0; hyp1] ->
  Bayesian.action_space_size s = 2%Z ->
  Bayesian.tau s = 0.8 ->
  exists l0 l1,
    map_result (Bayesian.log_likelihood s tt 0%Z) (Bayesian.policies s)
      = Ok [l0; l1] /\ 0 < l0 - l1 <= 5 / 4.
Proof.
  intros Hp HA Ht. rewrite Hp. simpl map_result.
  rewrite !bayes_loglik_shape. unfold bayes_logits. rewrite HA, Ht.
  change (range 2) with [0%Z; 1%Z].
  cbn [map get_q_value hyp0 hyp1 Z.eqb Pos.eqb].
  destruct (loglik_pair0 1e-8 (1 / 0.8) (0 / 0.8))
    as [x0 [y0 [H0 [Hx0 [Hy0 [Hs0 He0]]]]]].
  destruct (loglik_pair0 1e-8 (0 / 0.8) (1 / 0.8))
    as [x1 [y1 [H1 [Hx1 [Hy1 [Hs1 He1]]]]]].
  rewrite H0, H1. cbn [bindR].
  eexists. eexists. split; [reflexivity|].
  replace (1 / 0.8 - 0 / 0.8) with (5 / 4) in He0 by lra.
  replace (0 / 0.8 - 1 / 0.8) with (- (5 / 4)) in He1 by lra.
  rewrite exp_Ropp in He1.
  pose proof exp_5_4_gt_1 as HK. pose proof (exp_pos (5/4)) as HKp.
  set (K := exp (5 / 4)) in *.
  assert (Hy1' : y1 = K * x1) by (rewrite He1; field; lra).
  assert (Hx1e : x1 * (1 + K) = 1) by nra.
  assert (Hy0e : y0 * (1 + K) = 1) by nra.
  assert (Hxy : y0 = x1) by nra.
  assert (Hx0e : x0 = K * x1) by (rewrite He0, Hxy; reflexivity).
  assert (Hlt : x1 < x0) by (rewrite Hx0e; nra).
  split.
  - assert (ln (x1 + 1e-8) < ln (x0 + 1e-8)) by (apply ln_increasing; lra).
    lra.
  - apply ln_odds_bounds; try lra. fold K. lra.
Qed.

Lemma mix_pair (c x y : R) :
  mix_uniform c 2 [x; y] =
  [(1 - c) * x + c * (1 / 2); (1 - c) * y + c * (1 / 2)].
Proof. unfold mix_uniform. simpl. repeat f_equal; lra. Qed.

Lemma scenario_pipeline (D l0 l1 ll0 ll1 : R) :
  0 <= l0 - l1 <= D -> 0 < ll0 - ll1 <= 5 / 4 ->
  scen_out (0.95 * D + 0.0625)
    (bayes_pipeline Bayesian.default_alpha Bayesian.default_p_switch
       Bayesian.default_beta Bayesian.default_eps 2 [l0; l1] [ll0; ll1]).
Proof.
  intros Hl Hll.
  unfold bayes_pipeline, goal_switch, temper, blend,
    Bayesian.default_alpha, Bayesian.default_p_switch,
    Bayesian.default_beta, Bayesian.default_eps.
  cbn [zip_with].
  destruct (renormalize_pair ((1 - 0.05) * l0 + 0.05 * ll0)
              ((1 - 0.05) * l1 + 0.05 * ll1))
    as [x [y [Hr [Hx [Hy [Hs He]]]]]].
  rewrite Hr.
  destruct (Rlt_dec 0 0.02) as [_|Hn]; [|exfalso; lra].
  destruct (Req_dec_T 1 1) as [_|Hn]; [|exfalso; lra].
  rewrite !mix_pair.
  eexists. eexists. split; [reflexivity|].
  set (d := (1 - 0.05) * l0 + 0.05 * ll0 - ((1 - 0.05) * l1 + 0.05 * ll1))
    in He.
  assert (Hd : 0 < d <= 0.95 * D + 0.0625) by (unfold d; lra).
  assert (H1 : 1 < exp d) by (rewrite <- exp_0; apply exp_increasing; lra).
  assert (H2 : exp d <= exp (0.95 * D + 0.0625)).
  { destruct (Req_dec_T d (0.95 * D + 0.0625)) as [->|Hne]; [lra|].
    left. apply exp_increasing. lra. }
  set (K := exp (0.95 * D + 0.0625)) in *.
  assert (Hyx : y < x) by nra.
  assert (HxK : x <= K * y) by nra.
  repeat split; nra.
Qed.

Lemma scen_step (D : R) (s : Bayesian.t unit) :
  scen_inv D s ->
  exists v s', bayes_step (default_bayes_call 0) s = (Ok v, s') /\
               scen_inv (0.95 * D + 0.0625) s' /\
               scen_out (0.95 * D + 0.0625) v.
Proof.
  intros [Hp [HN [HA [Ht [He [l0 [l1 [Hlp Hl]]]]]]]].
  destruct (scenario_loglikes s Hp HA Ht) as [ll0 [ll1 [Hll Hd]]].
  unfold bayes_step, default_bayes_call.
  cbn [b_state b_action b_alpha b_p_switch b_beta].
  rewrite (bayes_update_eq s tt 0%Z _ _ _ [ll0; ll1]); auto.
  - cbv zeta. rewrite HN, He, Hlp.
    pose proof (scenario_pipeline D l0 l1 ll0 ll1 Hl Hd) as Hout.
    eexists. eexists. split; [reflexivity|]. split; [|exact Hout].
    destruct Hout as [x [y [Hpipe [Hy [Hyx [HxK Hs]]]]]].
    rewrite Hpipe.
    repeat split; auto. exists (ln (x + 1e-12)), (ln (y + 1e-12)).
    split; [reflexivity|]. apply ln_odds_bounds; lra.
  - rewrite HN, Hp. reflexivity.
  - rewrite Hlp, HN. reflexivity.
  - rewrite HN. lia.
  - unfold Bayesian.default_beta. lra.
Qed.

Lemma scen_inv_weaken (D D' : R) (s : Bayesian.t unit) :
  D <= D' -> scen_inv D s -> scen_inv D' s.
Proof.
  intros HD [Hp [HN [HA [Ht [He [l0 [l1 [Hlp Hl]]]]]]]].
  repeat split; auto. exists l0, l1. split; [assumption|lra].
Qed.

Lemma scenario_inv : scen_inv 0 scenario.
Proof.
  repeat split. eexists. eexists. split; [reflexivity|]. lra.
Qed.

Lemma exp_lt_3_2 (D : R) : 0 <= D <= 3 / 10 -> exp D < 3 / 2.
Proof.
  intros HD.
  assert (H : 1 + - D <= exp (- D)).
  { destruct (Req_dec_T D 0) as [->|Hne].
    - rewrite Ropp_0, exp_0. lra.
    - left. apply exp_ineq1. lra. }
  rewrite exp_Ropp in H. pose proof (exp_pos D) as Hp.
  assert (Hm : (1 - D) * exp D <= 1).
  { replace 1 with (/ exp D * exp D) at 2 by (field; lra).
    apply Rmult_le_compat_r; lra. }
  nra.
Qed.

(** The scenario: the five beliefs returned and the fifth one's bounds. *)
Lemma scenario_five :
  exists b1 b2 b3 b4 b5 s',
    run bayes_step (repeat (default_bayes_call 0) 5) scenario
    = ([b1; b2; b3; b4; b5], None, s') /\
    1 / 2 < nth 0 b5 0 < 3 / 5.
Proof.
  destruct (scen_step _ _ scenario_inv) as [b1 [s1 [R1 [I1 _]]]].
  destruct (scen_step _ _ I1) as [b2 [s2 [R2 [I2 _]]]].
  destruct (scen_step _ _ I2) as [b3 [s3 [R3 [I3 _]]]].
  destruct (scen_step _ _ I3) as [b4 [s4 [R4 [I4 _]]]].
  destruct (scen_step _ _ I4) as [b5 [s5 [R5 [_ O5]]]].
  exists b1, b2, b3, b4, b5, s5. split.
  - simpl. rewrite R1, R2, R3, R4, R5. reflexivity.
  - destruct O5 as [x [y [-> [Hy [Hyx [HxK Hs]]]]]]. simpl.
    match type of HxK with _ <= exp ?D * _ =>
      assert (HD : exp D < 3 / 2) by (apply exp_lt_3_2; lra) end.
    split; nra.
Qed.

(** ** The goal-switch mixing and the distance to uniform *)

Section MaxDev.

Lemma maxdev_nonneg (u : R) (v : vec) : 0 <= maxdev u v.
Proof.
  unfold maxdev. induction v as [|x v IH]; simpl; [lra|].
  eapply Rle_trans; [exact IH|apply Rmax_r].
Qed.

Lemma maxdev_ub (u : R) (v : vec) (x : R) :
  In x v -> Rabs (x - u) <= maxdev u v.
Proof.
  unfold maxdev. induction v as [|y v IH]; simpl; [tauto|].
  intros [->|Hin]; [apply Rmax_l|].
  eapply Rle_trans; [apply IH; assumption|apply Rmax_r].
Qed.

Lemma maxdev_lt (u d : R) (v : vec) :
  0 < d -> (forall x, In x v -> Rabs (x - u) < d) -> maxdev u v < d.
Proof.
  intros Hd. unfold maxdev. induction v as [|y v IH]; simpl; intros H;
    [assumption|].
  apply Rmax_lub_lt; [apply H; auto|apply IH; auto].
Qed.

Lemma maxdev_scale (k u u' : R) (f : R -> R) (v : vec) :
  0 <= k -> (forall x, f x - u' = k * (x - u)) ->
  maxdev u' (map f v) = k * maxdev u v.
Proof.
  intros Hk Hf. unfold maxdev. induction v as [|y v IH]; simpl; [lra|].
  rewrite IH, Hf, Rabs_mult, (Rabs_right k) by lra.
  rewrite RmaxRmult by assumption. reflexivity.
Qed.

Lemma maxdev_repeat (u : R) (n : nat) : maxdev u (repeat u n) = 0.
Proof.
  unfold maxdev. induction n as [|n IH]; simpl; [reflexivity|].
  rewrite IH. replace (u - u) with 0 by lra. rewrite Rabs_R0.
  apply Rmax_left. lra.
Qed.

Lemma exists_max (v : vec) :
  v <> [] -> exists M, In M v /\ forall x, In x v -> x <= M.
Proof.
  induction v as [|y v IH]; [congruence|]. intros _.
  destruct v as [|z v].
  - exists y. split; [now left|]. intros x [->|[]]. lra.
  - destruct IH as [M [HM Hle]]; [discriminate|].
    destruct (Rle_lt_dec y M).
    + exists M. split; [now right|]. intros x [->|Hx]; auto.
    + exists y. split; [now left|]. intros x [->|Hx]; [lra|].
      specialize (Hle x Hx). lra.
Qed.

Lemma exists_min (v : vec) :
  v <> [] -> exists m, In m v /\ forall x, In x v -> m <= x.
Proof.
  induction v as [|y v IH]; [congruence|]. intros _.
  destruct v as [|z v].
  - exists y. split; [now left|]. intros x [->|[]]. lra.
  - destruct IH as [m [Hm Hle]]; [discriminate|].
    destruct (Rle_lt_dec m y).
    + exists m. split; [now right|]. intros x [->|Hx]; auto.
    + exists y. split; [now left|]. intros x [->|Hx]; [lra|].
      specialize (Hle x Hx). lra.
Qed.

Lemma all_equal_repeat (v : vec) (c : R) :
  (forall x, In x v -> x = c) -> v = repeat c (length v).
Proof.
  induction v as [|y v IH]; simpl; intros H; [reflexivity|].
  rewrite (H y) by auto. f_equal. apply IH. auto.
Qed.

Lemma np_sum_map_le (f h : R -> R) (v : vec) :
  (forall x, In x v -> f x <= h x) -> np_sum (map f v) <= np_sum (map h v).
Proof.
  induction v as [|y v IH]; simpl; intros H; [lra|].
  pose proof (H y (or_introl eq_refl)). specialize (IH (fun x Hx => H x (or_intror Hx))).
  lra.
Qed.

Lemma np_sum_map_lt (f h : R -> R) (v : vec) (z : R) :
  (forall x, In x v -> f x <= h x) -> In z v -> f z < h z ->
  np_sum (map f v) < np_sum (map h v).
Proof.
  induction v as [|y v IH]; simpl; intros H Hz Hlt; [tauto|].
  pose proof (H y (or_introl eq_refl)) as Hy.
  pose proof (np_sum_map_le f h v (fun x Hx => H x (or_intror Hx))) as Hle.
  destruct Hz as [->|Hz]; [lra|].
  specialize (IH (fun x Hx => H x (or_intror Hx)) Hz Hlt). lra.
Qed.

Lemma np_sum_map_scal (a : R) (f : R -> R) (v : vec) :
  a * np_sum (map f v) = np_sum (map (fun x => a * f x) v).
Proof. induction v as [|y v IH]; simpl; [lra|]. rewrite <- IH. lra. Qed.

End MaxDev.

Section ScoreNormalize.
Variable phi : R -> R.
Hypothesis phi_pos : forall x, 0 < x -> 0 < phi x.
Hypothesis phi_mul :
  forall a b, 0 < a -> 0 < b -> phi (a * b) = phi a * phi b.
Hypothesis phi_inc : forall a b, 0 < a -> a < b -> phi a < phi b.
Variables k c : R.
Hypothesis k_nonneg : 0 <= k.
Hypothesis c_pos : 0 < c.

Local Abbreviation g := (affine k c).

Lemma phi_le (a b : R) : 0 < a -> a <= b -> phi a <= phi b.
Proof.
  intros Ha [Hlt| ->]; [left; apply phi_inc; assumption|lra].
Qed.

Lemma g_pos (x : R) : 0 < x -> 0 < g x.
Proof. intros Hx. unfold affine. nra. Qed.

Lemma pos_In (w : vec) (x : R) : pos w -> In x w -> 0 < x.
Proof. intros Hp Hx. eapply Forall_forall in Hp; eauto. Qed.

Lemma score_sum_pos (w : vec) : pos w -> w <> [] -> 0 < np_sum (map phi w).
Proof.
  intros Hp Hne. apply pos_sum_pos.
  - apply pos_map. intros x Hx. apply phi_pos. eapply pos_In; eauto.
  - destruct w; [congruence|discriminate].
Qed.

Lemma pos_map_g (w : vec) : pos w -> pos (map g w).
Proof.
  intros Hp. apply pos_map. intros x Hx. apply g_pos. eapply pos_In; eauto.
Qed.

(** Cross-multiplied comparison of the mixed and the unmixed score of the
    entry [a] against the sums, given a termwise comparison. *)
Lemma cross_le (w : vec) (a : R) :
  pos w -> 0 < a ->
  (forall x, In x w -> g a * x <= a * g x) ->
  phi (g a) * np_sum (map phi w) <= phi a * np_sum (map phi (map g w)).
Proof.
  intros Hp Ha H. rewrite map_map, !np_sum_map_scal.
  apply np_sum_map_le. intros x Hx.
  assert (0 < x) by (eapply pos_In; eauto).
  rewrite <- !phi_mul; auto using g_pos.
  apply phi_le; [pose proof (g_pos a Ha); nra|auto].
Qed.

Lemma cross_lt (w : vec) (a z : R) :
  pos w -> 0 < a ->
  (forall x, In x w -> g a * x <= a * g x) ->
  In z w -> g a * z < a * g z ->
  phi (g a) * np_sum (map phi w) < phi a * np_sum (map phi (map g w)).
Proof.
  intros Hp Ha H Hz Hlt. rewrite map_map, !np_sum_map_scal.
  apply np_sum_map_lt with (z := z); auto.
  - intros x Hx.
    assert (0 < x) by (eapply pos_In; eauto).
    rewrite <- !phi_mul; auto using g_pos.
    apply phi_le; [pose proof (g_pos a Ha); nra|auto].
  - assert (0 < z) by (eapply pos_In; eauto).
    rewrite <- !phi_mul; auto using g_pos.
    apply phi_inc; [pose proof (g_pos a Ha); nra|auto].
Qed.

Lemma cross_ge (w : vec) (a : R) :
  pos w -> 0 < a ->
  (forall x, In x w -> a * g x <= g a * x) ->
  phi a * np_sum (map phi (map g w)) <= phi (g a) * np_sum (map phi w).
Proof.
  intros Hp Ha H. rewrite map_map, !np_sum_map_scal.
  apply np_sum_map_le. intros x Hx.
  assert (0 < x) by (eapply pos_In; eauto).
  rewrite <- !phi_mul; auto using g_pos.
  apply phi_le; [pose proof (g_pos x H0); nra|auto].
Qed.

Lemma cross_gt (w : vec) (a z : R) :
  pos w -> 0 < a ->
  (forall x, In x w -> a * g x <= g a * x) ->
  In z w -> a * g z < g a * z ->
  phi a * np_sum (map phi (map g w)) < phi (g a) * np_sum (map phi w).
Proof.
  intros Hp Ha H Hz Hlt. rewrite map_map, !np_sum_map_scal.
  apply np_sum_map_lt with (z := z); auto.
  - intros x Hx.
    assert (0 < x) by (eapply pos_In; eauto).
    rewrite <- !phi_mul; auto using g_pos.
    apply phi_le; [pose proof (g_pos x H0); nra|auto].
  - assert (0 < z) by (eapply pos_In; eauto).
    rewrite <- !phi_mul; auto using g_pos.
    apply phi_inc; [pose proof (g_pos z H0); nra|auto].
Qed.

Lemma div_lt_cross (a b a' b' : R) :
  0 < b -> 0 < b' -> a * b' < a' * b -> a / b < a' / b'.
Proof.
  intros Hb Hb' H.
  apply Rmult_lt_reg_r with (r := b * b'); [nra|].
  replace (a / b * (b * b')) with (a * b') by (field; lra).
  replace (a' / b' * (b * b')) with (a' * b) by (field; lra).
  assumption.
Qed.

Lemma div_le_same (a a' b : R) : 0 < b -> a <= a' -> a / b <= a' / b.
Proof.
  intros Hb H. unfold Rdiv. apply Rmult_le_compat_r; [|assumption].
  left. apply Rinv_0_lt_compat. assumption.
Qed.

(** Mixing every entry with a positive constant before the scores are
    normalized moves every normalized entry strictly inside the range of the
    unmixed normalized entries, unless all entries are equal. *)
Lemma score_normalize_closer (w : vec) (u : R) (lo hi : R) :
  pos w -> In lo w -> In hi w -> lo < hi ->
  maxdev u (score_normalize phi (map g w))
  < maxdev u (score_normalize phi w).
Proof.
  intros Hp Hlo Hhi Hlt.
  assert (Hne : w <> []) by (destruct w; [contradiction|discriminate]).
  destruct (exists_max w Hne) as [M [HM HMle]].
  destruct (exists_min w Hne) as [m [Hm Hmle]].
  assert (HmM : m < M).
  { specialize (Hmle lo Hlo). specialize (HMle hi Hhi). lra. }
  assert (HM0 : 0 < M) by (eapply pos_In; eauto).
  assert (Hm0 : 0 < m) by (eapply pos_In; eauto).
  pose proof (score_sum_pos w Hp Hne) as HS.
  assert (HSq : 0 < np_sum (map phi (map g w))).
  { apply score_sum_pos; [apply pos_map_g; assumption|].
    destruct w; [congruence|discriminate]. }
  set (Sw := np_sum (map phi w)) in *.
  set (Sq := np_sum (map phi (map g w))) in *.
  (* the largest entry shrinks, the smallest grows *)
  assert (Hmax : phi (g M) / Sq < phi M / Sw).
  { apply div_lt_cross; auto.
    apply cross_lt with (z := m); auto.
    - intros x Hx. specialize (HMle x Hx). unfold affine. nra.
    - unfold affine. nra. }
  assert (Hmin : phi m / Sw < phi (g m) / Sq).
  { apply div_lt_cross; auto.
    apply cross_gt with (z := M); auto.
    - intros x Hx. specialize (Hmle x Hx). unfold affine. nra.
    - unfold affine. nra. }
  assert (HinM : In (phi M / Sw) (score_normalize phi w)).
  { unfold score_normalize. apply in_map_iff. exists M. auto. }
  assert (Hinm : In (phi m / Sw) (score_normalize phi w)).
  { unfold score_normalize. apply in_map_iff. exists m. auto. }
  pose proof (maxdev_ub u _ _ HinM) as HdM.
  pose proof (maxdev_ub u _ _ Hinm) as Hdm.
  assert (Hd : 0 < maxdev u (score_normalize phi w)).
  { assert (phi m / Sw < phi M / Sw).
    { unfold Rdiv. apply Rmult_lt_compat_r;
        [apply Rinv_0_lt_compat; assumption|].
      apply phi_inc; assumption. }
    unfold Rabs in HdM, Hdm.
    destruct (Rcase_abs _) in HdM; destruct (Rcase_abs _) in Hdm; lra. }
  apply maxdev_lt; [assumption|].
  intros t Ht. unfold score_normalize in Ht. rewrite map_map in Ht.
  apply in_map_iff in Ht. destruct Ht as [x [<- Hx]]. fold Sq.
  assert (Hx0 : 0 < x) by (eapply pos_In; eauto).
  assert (Hup : phi (g x) / Sq <= phi (g M) / Sq).
  { apply div_le_same; auto. apply phi_le; [apply g_pos; assumption|].
    specialize (HMle x Hx). unfold affine. nra. }
  assert (Hdn : phi (g m) / Sq <= phi (g x) / Sq).
  { apply div_le_same; auto. apply phi_le; [apply g_pos; assumption|].
    specialize (Hmle x Hx). unfold affine. nra. }
  unfold Rabs in *.
  destruct (Rcase_abs (phi (g x) / Sq - u));
    destruct (Rcase_abs (phi M / Sw - u)) in HdM;
    destruct (Rcase_abs (phi m / Sw - u)) in Hdm; lra.
Qed.

End ScoreNormalize.

Section GoalSwitchEffect.

Lemma temper_score_pos (beta x : R) : 0 < x -> 0 < temper_score beta x.
Proof.
  intros Hx. unfold temper_score. destruct (Req_dec_T beta 1); [assumption|].
  apply pow_s_pos. assumption.
Qed.

Lemma pow_s_Rpower (x y : R) : 0 < x -> pow_s x y = Rpower x y.
Proof.
  intros Hx. unfold pow_s. destruct (Rlt_dec 0 x); [reflexivity|contradiction].
Qed.

Lemma temper_score_mul (beta a b : R) :
  0 < a -> 0 < b ->
  temper_score beta (a * b) = temper_score beta a * temper_score beta b.
Proof.
  intros Ha Hb. unfold temper_score. destruct (Req_dec_T beta 1); [reflexivity|].
  rewrite !pow_s_Rpower by (try assumption; nra).
  symmetry. apply Rpower_mult_distr; assumption.
Qed.

Lemma temper_score_inc (beta a b : R) :
  0 < beta -> 0 < a -> a < b -> temper_score beta a < temper_score beta b.
Proof.
  intros Hbeta Ha Hab. unfold temper_score.
  destruct (Req_dec_T beta 1); [assumption|].
  rewrite !pow_s_Rpower by lra. unfold Rpower. apply exp_increasing.
  apply Rmult_lt_compat_l.
  - apply Rdiv_lt_0_compat; lra.
  - apply ln_increasing; assumption.
Qed.

Lemma temper_as_score (beta : R) (v : vec) :
  simplex v -> temper beta v = score_normalize (temper_score beta) v.
Proof.
  intros [_ Hs]. unfold temper, temper_score, score_normalize.
  destruct (Req_dec_T beta 1).
  - rewrite map_id, Hs. rewrite <- (map_id v) at 1. apply map_ext.
    intros x. field.
  - rewrite map_map. reflexivity.
Qed.

Lemma mix_uniform_as_map (c : R) (n : nat) (v : vec) :
  mix_uniform c n v = map (fun x => (1 - c) * x + c * (1 / INR n)) v.
Proof. reflexivity. Qed.

Lemma dist_mix_uniform (c : R) (n : nat) (v : vec) :
  length v = n -> (1 <= n)%nat -> 0 <= c <= 1 ->
  dist_uniform (mix_uniform c n v) = (1 - c) * maxdev (1 / INR n) v.
Proof.
  intros Hlen Hn Hc. unfold dist_uniform.
  rewrite mix_uniform_length, Hlen. unfold mix_uniform.
  apply maxdev_scale; [lra|]. intros x. lra.
Qed.

Lemma mix_uniform_uniform (c : R) (n : nat) :
  mix_uniform c n (uniform n) = uniform n.
Proof.
  unfold mix_uniform, uniform. rewrite map_repeat. f_equal. lra.
Qed.

Lemma temper_uniform (beta : R) (n : nat) :
  (1 <= n)%nat -> temper beta (uniform n) = uniform n.
Proof.
  intros Hn. unfold temper. destruct (Req_dec_T beta 1); [reflexivity|].
  unfold uniform. rewrite !map_repeat, np_sum_repeat. f_equal.
  assert (0 < INR n) by (apply lt_0_INR; lia).
  assert (0 < pow_s (1 / INR n) (1 / beta))
    by (apply pow_s_pos, Rdiv_lt_0_compat; lra).
  field. split; lra.
Qed.

Lemma simplex_all_equal (w : vec) (n : nat) (c : R) :
  simplex w -> length w = n -> (1 <= n)%nat ->
  (forall x, In x w -> x = c) -> w = uniform n.
Proof.
  intros [_ Hs] Hlen Hn Hall.
  pose proof (all_equal_repeat w c Hall) as Hrep. rewrite Hlen in Hrep.
  rewrite Hrep in Hs |- *. rewrite np_sum_repeat in Hs.
  assert (0 < INR n) by (apply lt_0_INR; lia).
  unfold uniform. f_equal. apply Rmult_eq_reg_l with (r := INR n); [|lra].
  rewrite Hs. field. lra.
Qed.

(** The pipeline with and without the goal-switch mixing. *)
Lemma pipeline_goal_switch (alpha p beta e : R) (n : nat) (lb ll : vec) :
  length lb = n -> length ll = n -> (1 <= n)%nat ->
  0 < p <= 1 -> 0 < beta -> 0 <= e < 1 ->
  let v0 := bayes_pipeline alpha 0 beta e n lb ll in
  let vp := bayes_pipeline alpha p beta e n lb ll in
  (v0 = uniform n /\ vp = uniform n) \/ dist_uniform vp < dist_uniform v0.
Proof.
  intros Hb Hl Hn Hp Hbeta He. unfold bayes_pipeline, goal_switch.
  destruct (Rlt_dec 0 0) as [Habs|_]; [lra|].
  destruct (Rlt_dec 0 p) as [_|Habs]; [|lra].
  set (w := renormalize (blend alpha lb ll)).
  assert (Hw : simplex w).
  { apply renormalize_simplex, nonempty_length.
    rewrite blend_length; lia. }
  assert (Hlw : length w = n)
    by (unfold w; rewrite renormalize_length, blend_length; lia).
  assert (Hne : w <> []) by (apply nonempty_length; lia).
  destruct (exists_max w Hne) as [M [HM HMle]].
  destruct (exists_min w Hne) as [m [Hm Hmle]].
  cbv zeta.
  destruct (Rlt_le_dec m M) as [HmM|HMm].
  - right.
    assert (Hq : simplex (mix_uniform p n w))
      by (apply simplex_mix_uniform; auto; lra).
    rewrite !dist_mix_uniform
      by (rewrite ?temper_length, ?mix_uniform_length; auto; lra).
    apply Rmult_lt_compat_l; [lra|].
    rewrite !temper_as_score by assumption.
    rewrite mix_uniform_as_map.
    change (map (fun x => (1 - p) * x + p * (1 / INR n)) w)
      with (map (affine (1 - p) (p * (1 / INR n))) w).
    apply score_normalize_closer with (lo := m) (hi := M); auto.
    + apply temper_score_pos.
    + apply temper_score_mul.
    + intros a b. apply temper_score_inc. assumption.
    + lra.
    + assert (0 < INR n) by (apply lt_0_INR; lia).
      assert (0 < 1 / INR n) by (apply Rdiv_lt_0_compat; lra). nra.
    + apply Hw.
  - left.
    assert (Hu : w = uniform n).
    { apply simplex_all_equal with (c := M); auto.
      intros x Hx. specialize (HMle x Hx). specialize (Hmle x Hx). lra. }
    rewrite Hu, mix_uniform_uniform, !temper_uniform, mix_uniform_uniform
      by assumption.
    split; reflexivity.
Qed.

End GoalSwitchEffect.

(** With [beta = 1] the goal-switch mixing scales the distance to the
    uniform belief by [1 - p]. *)
Lemma pipeline_goal_switch_scale (alpha p e : R) (n : nat) (lb ll : vec) :
  length lb = n -> length ll = n -> (1 <= n)%nat ->
  0 < p <= 1 -> 0 <= e < 1 ->
  dist_uniform (bayes_pipeline alpha p 1 e n lb ll)
  = (1 - p) * dist_uniform (bayes_pipeline alpha 0 1 e n lb ll).
Proof.
  intros Hb Hl Hn Hp He. unfold bayes_pipeline, goal_switch, temper.
  destruct (Rlt_dec 0 0) as [Habs|_]; [lra|].
  destruct (Rlt_dec 0 p) as [_|Habs]; [|lra].
  destruct (Req_dec_T 1 1) as [_|Habs]; [|lra].
  set (w := renormalize (blend alpha lb ll)).
  assert (Hlw : length w = n)
    by (unfold w; rewrite renormalize_length, blend_length; lia).
  pose proof (dist_mix_uniform p n w Hlw Hn ltac:(lra)) as Hd.
  unfold dist_uniform in Hd. rewrite mix_uniform_length, Hlw in Hd.
  rewrite !dist_mix_uniform by (rewrite ?mix_uniform_length; auto; lra).
  rewrite Hd. ring.
Qed.

Lemma pipeline_goal_switch_le (alpha p beta e : R) (n : nat) (lb ll : vec) :
  length lb = n -> length ll = n -> (1 <= n)%nat ->
  0 < p <= 1 -> 0 < beta -> 0 <= e < 1 ->
  dist_uniform (bayes_pipeline alpha p beta e n lb ll)
  <= dist_uniform (bayes_pipeline alpha 0 beta e n lb ll).
Proof.
  intros Hb Hl Hn Hp Hbeta He.
  destruct (pipeline_goal_switch alpha p beta e n lb ll Hb Hl Hn Hp Hbeta He)
    as [[H0 Hpp]|Hlt].
  - rewrite H0, Hpp. apply Rle_refl.
  - left. exact Hlt.
Qed.

Lemma dist_uniform_uniform (n : nat) : dist_uniform (uniform n) = 0.
Proof.
  unfold dist_uniform, uniform. rewrite repeat_length. apply maxdev_repeat.
Qed.

Lemma pipeline_goal_switch_lt (alpha p beta e : R) (n : nat) (lb ll : vec) :
  length lb = n -> length ll = n -> (1 <= n)%nat ->
  0 < p <= 1 -> 0 < beta -> 0 <= e < 1 ->
  0 < dist_uniform (bayes_pipeline alpha 0 beta e n lb ll) ->
  dist_uniform (bayes_pipeline alpha p beta e n lb ll)
  < dist_uniform (bayes_pipeline alpha 0 beta e n lb ll).
Proof.
  intros Hb Hl Hn Hp Hbeta He Hd.
  destruct (pipeline_goal_switch alpha p beta e n lb ll Hb Hl Hn Hp Hbeta He)
    as [[H0 Hpp]|Hlt]; [|exact Hlt].
  rewrite H0, dist_uniform_uniform in Hd. lra.
Qed.

(** C1, as the code has it.  In the scenario ([N = 2], [A = 2],
    [tau = 0.8], values (1,0) and (0,1), uniform prior, default
    hyperparameters), five updates with action 0 all return, and the belief
    returned by the fifth has [0.5 < belief[0] < 0.6]: each update moves the
    stored log-odds by at most [alpha / tau = 0.0625]. *)
Theorem scenario_fifth_belief :
  exists b1 b2 b3 b4 b5 s',
    run bayes_step (repeat (default_bayes_call 0) 5) scenario
    = ([b1; b2; b3; b4; b5], None, s') /\
    1 / 2 < nth 0 b5 0 < 3 / 5.
Proof. exact scenario_five. Qed.

(** C1 as stated fails: the fifth belief in hypothesis 0 is not above 0.9. *)
Lemma fifth_belief_not_above_09 :
  exists b1 b2 b3 b4 b5 s',
    run bayes_step (repeat (default_bayes_call 0) 5) scenario
    = ([b1; b2; b3; b4; b5], None, s') /\
    ~ (nth 0 b5 0 > 0.9).
Proof.
  destruct scenario_five as [b1 [b2 [b3 [b4 [b5 [s' [Hr Hb]]]]]]].
  exists b1, b2, b3, b4, b5, s'. split; [exact Hr|]. lra.
Qed.

(** ** The goal-switch effect on [update] *)

Lemma blend_repeat (alpha a b : R) (n : nat) :
  blend alpha (repeat a n) (repeat b n)
  = repeat ((1 - alpha) * a + alpha * b) n.
Proof.
  unfold blend. induction n as [|n IH]; simpl; [reflexivity|].
  now rewrite IH.
Qed.

Lemma pipeline_on_constants (alpha p beta e a b : R) (n : nat) :
  (1 <= n)%nat ->
  bayes_pipeline alpha p beta e n (repeat a n) (repeat b n) = uniform n.
Proof.
  intros Hn. unfold bayes_pipeline, goal_switch.
  rewrite blend_repeat, renormalize_repeat by assumption.
  destruct (Rlt_dec 0 p);
    rewrite ?mix_uniform_uniform, temper_uniform, mix_uniform_uniform
      by assumption; reflexivity.
Qed.

Lemma twin_bayes_update (p : R) :
  exists s',
    Bayesian.update tt 0%Z 0.05 p 1 twin_bayes = (Ok (uniform 2), s').
Proof.
  destruct (bayes_loglikes_ok twin_bayes tt 0%Z) as [ll Hll];
    [simpl; lia|].
  assert (Hrep : exists y, ll = repeat y 2).
  { change (Bayesian.policies twin_bayes)
      with [const_policy 0; const_policy 0] in Hll.
    cbn [map_result] in Hll.
    destruct (Bayesian.log_likelihood twin_bayes tt 0%Z (const_policy 0))
      as [y|e]; cbn [bindR] in Hll; [|discriminate].
    injection Hll as <-. exists y. reflexivity. }
  destruct Hrep as [y ->].
  rewrite (bayes_update_eq twin_bayes tt 0%Z 0.05 p 1 (repeat y 2));
    try reflexivity; try (simpl; lia); try lra; [|exact Hll].
  cbv zeta. eexists. f_equal. f_equal.
  change (Bayesian.log_post twin_bayes)
    with (repeat (ln (1 / INR 2 + 1e-12)) 2).
  change (Bayesian.N twin_bayes) with 2%nat.
  apply pipeline_on_constants. lia.
Qed.

(** C8 as stated fails: with two identical hypotheses the update returns
    the uniform belief with [p_switch = 0.02] and with [p_switch = 0] alike,
    so the former is not strictly closer to uniform. *)
Lemma goal_switch_no_effect_on_uniform :
  exists s0 sp,
    Bayesian.update tt 0%Z 0.05 0 1 twin_bayes = (Ok (uniform 2), s0) /\
    Bayesian.update tt 0%Z 0.05 0.02 1 twin_bayes = (Ok (uniform 2), sp) /\
    ~ (dist_uniform (uniform 2) < dist_uniform (uniform 2)).
Proof.
  destruct (twin_bayes_update 0) as [s0 H0].
  destruct (twin_bayes_update 0.02) as [sp Hp].
  exists s0, sp. repeat split; try assumption. lra.
Qed.



(** C8, as the code has it.  For the Bayesian and CRF updaters within the
    data model's ranges, with a posterior temperature [beta >= 1], finite
    likelihoods and [0 < p_switch <= 1], for any stored belief and valid
    observation: the belief returned by the update with [p_switch] is at
    least as close to the uniform belief (largest deviation of an entry from
    [1/N]) as the belief returned by the identical update with
    [p_switch = 0]; it is strictly closer when [p_switch >= 1e-3] and the
    other belief is at least [1e-3] away from uniform (float64 absorbs a
    smaller mixing); and with [beta = 1] its distance from the uniform
    belief is [1 - p_switch] times the distance of the other. *)
Theorem goal_switch_effect {S : Type} (state : S) (a : Z) (p : R) :
  0 < p <= 1 ->
  (forall (s : Bayesian.t S) (alpha beta : R),
     bayes_wf s ->
     valid_action (Bayesian.action_space_size s) a ->
     0 <= alpha <= 1 ->
     1 <= beta ->
     finite_logits (Bayesian.policies s) (Bayesian.action_space_size s)
       (Bayesian.tau s) state ->
     exists v0 s0 vp sp,
       Bayesian.update state a alpha 0 beta s = (Ok v0, s0) /\
       Bayesian.update state a alpha p beta s = (Ok vp, sp) /\
       dist_uniform vp <= dist_uniform v0 /\
       (1e-3 <= p -> 1e-3 <= dist_uniform v0 ->
        dist_uniform vp < dist_uniform v0) /\
       (beta = 1 -> dist_uniform vp = (1 - p) * dist_uniform v0)) /\
  (forall (s : CRF.t S),
     crf_wf s ->
     crf_smooth s ->
     valid_action (CRF.action_space_size s) a ->
     finite_logits (CRF.policies s) (CRF.action_space_size s) (CRF.tau s)
       state ->
     exists v0 s0 vp sp,
       CRF.update state a (crf_with_p_switch 0 s) = (Ok v0, s0) /\
       CRF.update state a (crf_with_p_switch p s) = (Ok vp, sp) /\
       dist_uniform vp <= dist_uniform v0 /\
       (1e-3 <= p -> 1e-3 <= dist_uniform v0 ->
        dist_uniform vp < dist_uniform v0) /\
       (CRF.beta s = 1 -> dist_uniform vp = (1 - p) * dist_uniform v0)).
Proof.
  intros Hp. split.
  - intros s alpha beta [HN Hlen Hh Ha Ht He] Hact _ Hb _.
    unfold valid_action in Hact.
    destruct (bayes_loglikes_ok s state a) as [ll Hll]; [lia|].
    pose proof (map_result_length _ _ _ Hll) as Hl.
    rewrite (bayes_update_eq s state a alpha 0 beta ll) by (auto; lra).
    rewrite (bayes_update_eq s state a alpha p beta ll) by (auto; lra).
    cbv zeta. do 4 eexists. split; [reflexivity|]. split; [reflexivity|].
    split; [|split].
    + apply pipeline_goal_switch_le; auto; try lia; lra.
    + intros _ Hd. apply pipeline_goal_switch_lt; auto; try lia; lra.
    + intros ->. apply pipeline_goal_switch_scale; auto; lia.
  - intros s [HN Hlen Hh Ha Ht He Hal Hps Hb] _ Hact _.
    unfold valid_action in Hact.
    destruct (crf_loglikes_ok s state a) as [ll Hll]; [lia|].
    pose proof (map_result_length _ _ _ Hll) as Hl.
    rewrite (crf_update_eq (crf_with_p_switch 0 s) state a ll);
      try assumption; [|simpl; lra].
    rewrite (crf_update_eq (crf_with_p_switch p s) state a ll);
      try assumption; [|simpl; lra].
    cbv zeta. do 4 eexists. split; [reflexivity|]. split; [reflexivity|].
    simpl. split; [|split].
    + apply pipeline_goal_switch_le; auto; lia.
    + intros _ Hd. apply pipeline_goal_switch_lt; auto; try lia; lra.
    + intros Hb1. rewrite Hb1.
      apply pipeline_goal_switch_scale; auto; lia.
Qed.

Lemma scenario_finite_logits : finite_logits [hyp0; hyp1] 2 0.8 tt.
Proof.
  intros pi b [<-|[<-|[]]] _; simpl; destruct (Z.eqb b _);
    unfold Rdiv; rewrite ?Rmult_0_l, ?Rabs_R0, ?Rmult_1_l;
    try rewrite Rabs_pos_eq; lra.
Qed.

Lemma goal_switch_effect_witness :
  (exists v0 s0 vp sp,
     Bayesian.update tt 0%Z 0.05 0 1 scenario = (Ok v0, s0) /\
     Bayesian.update tt 0%Z 0.05 0.02 1 scenario = (Ok vp, sp) /\
     dist_uniform vp <= dist_uniform v0 /\
     dist_uniform vp = (1 - 0.02) * dist_uniform v0) /\
  (exists v0 s0 vp sp,
     CRF.update tt 0%Z (crf_with_p_switch 0 twin_crf) = (Ok v0, s0) /\
     CRF.update tt 0%Z (crf_with_p_switch 0.02 twin_crf) = (Ok vp, sp) /\
     dist_uniform vp <= dist_uniform v0 /\
     dist_uniform vp = (1 - 0.02) * dist_uniform v0).
Proof.
  destruct (goal_switch_effect tt 0%Z 0.02) as [HB HC]; [lra|].
  split.
  - destruct (HB scenario 0.05 1)
      as [v0 [s0 [vp [sp [H0 [Hp [Hle [_ Heq]]]]]]]].
    + constructor; simpl; try reflexivity; try lia;
        unfold Bayesian.default_eps; lra.
    + unfold valid_action. simpl. lia.
    + lra.
    + lra.
    + exact scenario_finite_logits.
    + exists v0, s0, vp, sp. repeat split; auto.
  - destruct (HC twin_crf) as [v0 [s0 [vp [sp [H0 [Hp [Hle [_ Heq]]]]]]]].
    + exact twin_crf_wf.
    + exact twin_crf_smooth.
    + unfold valid_action. simpl. lia.
    + apply twin_finite_logits.
    + exists v0, s0, vp, sp. repeat split; auto.
Defined.

(** * Further properties of the code *)

(** ** Softmax facts *)

Lemma np_sum_map_factor (k : R) (f : R -> R) (v : vec) :
  np_sum (map (fun x => f x * k) v) = np_sum (map f v) * k.
Proof. induction v as [|y v IH]; simpl; [lra|]. rewrite IH. lra. Qed.

(** Max-subtraction does not change the result: [renormalize] is the softmax. *)
Lemma renormalize_softmax (v : vec) :
  renormalize v = map (fun x => exp x / np_sum (map exp v)) v.
Proof.
  destruct v as [|y0 v0]; [reflexivity|].
  set (v := y0 :: v0). unfold renormalize.
  set (m := vmax v).
  assert (He : map (fun x => exp (x - m)) v = map (fun x => exp x * exp (- m)) v).
  { apply map_ext. intros x. rewrite <- exp_plus. f_equal. }
  rewrite He, map_map, np_sum_map_factor.
  assert (Hs : 0 < np_sum (map exp v)).
  { apply pos_sum_pos; [apply pos_map; intros; apply exp_pos|discriminate]. }
  pose proof (exp_pos (- m)).
  apply map_ext. intros x. field. split; lra.
Qed.

Lemma np_sum_map_plus (c : R) (v : vec) :
  np_sum (map (fun x => x + c) v) = np_sum v + INR (length v) * c.
Proof.
  induction v as [|y v IH]; [simpl; lra|].
  change (length (y :: v)) with (Datatypes.S (length v)). rewrite S_INR.
  simpl. rewrite IH. lra.
Qed.

(** Reading back a stored belief: the floor is added and the sum restored. *)
Lemma renormalize_stored_log (v : vec) :
  pos v ->
  renormalize (stored_log v) =
  map (fun x => (x + 1e-12) / (np_sum v + INR (length v) * 1e-12)) v.
Proof.
  intros Hp. rewrite renormalize_softmax. unfold stored_log.
  rewrite !map_map.
  assert (He : map (fun x => exp (ln (x + 1e-12))) v = map (fun x => x + 1e-12) v).
  { apply map_ext_in. intros x Hx.
    assert (0 < x) by (eapply Forall_forall in Hp; eauto).
    apply exp_ln. lra. }
  rewrite He, np_sum_map_plus.
  apply map_ext_in. intros x Hx.
  assert (0 < x) by (eapply Forall_forall in Hp; eauto).
  rewrite exp_ln by lra. reflexivity.
Qed.

(** ** One call, with the object it leaves *)




Lemma read_back_eq (n : nat) (post : vec) :
  simplex post -> length post = n ->
  renormalize (stored_log post) = read_back n post.
Proof.
  intros [Hp Hs] Hlen. rewrite renormalize_stored_log by assumption.
  rewrite Hs, Hlen. reflexivity.
Qed.

(** X1.  After an update returned the belief [post], [get_prob] does not
    report [post] itself but [(post_i + 1e-12) / (1 + N * 1e-12)]: the floor
    added before the logarithm is stored comes back, renormalized. *)
Theorem get_prob_after_update {S : Type} :
  (forall (s : Bayesian.t S) (c : BayesCall S),
     bayes_wf s -> bayes_call_ok (Bayesian.action_space_size s) c ->
     exists post s',
       bayes_step c s = (Ok post, s') /\
       Bayesian.get_prob s' = (Ok (read_back (Bayesian.N s) post), s')) /\
  (forall (s : MaxEnt.t S) (c : MaxEntCall S),
     maxent_wf s -> maxent_call_ok (MaxEnt.action_space_size s) c ->
     exists post s',
       maxent_step c s = (Ok post, s') /\
       MaxEnt.get_prob s' = (Ok (read_back (MaxEnt.N s) post), s')) /\
  (forall (s : CRF.t S) (c : S * Z),
     crf_wf s -> valid_action (CRF.action_space_size s) (snd c) ->
     exists post s',
       crf_step c s = (Ok post, s') /\
       CRF.get_prob s' = (Ok (read_back (CRF.N s) post), s')).
Proof.
  repeat apply conj.
  - intros s c Hwf Hc.
    destruct (bayes_step_eq s c Hwf Hc) as [post [Hr [Hs Hl]]].
    exists post. eexists. split; [exact Hr|].
    unfold Bayesian.get_prob, bind, read, liftR. simpl.
    rewrite exp_normalize_ok
      by (rewrite stored_log_length, Hl; apply Hwf).
    rewrite (read_back_eq (Bayesian.N s)) by assumption. reflexivity.
  - intros s c Hwf Hc.
    destruct (maxent_step_eq s c Hwf Hc) as [post [Hr [Hs Hl]]].
    exists post. eexists. split; [exact Hr|].
    unfold MaxEnt.get_prob, bind, read, liftR. simpl.
    rewrite exp_normalize_ok
      by (rewrite stored_log_length, Hl; apply Hwf).
    rewrite (read_back_eq (MaxEnt.N s)) by assumption. reflexivity.
  - intros s c Hwf Hc.
    destruct (crf_step_eq s c Hwf Hc) as [post [Hr [Hs Hl]]].
    exists post. eexists. split; [exact Hr|].
    unfold CRF.get_prob, bind, read, liftR. simpl.
    rewrite exp_normalize_ok
      by (rewrite stored_log_length, Hl; apply Hwf).
    rewrite (read_back_eq (CRF.N s)) by assumption. reflexivity.
Qed.

Lemma get_prob_after_update_witness :
  (exists post s',
     bayes_step (default_bayes_call 0) twin_bayes = (Ok post, s') /\
     Bayesian.get_prob s' = (Ok (read_back 2 post), s')) /\
  (exists post s',
     maxent_step (default_maxent_call 0) twin_maxent = (Ok post, s') /\
     MaxEnt.get_prob s' = (Ok (read_back 2 post), s')) /\
  (exists post s',
     crf_step (tt, 0%Z) twin_crf = (Ok post, s') /\
     CRF.get_prob s' = (Ok (read_back 2 post), s')).
Proof.
  destruct (@get_prob_after_update unit) as [HB [HM HC]].
  repeat apply conj.
  - apply (HB twin_bayes (default_bayes_call 0)).
    + exact twin_bayes_wf.
    + apply default_bayes_call_ok. lia.
  - apply (HM twin_maxent (default_maxent_call 0)).
    + exact twin_maxent_wf.
    + apply default_maxent_call_ok. lia.
  - apply (HC twin_crf (tt, 0%Z)).
    + exact twin_crf_wf.
    + unfold valid_action. simpl. lia.
Defined.

(** Case analysis on every branch of a method body. *)
Ltac method_cases :=
  repeat (simpl;
          match goal with
          | |- context [map_result ?f ?l] => destruct (map_result f l)
          | |- context [np_add ?u ?v] => destruct (np_add u v)
          | |- context [exp_normalize ?v] => destruct (exp_normalize v)
          | |- context [Rlt_dec ?x ?y] => destruct (Rlt_dec x y)
          | |- context [Req_dec_T ?x ?y] => destruct (Req_dec_T x y)
          | |- context [py_div ?x ?y] => destruct (py_div x y)
          end).

Lemma bayes_update_frame {S} (s : Bayesian.t S) state a alpha p beta :
  bayes_same_config s (snd (Bayesian.update state a alpha p beta s)).
Proof.
  unfold bayes_same_config, Bayesian.update, bind, read, liftR, assign, ret.
  method_cases; repeat split.
Qed.

Lemma maxent_update_frame {S} (s : MaxEnt.t S) state a alpha :
  maxent_same_config s (snd (MaxEnt.update state a alpha s)).
Proof.
  unfold maxent_same_config, MaxEnt.update, bind, read, liftR, assign, ret.
  method_cases; repeat split.
Qed.

Lemma crf_update_belief_config {S} (s : CRF.t S) state a :
  crf_same_config s (snd (CRF.update_belief state a s)).
Proof.
  unfold crf_same_config, CRF.update_belief, bind, read, liftR, assign, ret.
  method_cases; repeat split.
Qed.

Lemma crf_update_frame {S} (s : CRF.t S) state a :
  crf_same_config s (snd (CRF.update state a s)).
Proof.
  rewrite crf_update_split.
  pose proof (crf_update_belief_config s state a) as H.
  destruct (CRF.update_belief state a s) as [[post|e] s']; exact H.
Qed.

(** X2.  [update] changes nothing of the object but the stored log-belief
    (and, for the CRF updater, the previous action), whatever the arguments
    and whether it returns or raises: the hypotheses, [N], the action-space
    size and every hyperparameter stay as [__init__] set them, so keyword
    arguments given to one call of [BayesianPredictor.update] or
    [MaxEntPredictor.update] do not reach the next. *)
Theorem update_keeps_configuration {S : Type} (state : S) (a : Z) :
  (forall (s : Bayesian.t S) (alpha p_switch beta : R),
     bayes_same_config s
       (snd (Bayesian.update state a alpha p_switch beta s))) /\
  (forall (s : MaxEnt.t S) (alpha : R),
     maxent_same_config s (snd (MaxEnt.update state a alpha s))) /\
  (forall (s : CRF.t S), crf_same_config s (snd (CRF.update state a s))).
Proof.
  repeat apply conj.
  - intros. apply bayes_update_frame.
  - intros. apply maxent_update_frame.
  - intros. apply crf_update_frame.
Qed.

Lemma run_final_related {St O A} (step : O -> M St A)
    (Rel : St -> St -> Prop) :
  (forall s, Rel s s) ->
  (forall s1 s2 s3, Rel s1 s2 -> Rel s2 s3 -> Rel s1 s3) ->
  (forall o s, Rel s (snd (step o s))) ->
  forall obs s, Rel s (final_state (run step obs s)).
Proof.
  intros Hrefl Htrans Hstep obs.
  induction obs as [|o obs IH]; intros s; simpl; [apply Hrefl|].
  pose proof (Hstep o s) as H1.
  destruct (step o s) as [[a|e] s1]; simpl in *; [|exact H1].
  specialize (IH s1).
  destruct (run step obs s1) as [[outs e] s2]. simpl in *.
  eapply Htrans; eauto.
Qed.

Lemma crf_same_config_refl {S} (s : CRF.t S) : crf_same_config s s.
Proof. repeat split. Qed.

Lemma crf_same_config_trans {S} (s1 s2 s3 : CRF.t S) :
  crf_same_config s1 s2 -> crf_same_config s2 s3 -> crf_same_config s1 s3.
Proof.
  unfold crf_same_config. intros H1 H2.
  repeat match goal with H : _ /\ _ |- _ => destruct H end.
  repeat split; congruence.
Qed.

(** X3.  [reset] undoes any history: after any sequence of [update] calls
    on a freshly constructed CRF predictor, with whatever actions and whether
    or not one of them raised, [reset] leaves exactly the object [__init__]
    built. *)
Theorem crf_reset_restores_init {S : Type} (pols : list (Policy S)) (A : Z)
    (eps0 tau0 w alpha0 p_switch0 beta0 : R) (calls : list (S * Z)) :
  let fresh := CRF.init pols A eps0 tau0 w alpha0 p_switch0 beta0 in
  CRF.reset (final_state (run crf_step calls fresh)) = (Ok tt, fresh).
Proof.
  intros fresh.
  pose proof (run_final_related (@crf_step S) crf_same_config
                crf_same_config_refl crf_same_config_trans
                (fun o s => crf_update_frame s (fst o) (snd o)) calls fresh)
    as H.
  destruct (final_state (run crf_step calls fresh)) as
    [pols' n' A' e' t' w' al' p' b' lp' pa'].
  unfold crf_same_config in H. simpl in H.
  destruct H as [-> [-> [-> [-> [-> [-> [-> [-> ->]]]]]]]].
  reflexivity.
Qed.

(** ** Exceptions of [update] *)

Lemma map_result_head_raises {A B} (f : A -> result B) (l : list A) (e : exn) :
  l <> [] -> (forall x, In x l -> f x = Raise e) ->
  map_result f l = Raise e.
Proof.
  destruct l as [|x l]; [congruence|]. intros _ H. simpl.
  rewrite (H x) by (now left). reflexivity.
Qed.

Lemma loglik_of_empty (fl : R) (a : Z) : loglik_of fl [] a = Raise ValueError.
Proof. reflexivity. Qed.

Lemma logits_empty_iff (n : Z) (f : Z -> R) :
  (n <= 0)%Z -> map f (range n) = [].
Proof.
  intros H. unfold range. replace (Z.to_nat n) with 0%nat by lia. reflexivity.
Qed.

(** X4.  An action index outside [[-A, A)] makes [update] raise
    [IndexError] before anything is stored: with at least one hypothesis and
    one action (and, for the CRF updater, [tau <> 0], so that [unary_fn]
    divides), the object after the call is the object before it. *)
Theorem update_index_error_keeps_object {S : Type} (state : S) (a : Z) :
  (forall (s : Bayesian.t S) (alpha p_switch beta : R),
     Bayesian.policies s <> [] ->
     (1 <= Bayesian.action_space_size s)%Z ->
     ~ (- Bayesian.action_space_size s <= a
        < Bayesian.action_space_size s)%Z ->
     Bayesian.update state a alpha p_switch beta s = (Raise IndexError, s)) /\
  (forall (s : MaxEnt.t S) (alpha : R),
     MaxEnt.policies s <> [] ->
     (1 <= MaxEnt.action_space_size s)%Z ->
     ~ (- MaxEnt.action_space_size s <= a < MaxEnt.action_space_size s)%Z ->
     MaxEnt.update state a alpha s = (Raise IndexError, s)) /\
  (forall (s : CRF.t S),
     CRF.tau s <> 0 ->
     CRF.policies s <> [] ->
     (1 <= CRF.action_space_size s)%Z ->
     ~ (- CRF.action_space_size s <= a < CRF.action_space_size s)%Z ->
     CRF.update state a s = (Raise IndexError, s)).
Proof.
  repeat apply conj.
  - intros s alpha p beta Hne HA Ha.
    unfold Bayesian.update, bind, read, liftR. cbv beta iota.
    rewrite (map_result_head_raises _ _ IndexError); auto.
    intros pi _. rewrite bayes_loglik_shape.
    pose proof (bayes_logits_length s state pi) as Hl.
    apply loglik_of_raises; lia.
  - intros s alpha Hne HA Ha.
    unfold MaxEnt.update, bind, read, liftR. cbv beta iota.
    rewrite (map_result_head_raises _ _ IndexError); auto.
    intros pi _. rewrite maxent_loglik_shape.
    pose proof (maxent_logits_length s state pi) as Hl.
    apply loglik_of_raises; lia.
  - intros s _ Hne HA Ha.
    unfold CRF.update, CRF.update_belief, bind, read, liftR. cbv beta iota.
    rewrite (map_result_head_raises _ _ IndexError); auto.
    intros pi _. rewrite crf_loglik_shape.
    pose proof (crf_logits_length s state pi) as Hl.
    apply loglik_of_raises; lia.
Qed.

Lemma update_index_error_keeps_object_witness :
  Bayesian.update tt 2%Z 0.05 0.02 1 twin_bayes
    = (Raise IndexError, twin_bayes) /\
  MaxEnt.update tt (-3)%Z 0.5 twin_maxent = (Raise IndexError, twin_maxent) /\
  CRF.update tt 7%Z twin_crf = (Raise IndexError, twin_crf).
Proof.
  repeat apply conj.
  - destruct (update_index_error_keeps_object tt 2%Z) as [H _].
    apply H; simpl; [discriminate|lia|lia].
  - destruct (update_index_error_keeps_object tt (-3)%Z) as [_ [H _]].
    apply H; simpl; [discriminate|lia|lia].
  - destruct (update_index_error_keeps_object tt 7%Z) as [_ [_ H]].
    apply H; simpl; [unfold CRF.default_tau; lra|discriminate|lia|lia].
Defined.

(** X5.  With an action-space size of zero or less, [log_likelihood]
    raises [ValueError] (the maximum of an empty array) for every action and
    hypothesis, and [update] on a predictor with at least one hypothesis
    raises [ValueError] and leaves the object as it was. *)
Theorem no_actions_value_error {S : Type} (state : S) (a : Z)
    (pi : Policy S) :
  (forall (s : Bayesian.t S) (alpha p_switch beta : R),
     (Bayesian.action_space_size s <= 0)%Z ->
     Bayesian.log_likelihood s state a pi = Raise ValueError /\
     (Bayesian.policies s <> [] ->
      Bayesian.update state a alpha p_switch beta s
      = (Raise ValueError, s))) /\
  (forall (s : MaxEnt.t S) (alpha : R),
     (MaxEnt.action_space_size s <= 0)%Z ->
     MaxEnt.log_likelihood s state a pi = Raise ValueError /\
     (MaxEnt.policies s <> [] ->
      MaxEnt.update state a alpha s = (Raise ValueError, s))) /\
  (forall (s : CRF.t S),
     (CRF.action_space_size s <= 0)%Z ->
     CRF.log_likelihood s state a pi = Raise ValueError /\
     (CRF.policies s <> [] ->
      CRF.update state a s = (Raise ValueError, s))).
Proof.
  repeat apply conj.
  - intros s alpha p beta HA.
    assert (H : forall pi0, Bayesian.log_likelihood s state a pi0
                            = Raise ValueError).
    { intros pi0. rewrite bayes_loglik_shape. unfold bayes_logits.
      rewrite logits_empty_iff by assumption. reflexivity. }
    split; [apply H|]. intros Hne.
    unfold Bayesian.update, bind, read, liftR. cbv beta iota.
    rewrite (map_result_head_raises _ _ ValueError); auto.
  - intros s alpha HA.
    assert (H : forall pi0, MaxEnt.log_likelihood s state a pi0
                            = Raise ValueError).
    { intros pi0. rewrite maxent_loglik_shape. unfold maxent_logits.
      rewrite logits_empty_iff by assumption. reflexivity. }
    split; [apply H|]. intros Hne.
    unfold MaxEnt.update, bind, read, liftR. cbv beta iota.
    rewrite (map_result_head_raises _ _ ValueError); auto.
  - intros s HA.
    assert (H : forall pi0, CRF.log_likelihood s state a pi0
                            = Raise ValueError).
    { intros pi0. rewrite crf_loglik_shape. unfold crf_logits.
      rewrite logits_empty_iff by assumption. reflexivity. }
    split; [apply H|]. intros Hne.
    unfold CRF.update, CRF.update_belief, bind, read, liftR. cbv beta iota.
    rewrite (map_result_head_raises _ _ ValueError); auto.
Qed.

Lemma no_actions_value_error_witness :
  Bayesian.update tt 0%Z 0.05 0.02 1
    (Bayesian.init [const_policy 0] 0 None 0.8 1e-3)
  = (Raise ValueError, Bayesian.init [const_policy 0] 0 None 0.8 1e-3) /\
  MaxEnt.log_likelihood (MaxEnt.init [const_policy 0] (-1) 0.8 1e-2) tt 0%Z
    (const_policy 0) = Raise ValueError /\
  CRF.log_likelihood twin_crf tt 0%Z (const_policy 0) <> Raise ValueError.
Proof.
  destruct (no_actions_value_error tt 0%Z (const_policy 0)) as [HB [HM HC]].
  repeat apply conj.
  - apply (HB (Bayesian.init [const_policy 0] 0 None 0.8 1e-3) 0.05 0.02 1);
      simpl; [lia|discriminate].
  - apply (HM (MaxEnt.init [const_policy 0] (-1) 0.8 1e-2) 0.5). simpl. lia.
  - rewrite crf_loglik_valid by (simpl; lia). discriminate.
Defined.

(** X6.  An empty hypothesis set is accepted by the constructors, and then
    every [get_prob] and every [update] raises [ValueError] (the maximum of
    an empty array), leaving the object as constructed. *)
Theorem empty_hypothesis_set_raises {S : Type} (state : S) (a A : Z) :
  (forall (tau0 eps0 alpha p_switch beta : R),
     let s := @Bayesian.init S [] A None tau0 eps0 in
     Bayesian.get_prob s = (Raise ValueError, s) /\
     Bayesian.update state a alpha p_switch beta s = (Raise ValueError, s))
  /\
  (forall (tau0 eps0 alpha : R),
     let s := @MaxEnt.init S [] A tau0 eps0 in
     MaxEnt.get_prob s = (Raise ValueError, s) /\
     MaxEnt.update state a alpha s = (Raise ValueError, s)) /\
  (forall (eps0 tau0 w alpha0 p_switch0 beta0 : R),
     let s := @CRF.init S [] A eps0 tau0 w alpha0 p_switch0 beta0 in
     CRF.get_prob s = (Raise ValueError, s) /\
     CRF.update state a s = (Raise ValueError, s)).
Proof.
  repeat apply conj; intros; split; reflexivity.
Qed.

(** X7.  [beta = 0] makes the Bayesian and the CRF update raise
    [ZeroDivisionError] at [1.0 / beta], after step 2 has already
    overwritten the stored log-belief with the blend
    [(1-alpha)*log_post + alpha*log_likes]: the call raises and the object
    has changed (the previous action of the CRF updater has not). *)
Theorem beta_zero_raises_after_blend {S : Type} (state : S) (a : Z) :
  (forall (s : Bayesian.t S) (alpha p_switch : R),
     bayes_wf s ->
     (- Bayesian.action_space_size s <= a < Bayesian.action_space_size s)%Z
     ->
     exists log_likes,
       map_result (Bayesian.log_likelihood s state a) (Bayesian.policies s)
         = Ok log_likes /\
       Bayesian.update state a alpha p_switch 0 s =
       (Raise ZeroDivisionError,
        Bayesian.set_log_post
          (blend alpha (Bayesian.log_post s) log_likes) s)) /\
  (forall (s : CRF.t S),
     CRF.N s = length (CRF.policies s) ->
     length (CRF.log_post s) = CRF.N s ->
     (1 <= CRF.N s)%nat ->
     CRF.tau s <> 0 ->
     CRF.beta s = 0 ->
     (- CRF.action_space_size s <= a < CRF.action_space_size s)%Z ->
     exists log_likes,
       map_result (CRF.log_likelihood s state a) (CRF.policies s)
         = Ok log_likes /\
       CRF.update state a s =
       (Raise ZeroDivisionError,
        CRF.set_log_post
          (blend (CRF.alpha s) (CRF.log_post s) log_likes) s)).
Proof.
  split.
  - intros s alpha p [HN Hlen Hh HA Ht He] Ha.
    destruct (bayes_loglikes_ok s state a Ha) as [ll Hll].
    pose proof (map_result_length _ _ _ Hll) as Hl.
    exists ll. split; [assumption|].
    unfold Bayesian.update, bind, read, liftR, assign, ret.
    rewrite Hll. rewrite np_add_blend by lia. simpl.
    rewrite exp_normalize_ok by (rewrite blend_length; lia).
    rewrite (py_div_ok 1 (INR (Bayesian.N s)))
      by (apply INR_pos_neq; assumption).
    unfold py_div.
    destruct (Rlt_dec 0 p); simpl;
      (destruct (Req_dec_T 0 1) as [Hb|Hb]; [exfalso; lra|]); simpl;
      (destruct (Req_dec_T 0 0) as [_|Hb0]; [|exfalso; lra]); reflexivity.
  - intros s HN Hlen Hh _ Hb Ha.
    destruct (crf_loglikes_ok s state a Ha) as [ll Hll].
    pose proof (map_result_length _ _ _ Hll) as Hl.
    exists ll. split; [assumption|].
    unfold CRF.update, CRF.update_belief, bind, read, liftR, assign, ret.
    rewrite Hll. rewrite np_add_blend by lia. simpl.
    rewrite exp_normalize_ok by (rewrite blend_length; lia).
    rewrite (py_div_ok 1 (INR (CRF.N s))) by (apply INR_pos_neq; assumption).
    destruct (Rlt_dec 0 (CRF.p_switch s)); simpl; rewrite Hb; unfold py_div;
      (destruct (Req_dec_T 0 1) as [Hb1|Hb1]; [exfalso; lra|]); simpl;
      (destruct (Req_dec_T 0 0) as [_|Hb0]; [|exfalso; lra]); reflexivity.
Qed.

Lemma beta_zero_raises_after_blend_witness :
  (exists log_likes,
     map_result (Bayesian.log_likelihood twin_bayes tt 0%Z)
       (Bayesian.policies twin_bayes) = Ok log_likes /\
     Bayesian.update tt 0%Z 0.05 0.02 0 twin_bayes =
     (Raise ZeroDivisionError,
      Bayesian.set_log_post
        (blend 0.05 (Bayesian.log_post twin_bayes) log_likes) twin_bayes)) /\
  (exists log_likes,
     map_result (CRF.log_likelihood (CRF.init [const_policy 0] 2 0.01 0.8
                                       0.3 0.05 0.02 0) tt 1%Z)
       [const_policy 0] = Ok log_likes /\
     CRF.update tt 1%Z (CRF.init [const_policy 0] 2 0.01 0.8 0.3 0.05 0.02 0)
     = (Raise ZeroDivisionError,
        CRF.set_log_post
          (blend 0.05 (uniform_log_post 1) log_likes)
          (CRF.init [const_policy 0] 2 0.01 0.8 0.3 0.05 0.02 0))).
Proof.
  destruct (beta_zero_raises_after_blend tt 0%Z) as [HB _].
  destruct (beta_zero_raises_after_blend tt 1%Z) as [_ HC].
  split.
  - apply (HB twin_bayes 0.05 0.02); [exact twin_bayes_wf|simpl; lia].
  - apply (HC (CRF.init [const_policy 0] 2 0.01 0.8 0.3 0.05 0.02 0));
      simpl; try reflexivity; try lia; lra.
Defined.

(** ** Properties of [log_likelihood] *)

(** ** The log-likelihood as a softmax *)

Lemma softmax_nth (v : vec) (k : nat) :
  (k < length v)%nat ->
  nth k (renormalize v) 0 = exp (nth k v 0) / np_sum (map exp v).
Proof.
  intros Hk. rewrite renormalize_softmax.
  rewrite (nth_indep _ 0 ((fun x => exp x / np_sum (map exp v)) 0))
    by (rewrite length_map; assumption).
  rewrite (map_nth (fun x => exp x / np_sum (map exp v))). reflexivity.
Qed.

Lemma loglik_of_softmax (fl : R) (logits : vec) (a : Z) :
  (0 <= a < Z.of_nat (length logits))%Z ->
  loglik_of fl logits a =
  Ok (ln (exp (nth (Z.to_nat a) logits 0) / np_sum (map exp logits) + fl)).
Proof.
  intros Ha. unfold loglik_of.
  rewrite exp_normalize_ok by lia. cbn [bindR].
  rewrite np_index_nonneg by (rewrite renormalize_length; lia).
  cbn [bindR]. rewrite softmax_nth by lia. reflexivity.
Qed.

Lemma exp_sum_pos (v : vec) : v <> [] -> 0 < np_sum (map exp v).
Proof.
  intros H. apply pos_sum_pos.
  - apply pos_map. intros. apply exp_pos.
  - destruct v; [congruence|discriminate].
Qed.

Lemma loglik_of_constant (fl c : R) (n : nat) (a : Z) :
  (- Z.of_nat n <= a < Z.of_nat n)%Z ->
  loglik_of fl (repeat c n) a = Ok (ln (1 / INR n + fl)).
Proof.
  intros Ha. assert (Hn : (1 <= n)%nat) by lia.
  destruct (loglik_of_ok fl (repeat c n) a) as [p [Hp Hin]];
    [rewrite repeat_length; lia|].
  rewrite renormalize_repeat in Hin by assumption.
  unfold uniform in Hin. apply repeat_spec in Hin. subst p. exact Hp.
Qed.

(** X8.  A hypothesis that gives all actions of a state the same value
    explains every action equally: whatever the common value, the
    log-likelihood of an action index in [[-A, A)] is [ln (1/A + floor)],
    the floor being [1e-8] in the Bayesian and [1e-12] in the MaxEnt and CRF
    updater (the CRF updater while it has no previous action). *)
Theorem indifferent_hypothesis_likelihood {S : Type} (state : S) (a : Z)
    (pi : Policy S) (c : R) :
  (forall b, get_q_value pi state b = c) ->
  (forall s : Bayesian.t S,
     Bayesian.tau s <> 0 ->
     Rabs (c / Bayesian.tau s) <= 1e300 ->
     (- Bayesian.action_space_size s <= a < Bayesian.action_space_size s)%Z
     ->
     Bayesian.log_likelihood s state a pi
     = Ok (ln (1 / INR (Z.to_nat (Bayesian.action_space_size s)) + 1e-8))) /\
  (forall s : MaxEnt.t S,
     MaxEnt.tau s <> 0 ->
     Rabs (c / MaxEnt.tau s) <= 1e300 ->
     (- MaxEnt.action_space_size s <= a < MaxEnt.action_space_size s)%Z ->
     MaxEnt.log_likelihood s state a pi
     = Ok (ln (1 / INR (Z.to_nat (MaxEnt.action_space_size s)) + 1e-12))) /\
  (forall s : CRF.t S,
     CRF.tau s <> 0 ->
     Rabs (c / CRF.tau s) <= 1e300 ->
     CRF.prev_action s = None ->
     (- CRF.action_space_size s <= a < CRF.action_space_size s)%Z ->
     CRF.log_likelihood s state a pi
     = Ok (ln (1 / INR (Z.to_nat (CRF.action_space_size s)) + 1e-12))).
Proof.
  intros Hq. repeat apply conj.
  - intros s _ _ Ha. rewrite bayes_loglik_shape. unfold bayes_logits.
    rewrite (map_ext _ (fun _ => c / Bayesian.tau s))
      by (intros b; now rewrite Hq).
    rewrite map_const, range_length. apply loglik_of_constant. lia.
  - intros s _ _ Ha. rewrite maxent_loglik_shape. unfold maxent_logits.
    rewrite (map_ext _ (fun _ => c / MaxEnt.tau s))
      by (intros b; now rewrite Hq).
    rewrite map_const, range_length. apply loglik_of_constant. lia.
  - intros s _ _ Hprev Ha. rewrite crf_loglik_shape. unfold crf_logits.
    rewrite (map_ext _ (fun _ => c / CRF.tau s)).
    + rewrite map_const, range_length. apply loglik_of_constant. lia.
    + intros b. unfold CRF.unary_fn, CRF.pair_term. rewrite Hprev, Hq. lra.
Qed.

Lemma indifferent_hypothesis_likelihood_witness :
  Bayesian.log_likelihood twin_bayes tt 1%Z (const_policy 5)
  = Ok (ln (1 / INR 2 + 1e-8)) /\
  CRF.log_likelihood twin_crf tt (-1)%Z (const_policy 5)
  = Ok (ln (1 / INR 2 + 1e-12)).
Proof.
  destruct (indifferent_hypothesis_likelihood tt 1%Z (const_policy 5) 5)
    as [HB _]; [reflexivity|].
  destruct (indifferent_hypothesis_likelihood tt (-1)%Z (const_policy 5) 5)
    as [_ [_ HC]]; [reflexivity|].
  split.
  - apply (HB twin_bayes); simpl.
    + unfold Bayesian.default_tau. lra.
    + unfold Bayesian.default_tau, Rdiv.
      rewrite Rabs_pos_eq; lra.
    + lia.
  - apply (HC twin_crf); simpl.
    + unfold CRF.default_tau. lra.
    + unfold CRF.default_tau, Rdiv.
      rewrite Rabs_pos_eq; lra.
    + reflexivity.
    + lia.
Defined.

Lemma loglik_of_bounds (fl : R) (logits : vec) (a : Z) :
  0 < fl ->
  (- Z.of_nat (length logits) <= a < Z.of_nat (length logits))%Z ->
  exists l, loglik_of fl logits a = Ok l /\ ln fl <= l <= ln (1 + fl).
Proof.
  intros Hfl Ha.
  destruct (loglik_of_ok fl logits a Ha) as [p [Hp Hin]].
  exists (ln (p + fl)). split; [assumption|].
  assert (Hne : logits <> []) by (destruct logits; simpl in Ha; [lia|discriminate]).
  destruct (simplex_le_1 _ (renormalize_simplex logits Hne)) as [Hall _].
  pose proof (proj1 (Forall_forall _ _) Hall p Hin) as [Hp0 Hp1].
  split; apply ln_le_compat; lra.
Qed.

(** X9.  For an action index in [[-A, A)] and finite likelihoods the
    log-likelihood is a number between [ln floor] and [ln (1 + floor)], the
    floor being [1e-8] in the Bayesian and [1e-12] in the MaxEnt and CRF
    updater: it is never minus infinity, and it can be positive. *)
Theorem log_likelihood_bounds {S : Type} (state : S) (a : Z)
    (pi : Policy S) :
  (forall s : Bayesian.t S,
     Bayesian.tau s <> 0 ->
     finite_logits [pi] (Bayesian.action_space_size s) (Bayesian.tau s) state
     ->
     (- Bayesian.action_space_size s <= a < Bayesian.action_space_size s)%Z
     ->
     exists l, Bayesian.log_likelihood s state a pi = Ok l /\
               ln 1e-8 <= l <= ln (1 + 1e-8)) /\
  (forall s : MaxEnt.t S,
     MaxEnt.tau s <> 0 ->
     finite_logits [pi] (MaxEnt.action_space_size s) (MaxEnt.tau s) state ->
     (- MaxEnt.action_space_size s <= a < MaxEnt.action_space_size s)%Z ->
     exists l, MaxEnt.log_likelihood s state a pi = Ok l /\
               ln 1e-12 <= l <= ln (1 + 1e-12)) /\
  (forall s : CRF.t S,
     CRF.tau s <> 0 ->
     finite_logits [pi] (CRF.action_space_size s) (CRF.tau s) state ->
     Rabs (CRF.pairwise_weight s) <= 1e300 ->
     (- CRF.action_space_size s <= a < CRF.action_space_size s)%Z ->
     exists l, CRF.log_likelihood s state a pi = Ok l /\
               ln 1e-12 <= l <= ln (1 + 1e-12)).
Proof.
  repeat apply conj.
  - intros s _ _ Ha. rewrite bayes_loglik_shape.
    apply loglik_of_bounds; [lra|]. rewrite bayes_logits_length. lia.
  - intros s _ _ Ha. rewrite maxent_loglik_shape.
    apply loglik_of_bounds; [lra|]. rewrite maxent_logits_length. lia.
  - intros s _ _ _ Ha. rewrite crf_loglik_shape.
    apply loglik_of_bounds; [lra|]. rewrite crf_logits_length. lia.
Qed.

Lemma const_finite_logits (c tau : R) (A : Z) :
  Rabs (c / tau) <= 1e300 -> finite_logits [const_policy c] A tau tt.
Proof. intros H pi b [<-|[]] _. exact H. Qed.

Lemma log_likelihood_bounds_witness :
  exists l, Bayesian.log_likelihood twin_bayes tt (-1)%Z (const_policy 0)
            = Ok l /\ ln 1e-8 <= l <= ln (1 + 1e-8).
Proof.
  destruct (log_likelihood_bounds tt (-1)%Z (const_policy 0)) as [HB _].
  apply (HB twin_bayes); simpl.
  - unfold Bayesian.default_tau; lra.
  - apply const_finite_logits.
    unfold Rdiv. rewrite Rmult_0_l, Rabs_R0. lra.
  - lia.
Defined.

Lemma bayes_logits_nth {S} (s : Bayesian.t S) state pi (a : Z) :
  (0 <= a < Bayesian.action_space_size s)%Z ->
  nth (Z.to_nat a) (bayes_logits s state pi) 0 =
  get_q_value pi state a / Bayesian.tau s.
Proof.
  intros Ha. unfold bayes_logits.
  rewrite (nth_indep _ 0
             ((fun b => get_q_value pi state b / Bayesian.tau s) 0%Z))
    by (rewrite length_map, range_length; lia).
  rewrite (map_nth (fun b => get_q_value pi state b / Bayesian.tau s)).
  rewrite range_nth by lia. do 2 f_equal. lia.
Qed.

Lemma maxent_logits_nth {S} (s : MaxEnt.t S) state pi (a : Z) :
  (0 <= a < MaxEnt.action_space_size s)%Z ->
  nth (Z.to_nat a) (maxent_logits s state pi) 0 =
  get_q_value pi state a / MaxEnt.tau s.
Proof.
  intros Ha. unfold maxent_logits.
  rewrite (nth_indep _ 0
             ((fun b => get_q_value pi state b / MaxEnt.tau s) 0%Z))
    by (rewrite length_map, range_length; lia).
  rewrite (map_nth (fun b => get_q_value pi state b / MaxEnt.tau s)).
  rewrite range_nth by lia. do 2 f_equal. lia.
Qed.

Lemma loglik_of_monotone (fl : R) (logits : vec) (a b : Z) :
  0 < fl ->
  (0 <= a < Z.of_nat (length logits))%Z ->
  (0 <= b < Z.of_nat (length logits))%Z ->
  nth (Z.to_nat a) logits 0 <= nth (Z.to_nat b) logits 0 ->
  exists la lb, loglik_of fl logits a = Ok la /\
                loglik_of fl logits b = Ok lb /\ la <= lb.
Proof.
  intros Hfl Ha Hb Hle.
  rewrite !loglik_of_softmax by assumption.
  eexists. eexists. split; [reflexivity|]. split; [reflexivity|].
  assert (Hne : logits <> [])
    by (destruct logits; simpl in Ha; [lia|discriminate]).
  pose proof (exp_sum_pos logits Hne) as Hs.
  pose proof (exp_pos (nth (Z.to_nat a) logits 0)) as Hpa.
  assert (He : exp (nth (Z.to_nat a) logits 0)
               <= exp (nth (Z.to_nat b) logits 0)).
  { destruct Hle as [Hlt|Heq]; [left; apply exp_increasing; assumption|].
    rewrite Heq. apply Rle_refl. }
  assert (Hd : exp (nth (Z.to_nat a) logits 0) / np_sum (map exp logits)
               <= exp (nth (Z.to_nat b) logits 0) / np_sum (map exp logits)).
  { unfold Rdiv. apply Rmult_le_compat_r; [|assumption].
    left. apply Rinv_0_lt_compat. assumption. }
  assert (0 < exp (nth (Z.to_nat a) logits 0) / np_sum (map exp logits))
    by (apply Rdiv_lt_0_compat; assumption).
  apply ln_le_compat; lra.
Qed.

(** X10.  With a positive temperature and finite likelihoods, the
    log-likelihood follows the values: an action a hypothesis values at
    least as high as another has a log-likelihood at least as high under
    that hypothesis (Bayesian and MaxEnt updaters, and the CRF updater while
    it has no previous action). *)
Theorem log_likelihood_monotone {S : Type} (state : S) (a b : Z)
    (pi : Policy S) :
  get_q_value pi state a <= get_q_value pi state b ->
  (forall s : Bayesian.t S,
     0 < Bayesian.tau s ->
     finite_logits [pi] (Bayesian.action_space_size s) (Bayesian.tau s) state
     ->
     valid_action (Bayesian.action_space_size s) a ->
     valid_action (Bayesian.action_space_size s) b ->
     exists la lb,
       Bayesian.log_likelihood s state a pi = Ok la /\
       Bayesian.log_likelihood s state b pi = Ok lb /\ la <= lb) /\
  (forall s : MaxEnt.t S,
     0 < MaxEnt.tau s ->
     finite_logits [pi] (MaxEnt.action_space_size s) (MaxEnt.tau s) state ->
     valid_action (MaxEnt.action_space_size s) a ->
     valid_action (MaxEnt.action_space_size s) b ->
     exists la lb,
       MaxEnt.log_likelihood s state a pi = Ok la /\
       MaxEnt.log_likelihood s state b pi = Ok lb /\ la <= lb) /\
  (forall s : CRF.t S,
     0 < CRF.tau s ->
     finite_logits [pi] (CRF.action_space_size s) (CRF.tau s) state ->
     CRF.prev_action s = None ->
     valid_action (CRF.action_space_size s) a ->
     valid_action (CRF.action_space_size s) b ->
     exists la lb,
       CRF.log_likelihood s state a pi = Ok la /\
       CRF.log_likelihood s state b pi = Ok lb /\ la <= lb).
Proof.
  intros Hq. unfold valid_action. repeat apply conj.
  - intros s Ht _ Ha Hb. rewrite !bayes_loglik_shape.
    pose proof (bayes_logits_length s state pi) as Hl.
    apply loglik_of_monotone; try lra; try lia.
    rewrite !bayes_logits_nth by assumption.
    unfold Rdiv. apply Rmult_le_compat_r; [|assumption].
    left. apply Rinv_0_lt_compat. assumption.
  - intros s Ht _ Ha Hb. rewrite !maxent_loglik_shape.
    pose proof (maxent_logits_length s state pi) as Hl.
    apply loglik_of_monotone; try lra; try lia.
    rewrite !maxent_logits_nth by assumption.
    unfold Rdiv. apply Rmult_le_compat_r; [|assumption].
    left. apply Rinv_0_lt_compat. assumption.
  - intros s Ht _ Hprev Ha Hb. rewrite !crf_loglik_shape.
    pose proof (crf_logits_length s state pi) as Hl.
    apply loglik_of_monotone; try lra; try lia.
    rewrite !crf_logits_nth by assumption.
    unfold CRF.pair_term, CRF.unary_fn. rewrite Hprev.
    assert (get_q_value pi state a / CRF.tau s
            <= get_q_value pi state b / CRF.tau s).
    { unfold Rdiv. apply Rmult_le_compat_r; [|assumption].
      left. apply Rinv_0_lt_compat. assumption. }
    lra.
Qed.

Lemma log_likelihood_monotone_witness :
  exists la lb,
    Bayesian.log_likelihood scenario tt 1%Z hyp0 = Ok la /\
    Bayesian.log_likelihood scenario tt 0%Z hyp0 = Ok lb /\ la <= lb.
Proof.
  destruct (log_likelihood_monotone tt 1%Z 0%Z hyp0) as [HB _];
    [simpl; lra|].
  apply (HB scenario); unfold valid_action; simpl; try lia; try lra.
  intros pi b [<-|[]] Hb. apply scenario_finite_logits; [now left|assumption].
Defined.

(** X11.  Without temporal context the CRF likelihood is the MaxEnt
    likelihood: with no previous action, or with [pairwise_weight = 0], a
    CRF predictor and a MaxEnt predictor with the same [tau] and action-space
    size give the same [log_likelihood], value or exception. *)
Theorem crf_without_context_is_maxent {S : Type} (c : CRF.t S)
    (m : MaxEnt.t S) (state : S) (a : Z) (pi : Policy S) :
  CRF.tau c <> 0 ->
  CRF.tau c = MaxEnt.tau m ->
  CRF.action_space_size c = MaxEnt.action_space_size m ->
  CRF.prev_action c = None \/ CRF.pairwise_weight c = 0 ->
  CRF.log_likelihood c state a pi = MaxEnt.log_likelihood m state a pi.
Proof.
  intros _ Ht HA Hctx. rewrite crf_loglik_shape, maxent_loglik_shape.
  f_equal. unfold crf_logits, maxent_logits. rewrite HA.
  apply map_ext. intros b. unfold CRF.unary_fn, CRF.pair_term, CRF.pairwise_fn.
  rewrite Ht.
  destruct Hctx as [-> | Hw]; [lra|].
  destruct (CRF.prev_action c) as [p|]; [|lra].
  rewrite Hw. destruct (Z.eqb p b); lra.
Qed.

Lemma crf_without_context_is_maxent_witness :
  CRF.log_likelihood twin_crf tt 1%Z hyp0
  = MaxEnt.log_likelihood twin_maxent tt 1%Z hyp0.
Proof.
  apply crf_without_context_is_maxent;
    [simpl; unfold CRF.default_tau; lra|reflexivity|reflexivity|].
  left. reflexivity.
Defined.

Lemma sum_map_le {A} (f h : A -> R) (l : list A) :
  (forall x, In x l -> f x <= h x) -> np_sum (map f l) <= np_sum (map h l).
Proof.
  induction l as [|y l IH]; simpl; intros H; [lra|].
  pose proof (H y (or_introl eq_refl)).
  specialize (IH (fun x Hx => H x (or_intror Hx))). lra.
Qed.

Lemma np_sum_map_scal_any {A} (c : R) (f : A -> R) (l : list A) :
  c * np_sum (map f l) = np_sum (map (fun x => c * f x) l).
Proof. induction l as [|y l IH]; simpl; [lra|]. rewrite <- IH. lra. Qed.

Lemma pair_term_bounds {S} (s : CRF.t S) (b : Z) :
  0 <= CRF.pairwise_weight s ->
  0 <= CRF.pair_term s b <= CRF.pairwise_weight s.
Proof.
  intros Hw. unfold CRF.pair_term, CRF.pairwise_fn.
  destruct (CRF.prev_action s) as [p|]; [|lra].
  destruct (Z.eqb p b); lra.
Qed.

(** X12.  The persistence bonus: with [pairwise_weight >= 0] and the
    previous action [k], the log-likelihood of [k] is at least what it would
    be without a previous action, and the log-likelihood of every other
    action is at most what it would be without one. *)
Theorem crf_context_shifts_likelihood {S : Type} (s : CRF.t S) (state : S)
    (k a : Z) (pi : Policy S) :
  CRF.tau s <> 0 ->
  0 <= CRF.pairwise_weight s ->
  CRF.prev_action s = Some k ->
  valid_action (CRF.action_space_size s) a ->
  exists l l0,
    CRF.log_likelihood s state a pi = Ok l /\
    CRF.log_likelihood (CRF.set_prev_action None s) state a pi = Ok l0 /\
    (a = k -> l0 <= l) /\ (a <> k -> l <= l0).
Proof.
  intros _ Hw Hprev Ha. unfold valid_action in Ha.
  set (s0 := CRF.set_prev_action None s).
  rewrite !crf_loglik_shape.
  pose proof (crf_logits_length s state pi) as Hl.
  pose proof (crf_logits_length s0 state pi) as Hl0.
  change (CRF.action_space_size s0) with (CRF.action_space_size s) in Hl0.
  rewrite !loglik_of_softmax by lia.
  eexists. eexists. split; [reflexivity|]. split; [reflexivity|].
  rewrite (crf_logits_nth s) by assumption.
  rewrite (crf_logits_nth s0) by assumption.
  change (CRF.unary_fn s0 pi state a) with (CRF.unary_fn s pi state a).
  change (CRF.pair_term s0 a) with 0.
  set (u := CRF.unary_fn s pi state).
  set (w := CRF.pairwise_weight s) in *.
  assert (HZ : 0 < np_sum (map exp (crf_logits s state pi))).
  { apply exp_sum_pos. apply nonempty_length. lia. }
  assert (HZ0 : 0 < np_sum (map exp (crf_logits s0 state pi))).
  { apply exp_sum_pos. apply nonempty_length. lia. }
  (* the two normalizers, termwise *)
  assert (Hle : np_sum (map exp (crf_logits s0 state pi))
                <= np_sum (map exp (crf_logits s state pi))).
  { unfold crf_logits. rewrite !map_map. apply sum_map_le. intros b _.
    change (CRF.pair_term s0 b) with 0.
    change (CRF.unary_fn s0 pi state b) with (u b).
    change (CRF.unary_fn s pi state b) with (u b).
    pose proof (pair_term_bounds s b Hw).
    destruct (Req_dec_T (CRF.pair_term s b) 0) as [->|Hne]; [lra|].
    left. apply exp_increasing. lra. }
  assert (Hge : np_sum (map exp (crf_logits s state pi))
                <= exp w * np_sum (map exp (crf_logits s0 state pi))).
  { unfold crf_logits. rewrite !map_map. rewrite (np_sum_map_scal_any (exp w)).
    apply sum_map_le. intros b _.
    change (CRF.pair_term s0 b) with 0.
    change (CRF.unary_fn s0 pi state b) with (u b).
    change (CRF.unary_fn s pi state b) with (u b).
    rewrite <- exp_plus.
    pose proof (pair_term_bounds s b Hw).
    destruct (Req_dec_T (u b + CRF.pair_term s b) (w + (u b + 0)))
      as [->|Hne]; [lra|].
    left. apply exp_increasing. fold w in H. lra. }
  set (Z1 := np_sum (map exp (crf_logits s state pi))) in *.
  set (Z0 := np_sum (map exp (crf_logits s0 state pi))) in *.
  split.
  - intros ->.
    assert (Hp : CRF.pair_term s k = w).
    { unfold CRF.pair_term, CRF.pairwise_fn. rewrite Hprev, Z.eqb_refl.
      reflexivity. }
    rewrite Hp.
    assert (Hx : exp (u k + 0) / Z0 <= exp (u k + w) / Z1).
    { rewrite (exp_plus (u k) w), Rplus_0_r.
      pose proof (exp_pos (u k)). pose proof (exp_pos w).
      apply Rmult_le_reg_r with (r := Z0 * Z1); [nra|].
      replace (exp (u k) / Z0 * (Z0 * Z1)) with (exp (u k) * Z1)
        by (field; lra).
      replace (exp (u k) * exp w / Z1 * (Z0 * Z1))
        with (exp (u k) * (exp w * Z0)) by (field; lra).
      apply Rmult_le_compat_l; lra. }
    assert (0 < exp (u k + 0) / Z0)
      by (apply Rdiv_lt_0_compat; [apply exp_pos|assumption]).
    destruct Hx as [Hx|Hx]; [left; apply ln_increasing; lra|rewrite Hx; lra].
  - intros Hak.
    assert (Hp : CRF.pair_term s a = 0).
    { unfold CRF.pair_term, CRF.pairwise_fn. rewrite Hprev.
      destruct (Z.eqb_spec k a); [congruence|reflexivity]. }
    rewrite Hp.
    pose proof (exp_pos (u a + 0)).
    assert (Hx : exp (u a + 0) / Z1 <= exp (u a + 0) / Z0).
    { apply Rmult_le_reg_r with (r := Z0 * Z1); [nra|].
      replace (exp (u a + 0) / Z1 * (Z0 * Z1)) with (exp (u a + 0) * Z0)
        by (field; lra).
      replace (exp (u a + 0) / Z0 * (Z0 * Z1)) with (exp (u a + 0) * Z1)
        by (field; lra).
      apply Rmult_le_compat_l; lra. }
    assert (0 < exp (u a + 0) / Z1)
      by (apply Rdiv_lt_0_compat; assumption).
    destruct Hx as [Hx|Hx]; [left; apply ln_increasing; lra|rewrite Hx; lra].
Qed.

Lemma crf_context_shifts_likelihood_witness :
  exists l l0,
    CRF.log_likelihood (CRF.set_prev_action (Some 0%Z) twin_crf) tt 0%Z hyp0
      = Ok l /\
    CRF.log_likelihood
      (CRF.set_prev_action None (CRF.set_prev_action (Some 0%Z) twin_crf))
      tt 0%Z hyp0 = Ok l0 /\
    (0%Z = 0%Z -> l0 <= l) /\ (0%Z <> 0%Z -> l <= l0).
Proof.
  apply (crf_context_shifts_likelihood
           (CRF.set_prev_action (Some 0%Z) twin_crf) tt 0%Z 0%Z hyp0).
  - simpl. unfold CRF.default_tau. lra.
  - simpl. unfold CRF.default_pairwise_weight. lra.
  - reflexivity.
  - unfold valid_action. simpl. lia.
Defined.

(** ** The extremes of the learning rate *)

Lemma blend_0 (u v : vec) : length u = length v -> blend 0 u v = u.
Proof.
  unfold blend. revert v.
  induction u as [|x u IH]; destruct v as [|y v]; simpl; intros H;
    try discriminate; [reflexivity|].
  rewrite IH by lia. f_equal. lra.
Qed.

Lemma blend_1 (u v : vec) : length u = length v -> blend 1 u v = v.
Proof.
  unfold blend. revert v.
  induction u as [|x u IH]; destruct v as [|y v]; simpl; intros H;
    try discriminate; [reflexivity|].
  rewrite IH by lia. f_equal. lra.
Qed.

(** X13.  With [alpha = 0] an update ignores the observation: the belief
    it returns and the log-belief it stores are computed from the stored
    log-belief alone, the same for every state and every action index in
    [[-A, A)].  The Bayesian update returns the goal-switch, temperature and
    [eps] steps applied to what [get_prob] reported before the call, and the
    MaxEnt update the [eps] smoothing of it. *)
Theorem alpha_zero_ignores_observation {S : Type} (state : S) (a : Z) :
  (forall (s : Bayesian.t S) (p_switch beta : R),
     bayes_wf s ->
     (- Bayesian.action_space_size s <= a < Bayesian.action_space_size s)%Z
     ->
     p_switch <= 1 -> beta <> 0 ->
     exists before,
       Bayesian.get_prob s = (Ok before, s) /\
       let post := mix_uniform (Bayesian.eps s) (Bayesian.N s)
                     (temper beta
                        (goal_switch p_switch (Bayesian.N s) before)) in
       Bayesian.update state a 0 p_switch beta s =
       (Ok post, Bayesian.set_log_post (stored_log post) s)) /\
  (forall (s : MaxEnt.t S),
     maxent_wf s ->
     (- MaxEnt.action_space_size s <= a < MaxEnt.action_space_size s)%Z ->
     exists before,
       MaxEnt.get_prob s = (Ok before, s) /\
       let post := mix_uniform (MaxEnt.eps s) (MaxEnt.N s) before in
       MaxEnt.update state a 0 s =
       (Ok post, MaxEnt.set_log_post (stored_log post) s)).
Proof.
  split.
  - intros s p beta [HN Hlen Hh HA Ht He] Ha Hp Hb.
    destruct (bayes_loglikes_ok s state a Ha) as [ll Hll].
    pose proof (map_result_length _ _ _ Hll) as Hl.
    exists (renormalize (Bayesian.log_post s)). split.
    + unfold Bayesian.get_prob, bind, read, liftR.
      rewrite exp_normalize_ok by lia. reflexivity.
    + cbv zeta.
      rewrite (bayes_update_eq s state a 0 p beta ll) by auto.
      cbv zeta. unfold bayes_pipeline. rewrite blend_0 by lia. reflexivity.
  - intros s [HN Hlen Hh HA Ht He] Ha.
    destruct (maxent_loglikes_ok s state a Ha) as [ll Hll].
    pose proof (map_result_length _ _ _ Hll) as Hl.
    exists (renormalize (MaxEnt.log_post s)). split.
    + unfold MaxEnt.get_prob, bind, read, liftR.
      rewrite exp_normalize_ok by lia. reflexivity.
    + cbv zeta.
      rewrite (maxent_update_eq s state a 0 ll) by auto.
      cbv zeta. rewrite blend_0 by (rewrite !renormalize_length; lia).
      reflexivity.
Qed.

Lemma alpha_zero_ignores_observation_witness :
  (exists before,
     Bayesian.get_prob scenario = (Ok before, scenario) /\
     Bayesian.update tt 1%Z 0 0.02 1 scenario =
     (Ok (mix_uniform 1e-3 2 (temper 1 (goal_switch 0.02 2 before))),
      Bayesian.set_log_post
        (stored_log
           (mix_uniform 1e-3 2 (temper 1 (goal_switch 0.02 2 before))))
        scenario)) /\
  (exists before,
     MaxEnt.get_prob twin_maxent = (Ok before, twin_maxent) /\
     MaxEnt.update tt 1%Z 0 twin_maxent =
     (Ok (mix_uniform 1e-2 2 before),
      MaxEnt.set_log_post (stored_log (mix_uniform 1e-2 2 before))
        twin_maxent)).
Proof.
  destruct (alpha_zero_ignores_observation tt 1%Z) as [HB HM].
  split.
  - apply (HB scenario 0.02 1); try lra; [|simpl; lia].
    constructor; simpl; try reflexivity; try lia;
      unfold Bayesian.default_eps; lra.
  - apply (HM twin_maxent); [exact twin_maxent_wf|simpl; lia].
Defined.

(** X14.  With [alpha = 1] the MaxEnt update forgets the stored belief:
    the belief it returns is the [eps] smoothing of the normalized
    likelihoods of the observation, whatever log-belief was stored. *)
Theorem maxent_alpha_one_forgets {S : Type} (s : MaxEnt.t S) (state : S)
    (a : Z) (log_post' : vec) :
  maxent_wf s ->
  length log_post' = MaxEnt.N s ->
  (- MaxEnt.action_space_size s <= a < MaxEnt.action_space_size s)%Z ->
  exists log_likes,
    map_result (MaxEnt.log_likelihood s state a) (MaxEnt.policies s)
      = Ok log_likes /\
    let post := mix_uniform (MaxEnt.eps s) (MaxEnt.N s)
                  (renormalize log_likes) in
    fst (MaxEnt.update state a 1 s) = Ok post /\
    fst (MaxEnt.update state a 1 (MaxEnt.set_log_post log_post' s))
      = Ok post.
Proof.
  intros [HN Hlen Hh HA Ht He] Hlen' Ha.
  destruct (maxent_loglikes_ok s state a Ha) as [ll Hll].
  pose proof (map_result_length _ _ _ Hll) as Hl.
  exists ll. split; [assumption|]. cbv zeta. split.
  - rewrite (maxent_update_eq s state a 1 ll) by auto.
    cbv zeta. rewrite blend_1 by (rewrite !renormalize_length; lia).
    reflexivity.
  - rewrite (maxent_update_eq (MaxEnt.set_log_post log_post' s) state a 1 ll)
      by auto.
    cbv zeta. simpl.
    rewrite blend_1 by (rewrite !renormalize_length; lia).
    reflexivity.
Qed.

Lemma maxent_alpha_one_forgets_witness :
  exists log_likes,
    map_result (MaxEnt.log_likelihood twin_maxent tt 0%Z)
      (MaxEnt.policies twin_maxent) = Ok log_likes /\
    fst (MaxEnt.update tt 0%Z 1 twin_maxent)
      = Ok (mix_uniform 1e-2 2 (renormalize log_likes)) /\
    fst (MaxEnt.update tt 0%Z 1 (MaxEnt.set_log_post [3; -7] twin_maxent))
      = Ok (mix_uniform 1e-2 2 (renormalize log_likes)).
Proof.
  apply (maxent_alpha_one_forgets twin_maxent tt 0%Z [3; -7]).
  - exact twin_maxent_wf.
  - reflexivity.
  - simpl. lia.
Defined.

(** ** Bounds from the uniform mixing *)

Lemma mix_uniform_bounds (c : R) (n : nat) (v : vec) (lo hi : R) :
  0 <= c <= 1 ->
  Forall (fun x => lo <= x <= hi) v ->
  Forall (fun x => (1 - c) * lo + c * (1 / INR n) <= x
                   <= (1 - c) * hi + c * (1 / INR n))
         (mix_uniform c n v).
Proof.
  intros Hc Hv. unfold mix_uniform. apply Forall_forall. intros y Hy.
  apply in_map_iff in Hy. destruct Hy as [x [<- Hx]].
  pose proof (proj1 (Forall_forall _ _) Hv x Hx) as [Hl Hh].
  split; nra.
Qed.

Lemma simplex_unit_interval (v : vec) :
  simplex v -> Forall (fun x => 0 <= x <= 1) v.
Proof.
  intros Hs. destruct (simplex_le_1 v Hs) as [H _].
  revert H. apply Forall_impl. intros x [H0 H1]. lra.
Qed.

(** The mass the two mixing steps give to the uniform belief together. *)
Lemma pipeline_mass_bounds (alpha p e : R) (n : nat) (lb ll : vec) :
  length lb = n -> length ll = n -> (1 <= n)%nat ->
  0 <= p <= 1 -> 0 <= e <= 1 ->
  let f := 1 - (1 - e) * (1 - p) in
  Forall (fun x => f / INR n <= x <= 1 - f + f / INR n)
         (bayes_pipeline alpha p 1 e n lb ll).
Proof.
  intros Hb Hl Hn Hp He f. unfold bayes_pipeline, temper.
  destruct (Req_dec_T 1 1) as [_|Hne]; [|exfalso; lra].
  set (w := renormalize (blend alpha lb ll)).
  assert (Hw : simplex w).
  { apply renormalize_simplex, nonempty_length.
    rewrite blend_length; lia. }
  assert (Hn0 : 0 < INR n) by (apply lt_0_INR; lia).
  assert (Hu : 0 < 1 / INR n) by (apply Rdiv_lt_0_compat; lra).
  assert (Hg : Forall (fun x => p * (1 / INR n) <= x
                               <= (1 - p) + p * (1 / INR n))
                      (goal_switch p n w)).
  { unfold goal_switch. destruct (Rlt_dec 0 p) as [Hp0|Hp0].
    - pose proof (mix_uniform_bounds p n w 0 1 Hp
                    (simplex_unit_interval w Hw)) as H.
      revert H. apply Forall_impl. intros x [H0 H1]. split; lra.
    - assert (p = 0) by lra. subst p.
      generalize (simplex_unit_interval w Hw).
      apply Forall_impl. intros x [H0 H1]. split; lra. }
  pose proof (mix_uniform_bounds e n _ _ _ He Hg) as H.
  revert H. apply Forall_impl. intros x [H0 H1]. subst f.
  unfold Rdiv in *. split; nra.
Qed.

(** X15.  With [beta = 1], the goal-switch and [eps] mixing together give
    the uniform belief the mass [f = 1 - (1-eps)*(1-p_switch)], so every
    entry of a belief returned by the Bayesian or CRF update lies between
    [f/N] and [1 - f + f/N]: no hypothesis can be believed more than that,
    whatever was observed.  (Defaults, two hypotheses: at most 0.98951.) *)
Theorem belief_bounds_from_mixing {S : Type} :
  (forall (s : Bayesian.t S) (c : BayesCall S),
     bayes_wf s -> bayes_call_ok (Bayesian.action_space_size s) c ->
     b_beta c = 1 ->
     let f := 1 - (1 - Bayesian.eps s) * (1 - b_p_switch c) in
     exists post s',
       bayes_step c s = (Ok post, s') /\
       Forall (fun x => f / INR (Bayesian.N s) <= x
                        <= 1 - f + f / INR (Bayesian.N s)) post) /\
  (forall (s : CRF.t S) (c : S * Z),
     crf_wf s -> valid_action (CRF.action_space_size s) (snd c) ->
     CRF.beta s = 1 ->
     let f := 1 - (1 - CRF.eps s) * (1 - CRF.p_switch s) in
     exists post s',
       crf_step c s = (Ok post, s') /\
       Forall (fun x => f / INR (CRF.N s) <= x
                        <= 1 - f + f / INR (CRF.N s)) post).
Proof.
  split.
  - intros s c [HN Hlen Hh HA Ht He] [Hact Hal Hps Hb] Hb1 f.
    unfold valid_action in Hact.
    destruct (bayes_loglikes_ok s (b_state c) (b_action c)) as [ll Hll];
      [lia|].
    pose proof (map_result_length _ _ _ Hll) as Hl.
    unfold bayes_step.
    rewrite (bayes_update_eq s _ _ _ _ _ ll) by (auto; lra).
    cbv zeta. eexists. eexists. split; [reflexivity|].
    rewrite Hb1. apply pipeline_mass_bounds; try lia; lra.
  - intros s c [HN Hlen Hh HA Ht He Hal Hps Hb] Hact Hb1 f.
    unfold valid_action in Hact.
    destruct (crf_loglikes_ok s (fst c) (snd c)) as [ll Hll]; [lia|].
    pose proof (map_result_length _ _ _ Hll) as Hl.
    unfold crf_step.
    rewrite (crf_update_eq s _ _ ll) by (auto; lra).
    cbv zeta. eexists. eexists. split; [reflexivity|].
    rewrite Hb1. apply pipeline_mass_bounds; try lia; lra.
Qed.

Lemma belief_bounds_from_mixing_witness :
  (exists post s',
     bayes_step (default_bayes_call 0) twin_bayes = (Ok post, s') /\
     Forall (fun x => 0.010490 <= x <= 0.989510) post) /\
  (exists post s',
     crf_step (tt, 1%Z) twin_crf = (Ok post, s') /\
     Forall (fun x => 0.0149 <= x <= 0.9851) post).
Proof.
  destruct (@belief_bounds_from_mixing unit) as [HB HC].
  split.
  - destruct (HB twin_bayes (default_bayes_call 0)) as [post [s' [Hr Hb]]].
    + exact twin_bayes_wf.
    + apply default_bayes_call_ok. lia.
    + reflexivity.
    + exists post, s'. split; [exact Hr|].
      revert Hb. apply Forall_impl. intros x. simpl.
      unfold Bayesian.default_eps, Bayesian.default_p_switch. lra.
  - destruct (HC twin_crf (tt, 1%Z)) as [post [s' [Hr Hb]]].
    + exact twin_crf_wf.
    + unfold valid_action. simpl. lia.
    + reflexivity.
    + exists post, s'. split; [exact Hr|].
      revert Hb. apply Forall_impl. intros x. simpl.
      unfold CRF.default_eps, CRF.default_p_switch. lra.
Defined.

(** ** A prior of the wrong length *)

(** X16.  [BayesianPredictor.__init__] accepts a prior of any length; with
    at least two hypotheses, a prior whose length is neither 1 nor the number
    of hypotheses makes every [update] with an action index in [[-A, A)]
    raise [ValueError] (the shapes do not broadcast) and leave the object as
    constructed. *)
Theorem prior_length_mismatch_raises {S : Type} (pols : list (Policy S))
    (A : Z) (prior : vec) (tau0 eps0 : R) (state : S) (a : Z)
    (alpha p_switch beta : R) :
  (2 <= length pols)%nat ->
  length prior <> length pols ->
  length prior <> 1%nat ->
  tau0 <> 0 ->
  (- A <= a < A)%Z ->
  let s := Bayesian.init pols A (Some prior) tau0 eps0 in
  Bayesian.update state a alpha p_switch beta s = (Raise ValueError, s).
Proof.
  intros Hn Hne H1 _ Ha s.
  destruct (bayes_loglikes_ok s state a Ha) as [ll Hll].
  pose proof (map_result_length _ _ _ Hll) as Hl.
  change (Bayesian.policies s) with pols in Hl.
  unfold Bayesian.update, bind, read, liftR. cbv beta iota. rewrite Hll.
  cbv beta iota.
  assert (Hadd : np_add (scal (1 - alpha) (Bayesian.log_post s))
                   (scal alpha ll) = Raise ValueError).
  { unfold np_add, scal. rewrite !length_map.
    change (Bayesian.log_post s) with (np_log (vadd_s prior 1e-12)).
    unfold np_log, vadd_s. rewrite !length_map.
    destruct (Nat.eqb_spec (length prior) (length ll)) as [He|He]; [lia|].
    destruct prior as [|x [|x' prior]]; simpl in *; try lia;
      destruct ll as [|y [|y' ll]]; simpl in *; try lia; reflexivity. }
  rewrite Hadd. reflexivity.
Qed.

Lemma prior_length_mismatch_raises_witness :
  Bayesian.update tt 0%Z 0.05 0.02 1
    (Bayesian.init [hyp0; hyp1] 2 (Some [0.2; 0.3; 0.5]) 0.8 1e-3)
  = (Raise ValueError,
     Bayesian.init [hyp0; hyp1] 2 (Some [0.2; 0.3; 0.5]) 0.8 1e-3).
Proof.
  apply (prior_length_mismatch_raises [hyp0; hyp1] 2 [0.2; 0.3; 0.5] 0.8
           1e-3 tt 0%Z 0.05 0.02 1); simpl; try lia; lra.
Defined.

(** * The action selector *)

(** ** Facts on [np.argmax], [np.min], [np.max] *)

Lemma argmax_from_spec (v : vec) :
  forall (pre : vec) (best : R) (besti : nat),
    (besti < length pre)%nat ->
    nth besti pre 0 = best ->
    (forall j, (j < length pre)%nat -> nth j pre 0 <= best) ->
    (forall j, (j < besti)%nat -> nth j pre 0 < best) ->
    let k := argmax_from best besti (length pre) v in
    (k < length (pre ++ v))%nat /\
    (forall j, (j < length (pre ++ v))%nat ->
               nth j (pre ++ v) 0 <= nth k (pre ++ v) 0) /\
    (forall j, (j < k)%nat -> nth j (pre ++ v) 0 < nth k (pre ++ v) 0).
Proof.
  induction v as [|x v IH]; intros pre best besti Hbi Hb Hle Hlt; simpl.
  - rewrite app_nil_r. repeat split; auto.
    + intros j Hj. rewrite Hb. auto.
    + intros j Hj. rewrite Hb. auto.
  - assert (Hlen : length (pre ++ [x]) = Datatypes.S (length pre))
      by (rewrite length_app; simpl; lia).
    assert (Happ : pre ++ x :: v = (pre ++ [x]) ++ v)
      by (rewrite <- app_assoc; reflexivity).
    destruct (Rlt_dec best x) as [Hbx|Hbx].
    + specialize (IH (pre ++ [x]) x (length pre)).
      rewrite Hlen in IH. rewrite Happ. apply IH.
      * lia.
      * rewrite app_nth2 by lia. rewrite Nat.sub_diag. reflexivity.
      * intros j Hj. destruct (Nat.lt_ge_cases j (length pre)) as [Hj'|Hj'].
        -- rewrite app_nth1 by assumption. specialize (Hle j Hj'). lra.
        -- replace j with (length pre) by lia.
           rewrite app_nth2 by lia. rewrite Nat.sub_diag. simpl. lra.
      * intros j Hj. rewrite app_nth1 by assumption.
        specialize (Hle j Hj). lra.
    + specialize (IH (pre ++ [x]) best besti).
      rewrite Hlen in IH. rewrite Happ. apply IH.
      * lia.
      * rewrite app_nth1 by assumption. assumption.
      * intros j Hj. destruct (Nat.lt_ge_cases j (length pre)) as [Hj'|Hj'].
        -- rewrite app_nth1 by assumption. auto.
        -- replace j with (length pre) by lia.
           rewrite app_nth2 by lia. rewrite Nat.sub_diag. simpl. lra.
      * intros j Hj. rewrite app_nth1 by lia. auto.
Qed.

Lemma np_argmax_spec (v : vec) :
  v <> [] ->
  exists k, np_argmax v = Ok k /\ (k < length v)%nat /\
            (forall j, (j < length v)%nat -> nth j v 0 <= nth k v 0) /\
            (forall j, (j < k)%nat -> nth j v 0 < nth k v 0).
Proof.
  destruct v as [|x v]; [congruence|]. intros _.
  exists (argmax_from x 0 1 v). split; [reflexivity|].
  apply (argmax_from_spec v [x] x 0%nat); simpl; try lia; try reflexivity.
  intros j Hj. replace j with 0%nat by lia. simpl. lra.
Qed.

Lemma np_min_spec (v : vec) (m : R) :
  np_min v = Ok m -> In m v /\ forall x, In x v -> m <= x.
Proof.
  destruct v as [|y v]; [discriminate|]. simpl. intros H.
  injection H as <-. revert y.
  induction v as [|z v IH]; intros y; simpl.
  - split; [now left|]. intros x [->|[]]. lra.
  - destruct (IH y) as [Hin Hle].
    destruct (Rle_lt_dec z (fold_right Rmin y v)) as [Hz|Hz];
      [rewrite Rmin_left by lra|rewrite Rmin_right by lra].
    + split; [right; now left|].
      intros x [->|[->|Hx]]; [|lra|].
      * specialize (Hle x (or_introl eq_refl)). lra.
      * specialize (Hle x (or_intror Hx)). lra.
    + split.
      * destruct Hin as [Hin|Hin]; [now left|right; now right].
      * intros x [->|[->|Hx]]; [apply Hle; now left|lra|].
        apply Hle. now right.
Qed.

Lemma np_max_spec (v : vec) (m : R) :
  np_max v = Ok m -> In m v /\ forall x, In x v -> x <= m.
Proof.
  destruct v as [|y v]; [discriminate|]. simpl. intros H.
  injection H as <-. revert y.
  induction v as [|z v IH]; intros y; simpl.
  - split; [now left|]. intros x [->|[]]. lra.
  - destruct (IH y) as [Hin Hle].
    destruct (Rle_lt_dec z (fold_right Rmax y v)) as [Hz|Hz];
      [rewrite Rmax_right by lra|rewrite Rmax_left by lra].
    + split.
      * destruct Hin as [Hin|Hin]; [now left|right; now right].
      * intros x [->|[->|Hx]]; [apply Hle; now left|lra|].
        apply Hle. now right.
    + split; [right; now left|].
      intros x [->|[->|Hx]]; [|lra|].
      * specialize (Hle x (or_introl eq_refl)). lra.
      * specialize (Hle x (or_intror Hx)). lra.
Qed.

(** ** [SharedAutoPolicy]: the normalization *)

Lemma map_result_nth_error {A B} (f : A -> result B) (l : list A)
    (r : list B) (i : nat) (x : A) :
  map_result f l = Ok r -> nth_error l i = Some x ->
  exists y, f x = Ok y /\ nth_error r i = Some y.
Proof.
  revert r i. induction l as [|z l IH]; intros r i H Hi.
  - destruct i; discriminate.
  - simpl in H. destruct (f z) as [y|e] eqn:Hz; simpl in H; [|discriminate].
    destruct (map_result f l) as [ys|e] eqn:Hl; simpl in H; [|discriminate].
    injection H as <-. destruct i as [|i]; simpl in Hi.
    + injection Hi as <-. exists y. auto.
    + destruct (IH ys i eq_refl Hi) as [y' [Hy' Hn]]. exists y'. auto.
Qed.

Lemma nth_error_nth_map {A} (g : A -> R) (l : list A) (i : nat) (x : A) :
  nth_error l i = Some x -> nth i (map g l) 0 = g x.
Proof.
  revert i. induction l as [|z l IH]; intros [|i] H; simpl in *;
    try discriminate.
  - injection H as <-. reflexivity.
  - auto.
Qed.

Lemma shared_init_ranges {S} (pols : list (TablePolicy S)) (acts : list Z)
    (self : SharedAuto.t S) :
  SharedAuto.init pols acts = Ok self ->
  SharedAuto._policies self = pols /\
  SharedAuto._action_space self = acts /\
  length (SharedAuto.q_mins self) = length pols /\
  length (SharedAuto.q_maxs self) = length pols /\
  forall i p, nth_error pols i = Some p ->
    exists lo hi,
      np_min (q_table p) = Ok lo /\ np_max (q_table p) = Ok hi /\
      nth i (SharedAuto.q_mins self) 0 = lo /\
      nth i (SharedAuto.q_maxs self) 0 = hi.
Proof.
  unfold SharedAuto.init. intros H.
  destruct (map_result SharedAuto.table_range pols) as [ranges|e] eqn:Hr;
    simpl in H; [|discriminate].
  injection H as <-. simpl.
  pose proof (map_result_length _ _ _ Hr) as Hl.
  repeat split; try (rewrite length_map; assumption).
  intros i p Hi.
  destruct (map_result_nth_error _ _ _ i p Hr Hi) as [[lo hi] [Hp Hn]].
  unfold SharedAuto.table_range in Hp.
  destruct (np_min (q_table p)) as [lo'|e] eqn:Hmin; simpl in Hp;
    [|discriminate].
  destruct (np_max (q_table p)) as [hi'|e] eqn:Hmax; simpl in Hp;
    [|discriminate].
  injection Hp as -> ->.
  exists lo, hi. repeat split.
  - apply (nth_error_nth_map fst ranges i (lo, hi) Hn).
  - apply (nth_error_nth_map snd ranges i (lo, hi) Hn).
Qed.

Lemma shared_normalize_ok {S} (self : SharedAuto.t S) (q : R) (i : nat) :
  (i < length (SharedAuto.q_mins self))%nat ->
  (i < length (SharedAuto.q_maxs self))%nat ->
  SharedAuto.normalize_q_value self q (Z.of_nat i) =
  Ok (norm_at (nth i (SharedAuto.q_mins self) 0)
              (nth i (SharedAuto.q_maxs self) 0) q).
Proof.
  intros H1 H2. unfold SharedAuto.normalize_q_value, norm_at.
  rewrite !np_index_nonneg by lia. cbn [bindR]. rewrite Nat2Z.id.
  destruct (Req_dec_T _ _); reflexivity.
Qed.

Lemma norm_at_unit (lo hi q : R) : lo <= q <= hi -> 0 <= norm_at lo hi q <= 1.
Proof.
  intros Hq. unfold norm_at. destruct (Req_dec_T (hi - lo) 0); [lra|].
  assert (0 < hi - lo) by lra.
  split.
  - apply Rmult_le_pos; [lra|]. left. apply Rinv_0_lt_compat. assumption.
  - apply Rmult_le_reg_r with (r := hi - lo); [assumption|].
    unfold Rdiv. rewrite Rmult_assoc, Rinv_l by lra. lra.
Qed.


(** X17.  On a selector that [__init__] built, for a policy whose table
    holds entries of magnitude at most [1e300] (so that [q_max - q_min] is
    finite in float64), [normalize_q_value] maps every entry of the table
    into [[0, 1]]: the smallest entry to 0 and the largest to 1, or every
    value to 0.5 when all entries of the table are equal. *)
Theorem normalize_q_value_range {S : Type} (pols : list (TablePolicy S))
    (acts : list Z) (self : SharedAuto.t S) (i : nat) (p : TablePolicy S) :
  SharedAuto.init pols acts = Ok self ->
  nth_error pols i = Some p ->
  moderate_table (q_table p) ->
  exists lo hi,
    np_min (q_table p) = Ok lo /\ np_max (q_table p) = Ok hi /\
    (forall q, In q (q_table p) ->
       exists r, SharedAuto.normalize_q_value self q (Z.of_nat i) = Ok r /\
                 0 <= r <= 1) /\
    (lo < hi ->
       SharedAuto.normalize_q_value self lo (Z.of_nat i) = Ok 0 /\
       SharedAuto.normalize_q_value self hi (Z.of_nat i) = Ok 1) /\
    (lo = hi ->
       forall q, SharedAuto.normalize_q_value self q (Z.of_nat i) = Ok 0.5).
Proof.
  intros Hinit Hi _.
  destruct (shared_init_ranges pols acts self Hinit)
    as [_ [_ [Hlmin [Hlmax Hr]]]].
  destruct (Hr i p Hi) as [lo [hi [Hmin [Hmax [Hnlo Hnhi]]]]].
  assert (Hlt : (i < length pols)%nat)
    by (apply nth_error_Some; congruence).
  exists lo, hi. split; [assumption|]. split; [assumption|].
  destruct (np_min_spec _ _ Hmin) as [_ Hle].
  destruct (np_max_spec _ _ Hmax) as [_ Hge].
  assert (Hn : forall q, SharedAuto.normalize_q_value self q (Z.of_nat i)
                         = Ok (norm_at lo hi q)).
  { intros q. rewrite shared_normalize_ok by lia. rewrite Hnlo, Hnhi.
    reflexivity. }
  repeat split.
  - intros q Hq. exists (norm_at lo hi q). split; [apply Hn|].
    apply norm_at_unit. split; [apply Hle|apply Hge]; assumption.
  - rewrite Hn. f_equal. unfold norm_at.
    destruct (Req_dec_T (hi - lo) 0); [lra|]. field. lra.
  - rewrite Hn. f_equal. unfold norm_at.
    destruct (Req_dec_T (hi - lo) 0); [lra|]. field. lra.
  - intros Heq q. rewrite Hn. f_equal. unfold norm_at.
    destruct (Req_dec_T (hi - lo) 0); [reflexivity|lra].
Qed.

(** ** [SharedAutoPolicy]: the selection *)

Lemma nth_zip_with (f : R -> R -> R) (u v : vec) (j : nat) :
  (j < length u)%nat -> (j < length v)%nat ->
  nth j (zip_with f u v) 0 = f (nth j u 0) (nth j v 0).
Proof.
  revert v j. induction u as [|x u IH]; intros [|y v] [|j] Hu Hv;
    simpl in *; try lia; auto.
  apply IH; lia.
Qed.

Lemma weighted_rows_length (p : vec) (rows : list vec) (n : nat) :
  Forall (fun r => length r = n) rows ->
  length (weighted_rows p rows n) = n.
Proof.
  intros H. revert p. induction H as [|r rows Hr _ IH]; intros [|w p];
    simpl; try apply repeat_length.
  rewrite zip_with_length; unfold scal; rewrite length_map; [assumption|].
  rewrite IH. assumption.
Qed.

Lemma nth_repeat_0 (n j : nat) : nth j (repeat 0 n) 0 = 0.
Proof.
  revert j. induction n as [|n IH]; intros [|j]; simpl; auto.
Qed.

Lemma assign_row_ok (n : nat) (row : vec) :
  length row = n -> assign_row n row = Ok row.
Proof. intros H. unfold assign_row. rewrite H, Nat.eqb_refl. reflexivity. Qed.

Lemma fill_rows_ok {S} (self : SharedAuto.t S) (x : S) (acts : list Z)
    (pols : list (TablePolicy S)) :
  forall i,
    (i + length pols <= length (SharedAuto.q_mins self))%nat ->
    (i + length pols <= length (SharedAuto.q_maxs self))%nat ->
    (forall p, In p pols ->
       length (SharedAuto.raw_qs x acts p) = length acts) ->
    exists rows,
      SharedAuto.fill_rows self x acts i pols = Ok rows /\
      length rows = length pols /\
      Forall (fun r => length r = length acts) rows.
Proof.
  induction pols as [|p pols IH]; intros i Hmin Hmax Hraw; simpl.
  - exists []. auto.
  - simpl in Hmin, Hmax.
    rewrite (map_result_ok _
               (norm_at (nth i (SharedAuto.q_mins self) 0)
                        (nth i (SharedAuto.q_maxs self) 0)))
      by (intros q _; apply shared_normalize_ok; lia).
    cbn [bindR].
    rewrite assign_row_ok by (rewrite length_map; apply Hraw; now left).
    cbn [bindR].
    destruct (IH (Datatypes.S i)) as [rows [Hr [Hl Hall]]]; try lia.
    { intros q Hq. apply Hraw. now right. }
    rewrite Hr. cbn [bindR]. eexists. split; [reflexivity|].
    split; [simpl; lia|]. constructor; [|assumption].
    rewrite length_map. apply Hraw. now left.
Qed.

Lemma fill_rows_expected {S} (self : SharedAuto.t S) (x : S)
    (acts : list Z) (pols : list (TablePolicy S)) :
  forall i,
    (i + length pols <= length (SharedAuto.q_mins self))%nat ->
    (i + length pols <= length (SharedAuto.q_maxs self))%nat ->
    (forall p, In p pols -> get_q_values p = None) ->
    exists rows,
      SharedAuto.fill_rows self x acts i pols = Ok rows /\
      Forall (fun r => length r = length acts) rows /\
      forall prob j, (j < length acts)%nat ->
        nth j (weighted_rows prob rows (length acts)) 0 =
        expected_value self x (nth j acts 0%Z) i prob pols.
Proof.
  induction pols as [|p pols IH]; intros i Hmin Hmax Hnb; simpl.
  - exists []. split; [reflexivity|]. split; [constructor|].
    intros prob j Hj. destruct prob; simpl; apply nth_repeat_0.
  - simpl in Hmin, Hmax.
    assert (Hraw : SharedAuto.raw_qs x acts p
                   = map (fun a => get_q_value (policy_of p) x a) acts).
    { unfold SharedAuto.raw_qs. rewrite (Hnb p) by (now left). reflexivity. }
    rewrite Hraw.
    rewrite (map_result_ok _
               (norm_at (nth i (SharedAuto.q_mins self) 0)
                        (nth i (SharedAuto.q_maxs self) 0)))
      by (intros q _; apply shared_normalize_ok; lia).
    cbn [bindR].
    rewrite assign_row_ok by (now rewrite !length_map).
    cbn [bindR].
    destruct (IH (Datatypes.S i)) as [rows [Hr [Hall Hexp]]]; try lia.
    { intros q Hq. apply Hnb. now right. }
    rewrite Hr. cbn [bindR]. eexists. split; [reflexivity|].
    split; [constructor; [now rewrite !length_map|assumption]|].
    intros [|w prob] j Hj; simpl; [apply nth_repeat_0|].
    rewrite nth_zip_with
      by (unfold scal; rewrite ?length_map, ?weighted_rows_length; auto).
    rewrite Hexp by assumption.
    rewrite shared_normalize_ok by lia.
    f_equal. unfold scal. rewrite !map_map.
    rewrite (nth_indep _ 0
               ((fun a => w * norm_at (nth i (SharedAuto.q_mins self) 0)
                                      (nth i (SharedAuto.q_maxs self) 0)
                                      (get_q_value (policy_of p) x a)) 0%Z))
      by (rewrite length_map; assumption).
    rewrite (map_nth (fun a => w * norm_at _ _ (get_q_value (policy_of p) x a))).
    reflexivity.
Qed.

Lemma nth_vsub_s (v : vec) (c : R) (j : nat) :
  (j < length v)%nat -> nth j (vsub_s v c) 0 = nth j v 0 - c.
Proof.
  intros Hj. unfold vsub_s.
  rewrite (nth_indep _ 0 ((fun x => x - c) 0)) by (rewrite length_map; lia).
  apply (map_nth (fun x => x - c)).
Qed.

Lemma nth_error_of_lt (t : list Z) (k : nat) :
  (k < length t)%nat -> nth_error t k = Some (nth k t 0%Z).
Proof. intros H. apply nth_error_nth'. assumption. Qed.

Lemma softmax_by_logsumexp (e : vec) :
  e <> [] ->
  np_exp (vsub_s e (logsumexp e)) = renormalize e.
Proof.
  intros Hne. rewrite renormalize_softmax. unfold np_exp, vsub_s, logsumexp.
  rewrite map_map. apply map_ext. intros y.
  pose proof (exp_sum_pos e Hne) as Hs.
  unfold Rminus. rewrite exp_plus, exp_Ropp, exp_ln by assumption.
  reflexivity.
Qed.

(** What [get_action] computes when nothing raises. *)
Lemma get_action_core {S} (self : SharedAuto.t S) (x : S) (prob : vec)
    (rows : list vec) :
  SharedAuto.fill_rows self x (SharedAuto._action_space self) 0
    (SharedAuto._policies self) = Ok rows ->
  Forall (fun r => length r = length (SharedAuto._action_space self)) rows ->
  length prob = length rows ->
  SharedAuto._action_space self <> [] ->
  let n := length (SharedAuto._action_space self) in
  let e := weighted_rows prob rows n in
  exists k,
    (k < n)%nat /\
    SharedAuto.get_action self x prob
      = Ok (nth k (SharedAuto._action_space self) 0%Z) /\
    SharedAuto.get_action_dist self x prob
      = Ok (nth k (SharedAuto._action_space self) 0%Z, renormalize e) /\
    (forall j, (j < n)%nat -> nth j e 0 <= nth k e 0) /\
    (forall j, (j < k)%nat -> nth j e 0 < nth k e 0).
Proof.
  intros Hrows Hall Hlen Hne n e.
  assert (Hle : length e = n) by (apply weighted_rows_length; assumption).
  assert (Hn : (1 <= n)%nat).
  { unfold n. destruct (SharedAuto._action_space self);
      [congruence|simpl; lia]. }
  assert (Hene : e <> []) by (apply nonempty_length; lia).
  set (e' := vsub_s e (logsumexp e)).
  assert (Hle' : length e' = n) by (unfold e', vsub_s; now rewrite length_map).
  destruct (np_argmax_spec e') as [k [Hk [Hkn [Hmax Hfirst]]]];
    [apply nonempty_length; lia|].
  exists k. split; [lia|].
  assert (Hexp : SharedAuto.expected_q self x prob = Ok e').
  { unfold SharedAuto.expected_q. rewrite Hrows. cbn [bindR].
    unfold np_dot. rewrite Hlen, Nat.eqb_refl. reflexivity. }
  assert (Hidx : tuple_index (SharedAuto._action_space self) k
                 = Ok (nth k (SharedAuto._action_space self) 0%Z)).
  { unfold tuple_index. rewrite nth_error_of_lt by (fold n; lia).
    reflexivity. }
  repeat split.
  - unfold SharedAuto.get_action. rewrite Hexp. cbn [bindR].
    rewrite Hk. cbn [bindR]. exact Hidx.
  - unfold SharedAuto.get_action_dist. rewrite Hexp. cbn [bindR].
    rewrite Hk. cbn [bindR]. rewrite Hidx. cbn [bindR].
    unfold e'. rewrite softmax_by_logsumexp by assumption. reflexivity.
  - intros j Hj. specialize (Hmax j ltac:(lia)).
    unfold e' in Hmax. rewrite !nth_vsub_s in Hmax by lia. lra.
  - intros j Hj. specialize (Hfirst j Hj).
    unfold e' in Hfirst. rewrite !nth_vsub_s in Hfirst by lia. lra.
Qed.

Lemma selector_maximizes {S : Type}
    (pols : list (TablePolicy S)) (acts : list Z) (self : SharedAuto.t S)
    (x : S) (prob : vec) :
  SharedAuto.init pols acts = Ok self ->
  (forall p, In p pols -> get_q_values p = None) ->
  length prob = length pols ->
  acts <> [] ->
  exists k a,
    SharedAuto.get_action self x prob = Ok a /\
    nth_error acts k = Some a /\
    (forall b, In b acts ->
       expected_value self x b 0 prob pols
       <= expected_value self x a 0 prob pols) /\
    (forall j b, (j < k)%nat -> nth_error acts j = Some b ->
       expected_value self x b 0 prob pols
       < expected_value self x a 0 prob pols).
Proof.
  intros Hinit Hnb Hlen Hne.
  destruct (shared_init_ranges pols acts self Hinit)
    as [Hp [Ha [Hlmin [Hlmax _]]]].
  destruct (fill_rows_expected self x acts pols 0) as [rows [Hr [Hall Hexp]]];
    try lia; auto.
  destruct (fill_rows_ok self x acts pols 0) as [rows' [Hr' [Hl' _]]];
    try lia.
  { intros p Hin. unfold SharedAuto.raw_qs. rewrite (Hnb p Hin).
    now rewrite length_map. }
  rewrite Hr in Hr'. injection Hr' as <-.
  destruct (get_action_core self x prob rows) as [k [Hk [Hga [_ [Hmax Hfirst]]]]];
    rewrite ?Hp, ?Ha; auto; try lia.
  rewrite Ha in *.
  exists k, (nth k acts 0%Z). split; [exact Hga|].
  split; [apply nth_error_of_lt; assumption|]. split.
  - intros b Hb. destruct (In_nth acts b 0%Z Hb) as [j [Hj <-]].
    rewrite <- !Hexp by assumption. apply Hmax. assumption.
  - intros j b Hj Hb.
    assert (Hjn : (j < length acts)%nat) by lia.
    rewrite (nth_error_of_lt acts j Hjn) in Hb. injection Hb as <-.
    rewrite <- !Hexp by assumption. apply Hfirst. assumption.
Qed.

(** When one action scores above every other, [get_action] returns it. *)
Lemma selector_margin {S : Type}
    (pols : list (TablePolicy S)) (acts : list Z) (self : SharedAuto.t S)
    (x : S) (prob : vec) (a : Z) :
  SharedAuto.init pols acts = Ok self ->
  (forall p, In p pols -> get_q_values p = None) ->
  length prob = length pols ->
  In a acts ->
  (forall b, In b acts -> b <> a ->
     expected_value self x b 0 prob pols
     < expected_value self x a 0 prob pols) ->
  SharedAuto.get_action self x prob = Ok a.
Proof.
  intros Hinit Hnb Hlen Ha Hm.
  destruct (selector_maximizes pols acts self x prob Hinit Hnb Hlen)
    as [k [a' [Hga [Hk [Hbest _]]]]].
  { intros ->. contradiction. }
  destruct (Z.eq_dec a' a) as [->|Hne]; [exact Hga|].
  exfalso. pose proof (Hbest a Ha) as H1.
  pose proof (Hm a' (nth_error_In _ _ Hk) Hne) as H2. lra.
Qed.

(** X18.  The selector returns the action with the highest belief-weighted
    normalized value when that action is clearly the best.  On a selector
    that [__init__] built, over policies without [get_q_values] whose values
    are entries of their tables (of magnitude at most [1e300]), for a belief
    that is a probability vector with one weight per policy: an action whose
    sum over the policies of belief times normalized value exceeds that of
    every other action by at least [1e-6] is the action [get_action]
    returns. *)
Theorem get_action_returns_clear_best {S : Type}
    (pols : list (TablePolicy S)) (acts : list Z) (self : SharedAuto.t S)
    (x : S) (prob : vec) (a : Z) :
  SharedAuto.init pols acts = Ok self ->
  (forall p, In p pols -> get_q_values p = None) ->
  (forall p, In p pols -> moderate_table (q_table p)) ->
  values_in_tables pols acts x ->
  probability_vector prob ->
  length prob = length pols ->
  In a acts ->
  (forall b, In b acts -> b <> a ->
     expected_value self x b 0 prob pols + 1e-6
     <= expected_value self x a 0 prob pols) ->
  SharedAuto.get_action self x prob = Ok a.
Proof.
  intros Hinit Hnb _ _ _ Hlen Ha Hm.
  apply (selector_margin pols acts); auto.
  intros b Hb Hne. specialize (Hm b Hb Hne). lra.
Qed.

(** X19.  With [return_dist=True] the selector returns, beside the same
    action as without the flag, a probability distribution over the actions:
    positive entries that sum to 1, one per action, the softmax of the
    belief-weighted values, and the returned action has the largest
    probability. *)
Theorem get_action_dist_is_distribution {S : Type}
    (pols : list (TablePolicy S)) (acts : list Z) (self : SharedAuto.t S)
    (x : S) (prob : vec) :
  SharedAuto.init pols acts = Ok self ->
  (forall p, In p pols -> length (SharedAuto.raw_qs x acts p) = length acts)
  ->
  length prob = length pols ->
  acts <> [] ->
  exists k a dist,
    SharedAuto.get_action_dist self x prob = Ok (a, dist) /\
    SharedAuto.get_action self x prob = Ok a /\
    nth_error acts k = Some a /\
    simplex dist /\ length dist = length acts /\
    (forall j, nth j dist 0 <= nth k dist 0).
Proof.
  intros Hinit Hraw Hlen Hne.
  destruct (shared_init_ranges pols acts self Hinit)
    as [Hp [Ha [Hlmin [Hlmax _]]]].
  destruct (fill_rows_ok self x acts pols 0) as [rows [Hr [Hl Hall]]];
    try lia; auto.
  destruct (get_action_core self x prob rows) as [k [Hk [Hga [Hgd [Hmax _]]]]];
    rewrite ?Hp, ?Ha; auto; try lia.
  rewrite Ha in *.
  set (e := weighted_rows prob rows (length acts)) in *.
  assert (Hle : length e = length acts)
    by (apply weighted_rows_length; assumption).
  assert (Hene : e <> []).
  { apply nonempty_length. rewrite Hle.
    destruct acts; [congruence|simpl; lia]. }
  exists k, (nth k acts 0%Z), (renormalize e).
  split; [exact Hgd|]. split; [exact Hga|].
  split; [apply nth_error_of_lt; assumption|].
  split; [apply renormalize_simplex; assumption|].
  split; [rewrite renormalize_length; assumption|].
  intros j. destruct (Nat.lt_ge_cases j (length acts)) as [Hj|Hj].
  - rewrite !softmax_nth by lia.
    pose proof (exp_sum_pos e Hene) as Hs.
    apply div_le_same; [assumption|].
    specialize (Hmax j Hj).
    destruct Hmax as [Hlt| ->]; [left; apply exp_increasing; exact Hlt|lra].
  - rewrite (nth_overflow (renormalize e)) by (rewrite renormalize_length; lia).
    rewrite softmax_nth by lia.
    left. apply Rdiv_lt_0_compat; [apply exp_pos|apply exp_sum_pos; assumption].
Qed.

(** X20.  A belief whose length is not the number of policies makes
    [get_action] raise [ValueError] (at [np.dot]), with or without
    [return_dist]. *)
Theorem get_action_wrong_belief_length {S : Type}
    (pols : list (TablePolicy S)) (acts : list Z) (self : SharedAuto.t S)
    (x : S) (prob : vec) :
  SharedAuto.init pols acts = Ok self ->
  (forall p, In p pols -> length (SharedAuto.raw_qs x acts p) = length acts)
  ->
  length prob <> length pols ->
  SharedAuto.get_action self x prob = Raise ValueError /\
  SharedAuto.get_action_dist self x prob = Raise ValueError.
Proof.
  intros Hinit Hraw Hlen.
  destruct (shared_init_ranges pols acts self Hinit)
    as [Hp [Ha [Hlmin [Hlmax _]]]].
  destruct (fill_rows_ok self x acts pols 0) as [rows [Hr [Hl Hall]]];
    try lia; auto.
  assert (Hexp : SharedAuto.expected_q self x prob = Raise ValueError).
  { unfold SharedAuto.expected_q. rewrite Hp, Ha, Hr. cbn [bindR].
    unfold np_dot. destruct (Nat.eqb_spec (length prob) (length rows));
      [lia|reflexivity]. }
  unfold SharedAuto.get_action, SharedAuto.get_action_dist.
  rewrite Hexp. split; reflexivity.
Qed.

(** X21.  [__init__] raises [ValueError] exactly when some policy has an
    empty [q_table] (the minimum of an empty array); otherwise it records one
    minimum and one maximum per policy. *)
Theorem shared_init_empty_table {S : Type} (pols : list (TablePolicy S))
    (acts : list Z) :
  ((exists p, In p pols /\ q_table p = []) ->
   SharedAuto.init pols acts = Raise ValueError) /\
  ((forall p, In p pols -> q_table p <> []) ->
   exists self,
     SharedAuto.init pols acts = Ok self /\
     length (SharedAuto.q_mins self) = length pols /\
     length (SharedAuto.q_maxs self) = length pols).
Proof.
  split.
  - intros [p [Hin Hemp]]. unfold SharedAuto.init.
    assert (H : map_result (@SharedAuto.table_range S) pols
                = Raise ValueError).
    { induction pols as [|q pols IH]; [contradiction|]. simpl.
      unfold SharedAuto.table_range at 1.
      destruct (q_table q) as [|y t] eqn:Hq; [reflexivity|].
      cbn [np_min np_max bindR].
      destruct Hin as [->|Hin]; [congruence|].
      rewrite IH by assumption. reflexivity. }
    rewrite H. reflexivity.
  - intros Hall.
    destruct (map_result_total (@SharedAuto.table_range S) pols)
      as [ranges Hr].
    { intros p Hin. unfold SharedAuto.table_range.
      specialize (Hall p Hin). destruct (q_table p); [congruence|].
      eexists. reflexivity. }
    unfold SharedAuto.init. rewrite Hr. cbn [bindR].
    eexists. split; [reflexivity|]. simpl.
    pose proof (map_result_length _ _ _ Hr). rewrite !length_map. auto.
Qed.

Lemma expected_value_one_hot {S} (self : SharedAuto.t S) (x : S) (a : Z)
    (i : nat) (pols : list (TablePolicy S)) :
  forall off,
    expected_value self x a off
      (map (fun j => if Nat.eqb j i then 1 else 0) (seq off (length pols)))
      pols =
    match nth_error pols (i - off) with
    | Some p =>
        if Nat.leb off i then
          match SharedAuto.normalize_q_value self
                  (get_q_value (policy_of p) x a) (Z.of_nat i) with
          | Ok r => r
          | Raise _ => 0
          end
        else 0
    | None => 0
    end.
Proof.
  induction pols as [|p pols IH]; intros off;
    cbn [length seq map expected_value].
  - destruct (i - off)%nat; reflexivity.
  - rewrite IH. destruct (Nat.eqb_spec off i) as [->|Hne].
    + rewrite Nat.sub_diag. cbn [nth_error]. rewrite Nat.leb_refl.
      assert (Hf : Nat.leb (Datatypes.S i) i = false)
        by (apply Nat.leb_gt; lia).
      rewrite Hf. destruct (nth_error pols (i - Datatypes.S i)); lra.
    + destruct (Nat.le_gt_cases off i) as [Hle|Hgt].
      * assert (Hs : (i - off)%nat = Datatypes.S (i - Datatypes.S off))
          by lia.
        rewrite Hs. cbn [nth_error].
        assert (Ht1 : Nat.leb off i = true) by (apply Nat.leb_le; lia).
        assert (Ht2 : Nat.leb (Datatypes.S off) i = true)
          by (apply Nat.leb_le; lia).
        rewrite Ht1, Ht2. lra.
      * assert (Hf1 : Nat.leb off i = false) by (apply Nat.leb_gt; lia).
        assert (Hf2 : Nat.leb (Datatypes.S off) i = false)
          by (apply Nat.leb_gt; lia).
        rewrite Hf1, Hf2.
        destruct (nth_error pols (i - Datatypes.S off));
          destruct (nth_error (p :: pols) (i - off)); lra.
Qed.


(** X22.  A belief that is certain of one hypothesis makes the selector
    follow that policy: with all weight on policy [i], whose table is not
    constant, an action that policy [i] values above every other action by
    at least [1e-6] of the range of its table is the action [get_action]
    returns (the values of the policies being entries of their tables, of
    magnitude at most [1e300]). *)
Theorem get_action_one_hot_is_greedy {S : Type}
    (pols : list (TablePolicy S)) (acts : list Z) (self : SharedAuto.t S)
    (x : S) (i : nat) (p : TablePolicy S) (lo hi : R) (a : Z) :
  SharedAuto.init pols acts = Ok self ->
  (forall q, In q pols -> get_q_values q = None) ->
  (forall q, In q pols -> moderate_table (q_table q)) ->
  values_in_tables pols acts x ->
  nth_error pols i = Some p ->
  np_min (q_table p) = Ok lo -> np_max (q_table p) = Ok hi -> lo < hi ->
  In a acts ->
  (forall b, In b acts -> b <> a ->
     get_q_value (policy_of p) x b + 1e-6 * (hi - lo)
     <= get_q_value (policy_of p) x a) ->
  SharedAuto.get_action self x (one_hot i (length pols)) = Ok a.
Proof.
  intros Hinit Hnb _ _ Hi Hmin Hmax Hlt Ha Hm.
  apply (selector_margin pols acts); auto.
  { unfold one_hot. now rewrite length_map, length_seq. }
  intros b Hb Hne. specialize (Hm b Hb Hne).
  unfold one_hot. rewrite !expected_value_one_hot.
  rewrite Nat.sub_0_r, Hi. simpl.
  destruct (shared_init_ranges pols acts self Hinit)
    as [_ [_ [Hlmin [Hlmax Hr]]]].
  destruct (Hr i p Hi) as [lo' [hi' [Hmin' [Hmax' [Hnlo Hnhi]]]]].
  assert (Hil : (i < length pols)%nat) by (apply nth_error_Some; congruence).
  rewrite !shared_normalize_ok by lia.
  assert (Hlo : nth i (SharedAuto.q_mins self) 0 = lo) by congruence.
  assert (Hhi : nth i (SharedAuto.q_maxs self) 0 = hi) by congruence.
  rewrite Hlo, Hhi. unfold norm_at.
  destruct (Req_dec_T (hi - lo) 0); [lra|].
  assert (Hpos : 0 < / (hi - lo)) by (apply Rinv_0_lt_compat; lra).
  unfold Rdiv. apply Rmult_lt_compat_r; [assumption|]. nra.
Qed.

(** *** Witnesses on a concrete selector *)

Lemma two_tables_init :
  SharedAuto.init [table0; table1] [0%Z; 1%Z] = Ok two_tables.
Proof.
  unfold SharedAuto.init, SharedAuto.table_range, two_tables. simpl.
  rewrite (Rmin_left 0 1), (Rmax_right 0 1), (Rmin_right 1 0),
    (Rmax_left 1 0) by lra.
  reflexivity.
Qed.

Lemma two_tables_normalize (q : R) (i : Z) :
  (i = 0 \/ i = 1)%Z ->
  SharedAuto.normalize_q_value two_tables q i = Ok q.
Proof.
  intros [->| ->]; unfold SharedAuto.normalize_q_value; simpl;
    (destruct (Req_dec_T (1 - 0) 0); [lra|]); f_equal; field.
Qed.

Lemma two_tables_moderate :
  forall p, In p [table0; table1] -> moderate_table (q_table p).
Proof.
  intros p [<-|[<-|[]]]; repeat constructor;
    rewrite Rabs_pos_eq; lra.
Qed.

Lemma two_tables_values : values_in_tables [table0; table1] [0%Z; 1%Z] tt.
Proof.
  intros p b [<-|[<-|[]]] [<-|[<-|[]]]; simpl; auto.
Qed.

Lemma normalize_q_value_range_witness :
  exists lo hi,
    np_min [0; 1] = Ok lo /\ np_max [0; 1] = Ok hi /\
    (forall q, In q [0; 1] ->
       exists r, SharedAuto.normalize_q_value two_tables q 1 = Ok r /\
                 0 <= r <= 1).
Proof.
  destruct (normalize_q_value_range [table0; table1] [0%Z; 1%Z] two_tables 1
              table1 two_tables_init eq_refl)
    as [lo [hi [Hmin [Hmax [Hin _]]]]].
  - apply two_tables_moderate. right. now left.
  - exists lo, hi. split; [exact Hmin|]. split; [exact Hmax|exact Hin].
Defined.

Lemma get_action_returns_clear_best_witness :
  SharedAuto.get_action two_tables tt [0.7; 0.3] = Ok 0%Z.
Proof.
  apply (get_action_returns_clear_best [table0; table1] [0%Z; 1%Z]).
  - exact two_tables_init.
  - intros p [<-|[<-|[]]]; reflexivity.
  - exact two_tables_moderate.
  - exact two_tables_values.
  - split; [repeat constructor; lra|simpl; apply Rabs_le; lra].
  - reflexivity.
  - now left.
  - intros b [<-|[<-|[]]] Hne; [congruence|].
    cbn [expected_value]. rewrite !two_tables_normalize by (simpl; lia).
    simpl. lra.
Defined.

Lemma get_action_dist_is_distribution_witness :
  exists self k a dist,
    SharedAuto.init [table0; table1] [0%Z; 1%Z] = Ok self /\
    SharedAuto.get_action_dist self tt [0.7; 0.3] = Ok (a, dist) /\
    SharedAuto.get_action self tt [0.7; 0.3] = Ok a /\
    nth_error [0%Z; 1%Z] k = Some a /\
    simplex dist /\ length dist = 2%nat /\
    (forall j, nth j dist 0 <= nth k dist 0).
Proof.
  eexists.
  destruct (get_action_dist_is_distribution [table0; table1]
              [0%Z; 1%Z] _ tt [0.7; 0.3] eq_refl)
    as [k [a [dist H]]].
  - intros p [<-|[<-|[]]]; reflexivity.
  - reflexivity.
  - discriminate.
  - exists k, a, dist. split; [reflexivity|]. exact H.
Defined.

Lemma get_action_wrong_belief_length_witness :
  exists self,
    SharedAuto.init [table0; table1] [0%Z; 1%Z] = Ok self /\
    SharedAuto.get_action self tt [1] = Raise ValueError /\
    SharedAuto.get_action_dist self tt [1] = Raise ValueError.
Proof.
  eexists. split; [reflexivity|].
  apply (get_action_wrong_belief_length [table0; table1] [0%Z; 1%Z] _ tt [1]
           eq_refl).
  - intros p [<-|[<-|[]]]; reflexivity.
  - simpl. lia.
Defined.

Lemma shared_init_empty_table_witness :
  SharedAuto.init
    [table0; {| policy_of := hyp1; q_table := []; get_q_values := None |}]
    [0%Z; 1%Z] = Raise ValueError /\
  exists self,
    SharedAuto.init [table0; table1] [0%Z; 1%Z] = Ok self /\
    length (SharedAuto.q_mins self) = 2%nat /\
    length (SharedAuto.q_maxs self) = 2%nat.
Proof.
  split.
  - apply shared_init_empty_table. eexists. split; [right; left; reflexivity|].
    reflexivity.
  - apply (proj2 (shared_init_empty_table [table0; table1] [0%Z; 1%Z])).
    intros p [<-|[<-|[]]]; discriminate.
Defined.


Lemma get_action_one_hot_is_greedy_witness :
  SharedAuto.get_action two_tables tt (one_hot 1 2) = Ok 1%Z.
Proof.
  apply (get_action_one_hot_is_greedy [table0; table1] [0%Z; 1%Z] two_tables
           tt 1 table1 (Rmin 1 0) (Rmax 1 0)).
  - exact two_tables_init.
  - intros p [<-|[<-|[]]]; reflexivity.
  - exact two_tables_moderate.
  - exact two_tables_values.
  - reflexivity.
  - reflexivity.
  - reflexivity.
  - rewrite Rmin_right, Rmax_left by lra. lra.
  - right. now left.
  - intros b [<-|[<-|[]]] Hne; [|congruence].
    rewrite Rmin_right, Rmax_left by lra. simpl. lra.
Defined.

(** * The selection menu *)

(** ** The menu: boxes, clicks and keys *)

Lemma in_box_iff (i : nat) (x y : Z) :
  in_box i x y = true <->
  (50 < x < 350 /\ 55 + 50 * Z.of_nat i < y < 95 + 50 * Z.of_nat i)%Z.
Proof.
  unfold in_box. rewrite !andb_true_iff, !Z.ltb_lt. lia.
Qed.

Lemma in_box_disjoint (i j : nat) (x y : Z) :
  in_box i x y = true -> in_box j x y = true -> i = j.
Proof. rewrite !in_box_iff. lia. Qed.

Lemma clicked_index_iff (n : nat) (x y : Z) (i : nat) :
  clicked_index n x y = Some i <-> (i < n)%nat /\ in_box i x y = true.
Proof.
  unfold clicked_index. split.
  - intros H. apply find_some in H. destruct H as [Hin Hb].
    apply in_seq in Hin. split; [lia|assumption].
  - intros [Hi Hb].
    destruct (find (fun k => in_box k x y) (seq 0 n)) as [j|] eqn:Hf.
    + apply find_some in Hf. destruct Hf as [_ Hj].
      f_equal. eapply in_box_disjoint; eauto.
    + exfalso. pose proof (find_none _ _ Hf i) as Hn.
      rewrite Hn in Hb; [discriminate|]. apply in_seq. lia.
Qed.

Lemma hover_scan_keeps (x y : Z) (i : nat) (l : list nat) :
  (forall j, In j l -> in_box j x y = true -> j = i) ->
  fold_left (fun acc k => if in_box k x y then Some k else acc) l (Some i)
  = Some i.
Proof.
  induction l as [|a l IH]; intros H; simpl; [reflexivity|].
  destruct (in_box a x y) eqn:Ha.
  - rewrite (H a) by (auto; now left). apply IH. intros j Hj. apply H.
    now right.
  - apply IH. intros j Hj. apply H. now right.
Qed.

Lemma hover_scan_sound (x y : Z) (l : list nat) :
  forall acc i,
    fold_left (fun acc k => if in_box k x y then Some k else acc) l acc
    = Some i ->
    acc = Some i \/ (In i l /\ in_box i x y = true).
Proof.
  induction l as [|a l IH]; intros acc i H; simpl in H; [now left|].
  apply IH in H. destruct H as [H|[Hin Hb]].
  - destruct (in_box a x y) eqn:Ha.
    + injection H as <-. right. split; [now left|assumption].
    + now left.
  - right. split; [now right|assumption].
Qed.

Lemma hover_scan_complete (x y : Z) (i : nat) (l : list nat) :
  forall acc,
    In i l -> in_box i x y = true ->
    fold_left (fun acc k => if in_box k x y then Some k else acc) l acc
    = Some i.
Proof.
  induction l as [|a l IH]; intros acc Hin Hb; [contradiction|]. simpl.
  destruct Hin as [->|Hin].
  - rewrite Hb. apply hover_scan_keeps.
    intros j _ Hj. eapply in_box_disjoint; eauto.
  - apply IH; assumption.
Qed.

Lemma hover_index_iff (n : nat) (x y : Z) (i : nat) :
  hover_index n x y = Some i <-> (i < n)%nat /\ in_box i x y = true.
Proof.
  unfold hover_index. split.
  - intros H. apply hover_scan_sound in H.
    destruct H as [H|[Hin Hb]]; [discriminate|].
    apply in_seq in Hin. split; [lia|assumption].
  - intros [Hi Hb]. apply hover_scan_complete; [|assumption].
    apply in_seq. lia.
Qed.

(** X23.  The boxes of the options do not overlap, so at most one option
    is under a point: the option the hover loop highlights (the last match)
    is the option a click at the same point selects (the first match), and
    it is the option [i] exactly when the point lies in
    [50 < x < 350], [55 + 50 i < y < 95 + 50 i]. *)
Theorem hover_is_what_a_click_selects (n : nat) (x y : Z) :
  hover_index n x y = clicked_index n x y /\
  (forall i, clicked_index n x y = Some i <->
             ((i < n)%nat /\
              (50 < x < 350 /\
               55 + 50 * Z.of_nat i < y < 95 + 50 * Z.of_nat i)%Z)) /\
  (forall i j, in_box i x y = true -> in_box j x y = true -> i = j).
Proof.
  split; [|split].
  - destruct (clicked_index n x y) as [i|] eqn:Hc.
    + apply (proj2 (hover_index_iff n x y i)).
      apply (proj1 (clicked_index_iff n x y i)). assumption.
    + destruct (hover_index n x y) as [j|] eqn:Hh; [|reflexivity].
      apply (proj1 (hover_index_iff n x y j)) in Hh.
      apply (proj2 (clicked_index_iff n x y j)) in Hh. congruence.
  - intros i. rewrite clicked_index_iff, in_box_iff. tauto.
  - intros i j. apply in_box_disjoint.
Qed.

Lemma handle_events_inert (options : list menu_option) (pre rest : list ui_event)
    (running : bool) :
  forallb (inert (length options)) pre = true ->
  handle_events options (pre ++ rest) running
  = handle_events options rest running.
Proof.
  revert running. induction pre as [|e pre IH]; intros running H;
    [reflexivity|].
  simpl in H. apply andb_true_iff in H. destruct H as [He Hpre].
  destruct e as [|x y|k|]; simpl in *; try discriminate.
  - destruct (clicked_index (length options) x y); [discriminate|]. auto.
  - destruct k; [discriminate|]. auto.
  - auto.
Qed.

Lemma handle_events_passes (options : list menu_option)
    (pre rest : list ui_event) (running : bool) :
  forallb (passes (length options)) pre = true ->
  exists running',
    handle_events options (pre ++ rest) running
    = handle_events options rest running'.
Proof.
  revert running. induction pre as [|e pre IH]; intros running H;
    [exists running; reflexivity|].
  simpl in H. apply andb_true_iff in H. destruct H as [He Hpre].
  destruct e as [|x y|k|]; simpl in *.
  - apply IH. assumption.
  - destruct (clicked_index (length options) x y); [discriminate|]. auto.
  - destruct k; [discriminate|]. auto.
  - auto.
Qed.

Lemma selector_get_quiet (options : list menu_option)
    (quiet rest : list frame) :
  draw_options options = Ok tt ->
  Forall (fun f => forallb (inert (length options)) (queued f) = true) quiet
  ->
  selector_get options (quiet ++ rest) = selector_get options rest.
Proof.
  intros Hdraw Hq. induction Hq as [|f quiet Hf _ IH]; [reflexivity|].
  simpl. rewrite Hdraw.
  rewrite <- (app_nil_r (queued f)).
  rewrite handle_events_inert by assumption. simpl. exact IH.
Qed.

Lemma draw_options_cases (options : list menu_option) :
  (Forall (fun o => exists v, o = EnumOption v) options /\
   draw_options options = Ok tt) \/
  ((exists s, In (StrOption s) options) /\
   draw_options options = Raise AttributeError).
Proof.
  unfold draw_options. induction options as [|o options IH].
  - left. split; [constructor|reflexivity].
  - simpl. destruct o as [s|v]; simpl.
    + right. split; [exists s; now left|reflexivity].
    + destruct IH as [[Hall Hd]|[[s Hin] Hd]].
      * left. split; [constructor; eauto|].
        destruct (map_result option_value options); [reflexivity|].
        discriminate.
      * right. split; [exists s; now right|].
        destruct (map_result option_value options); [discriminate|].
        simpl in *. exact Hd.
Qed.

(** X24.  A click inside the box of option [i] makes [get] return option
    [i], when every option has a [value] to draw: whatever ineffective events
    came in earlier passes of the loop, and whatever events that do not end
    [get] came earlier in the same pass, a [QUIT] among them included. *)
Theorem get_returns_the_clicked_option (options : list menu_option)
    (quiet rest : list frame) (f : frame) (pre post : list ui_event)
    (x y : Z) (i : nat) :
  Forall (fun o => exists v, o = EnumOption v) options ->
  Forall (fun fr => forallb (inert (length options)) (queued fr) = true)
         quiet ->
  queued f = pre ++ MOUSEBUTTONDOWN x y :: post ->
  forallb (passes (length options)) pre = true ->
  (i < length options)%nat ->
  in_box i x y = true ->
  selector_get options (quiet ++ f :: rest)
  = Returned (nth i options (StrOption String.EmptyString)) /\
  In (nth i options (StrOption String.EmptyString)) options.
Proof.
  intros Hopts Hq Hf Hpre Hi Hb.
  assert (Hdraw : draw_options options = Ok tt).
  { destruct (draw_options_cases options) as [[_ H]|[[s Hin] _]];
      [assumption|].
    exfalso. pose proof (proj1 (Forall_forall _ _) Hopts _ Hin) as [v Hv].
    discriminate. }
  split; [|apply nth_In; assumption].
  rewrite selector_get_quiet by assumption.
  simpl. rewrite Hdraw, Hf.
  destruct (handle_events_passes options pre (MOUSEBUTTONDOWN x y :: post)
              true Hpre) as [b ->].
  simpl.
  rewrite (proj2 (clicked_index_iff (length options) x y i) (conj Hi Hb)).
  reflexivity.
Qed.

(** X25.  The Return key never confirms a selection: when a [KEYDOWN] of
    [K_RETURN] is handled, [get] raises [UnboundLocalError], because
    [selected_index] is a local variable that no earlier statement of the
    call has assigned. *)
Theorem return_key_raises (options : list menu_option)
    (quiet rest : list frame) (f : frame) (pre post : list ui_event) :
  Forall (fun o => exists v, o = EnumOption v) options ->
  Forall (fun fr => forallb (inert (length options)) (queued fr) = true)
         quiet ->
  queued f = pre ++ KEYDOWN true :: post ->
  forallb (passes (length options)) pre = true ->
  selector_get options (quiet ++ f :: rest) = RaisedUnboundLocalError.
Proof.
  intros Hopts Hq Hf Hpre.
  assert (Hdraw : draw_options options = Ok tt).
  { destruct (draw_options_cases options) as [[_ H]|[[s Hin] _]];
      [assumption|].
    exfalso. pose proof (proj1 (Forall_forall _ _) Hopts _ Hin) as [v Hv].
    discriminate. }
  rewrite selector_get_quiet by assumption.
  simpl. rewrite Hdraw, Hf.
  destruct (handle_events_passes options pre (KEYDOWN true :: post)
              true Hpre) as [b ->].
  reflexivity.
Qed.

Lemma handle_events_result (options : list menu_option)
    (events : list ui_event) :
  forall running,
    match handle_events options events running with
    | inl (Returned o) => In o options
    | inl RaisedUnboundLocalError => In (KEYDOWN true) events
    | inl _ => False
    | inr b => b = false -> running = false \/ In QUIT events
    end.
Proof.
  induction events as [|e events IH]; intros running; simpl.
  - intros H. now left.
  - destruct e as [|x y|k|].
    + specialize (IH false).
      destruct (handle_events options events false) as [[o| | | |]|b];
        auto.
    + destruct (clicked_index (length options) x y) as [i|] eqn:Hc.
      * apply clicked_index_iff in Hc. apply nth_In. tauto.
      * specialize (IH running).
        destruct (handle_events options events running) as [[o| | | |]|b];
          auto.
        intros Hb. destruct (IH Hb); auto.
    + destruct k; [now left|].
      specialize (IH running).
      destruct (handle_events options events running) as [[o| | | |]|b];
        auto.
      intros Hb. destruct (IH Hb); auto.
    + specialize (IH running).
      destruct (handle_events options events running) as [[o| | | |]|b];
        auto.
      intros Hb. destruct (IH Hb); auto.
Qed.

(** X26.  How [get] can end.  A value it returns is one of the configured
    options; it leaves through [sys.exit()] only after a [QUIT] event; it
    raises [UnboundLocalError] only on a [K_RETURN] key; it raises
    [AttributeError] only when an option is a string, which has no
    [value]. *)
Theorem get_outcomes (options : list menu_option) (frames : list frame) :
  match selector_get options frames with
  | Returned o => In o options
  | SystemExit => exists f, In f frames /\ In QUIT (queued f)
  | RaisedUnboundLocalError =>
      exists f, In f frames /\ In (KEYDOWN true) (queued f)
  | RaisedAttributeError => exists s, In (StrOption s) options
  | StillRunning => True
  end.
Proof.
  induction frames as [|f frames IH]; simpl; [exact I|].
  destruct (draw_options_cases options) as [[_ Hd]|[Hs Hd]]; rewrite Hd.
  - pose proof (handle_events_result options (queued f) true) as H.
    destruct (handle_events options (queued f) true) as [[o| | | |]|[|]];
      try contradiction; auto.
    + exists f. split; [now left|assumption].
    + destruct (selector_get options frames); auto.
      * destruct IH as [g [Hg Hq]]. exists g. split; [now right|assumption].
      * destruct IH as [g [Hg Hq]]. exists g. split; [now right|assumption].
    + destruct (H eq_refl) as [Hf|Hq]; [discriminate|].
      exists f. split; [now left|assumption].
  - exact Hs.
Qed.

(** X27.  A menu with a string among its options, as the default argument
    of [__init__] has, cannot be shown: the first pass of [get] raises
    [AttributeError] while drawing, before any event is handled. *)
Theorem string_option_cannot_be_drawn (options : list menu_option)
    (s : String.string) (f : frame) (rest : list frame) :
  In (StrOption s) options ->
  selector_get options (f :: rest) = RaisedAttributeError.
Proof.
  intros Hin. simpl.
  destruct (draw_options_cases options) as [[Hall _]|[_ Hd]].
  - exfalso. pose proof (proj1 (Forall_forall _ _) Hall _ Hin) as [v Hv].
    discriminate.
  - rewrite Hd. reflexivity.
Qed.

(** *** Witnesses on the menu of the inference methods *)

Lemma hover_is_what_a_click_selects_witness :
  clicked_index 3 100 120 = Some 1%nat /\
  hover_index 3 100 120 = clicked_index 3 100 120.
Proof.
  destruct (hover_is_what_a_click_selects 3 100 120) as [H1 [H2 _]].
  split; [apply H2; lia|exact H1].
Defined.

Lemma get_returns_the_clicked_option_witness :
  selector_get MenuOptions.inference_options
    ([{| mouse_pos := (0, 0)%Z;
         queued := [OtherEvent; MOUSEBUTTONDOWN 10 10; KEYDOWN false] |}]
     ++ {| mouse_pos := (100, 120)%Z;
           queued := [QUIT; MOUSEBUTTONDOWN 100 120; OtherEvent] |}
        :: [])
  = Returned (nth 1 MenuOptions.inference_options
                (StrOption String.EmptyString)) /\
  In (nth 1 MenuOptions.inference_options (StrOption String.EmptyString))
     MenuOptions.inference_options.
Proof.
  apply (get_returns_the_clicked_option MenuOptions.inference_options
           _ [] _ [QUIT] [OtherEvent] 100 120 1).
  - repeat constructor; eexists; reflexivity.
  - repeat constructor.
  - reflexivity.
  - reflexivity.
  - simpl. lia.
  - reflexivity.
Defined.

Lemma return_key_raises_witness :
  selector_get MenuOptions.inference_options
    ([] ++ {| mouse_pos := (0, 0)%Z;
              queued := [MOUSEBUTTONDOWN 10 10; KEYDOWN true] |} :: [])
  = RaisedUnboundLocalError.
Proof.
  apply (return_key_raises MenuOptions.inference_options [] [] _
           [MOUSEBUTTONDOWN 10 10] []).
  - repeat constructor; eexists; reflexivity.
  - constructor.
  - reflexivity.
  - reflexivity.
Defined.

Lemma string_option_cannot_be_drawn_witness :
  selector_get MenuOptions.default_options
    [{| mouse_pos := (0, 0)%Z; queued := [] |}]
  = RaisedAttributeError.
Proof.
  eapply string_option_cannot_be_drawn. left. reflexivity.
Defined.
